(** * QuoteFormatCleaner: the quoted-text normalizer of [email_cleaner.py]

    A shallow embedding of [EmailCleanerConfig.get_keywords] and
    [EmailCleaner.clean_quoted_email], with the Python primitives they rest
    on ([str.strip], [str.splitlines], [str.split], [str.join], [in],
    [str.replace], [re.match], [re.sub]), followed by the properties of the
    normalizer.

    A Python [str] is a sequence of Unicode code points: it is modelled as a
    list of code points, each an [N]. *)

From Stdlib Require Import String Ascii NArith List Bool Lia Arith Sorted.
Import ListNotations.

Definition char := N.
Definition str := list char.

(** ** Literals

    Test inputs are written as UTF-8 string literals and decoded to code
    points. *)
Module Utf8.

Definition byte_of (a : ascii) : N := N_of_ascii a.

Fixpoint bytes_of (s : string) : list N :=
  match s with
  | EmptyString => []
  | String a s' => byte_of a :: bytes_of s'
  end.

Fixpoint decode (bs : list N) : str :=
  match bs with
  | [] => []
  | b :: r =>
      if (b <? 0x80)%N then b :: decode r
      else if (b <? 0xE0)%N then
        match r with
        | b1 :: r1 => ((b - 0xC0) * 64 + (b1 - 0x80))%N :: decode r1
        | _ => []
        end
      else if (b <? 0xF0)%N then
        match r with
        | b1 :: b2 :: r2 =>
            ((b - 0xE0) * 4096 + (b1 - 0x80) * 64 + (b2 - 0x80))%N :: decode r2
        | _ => []
        end
      else
        match r with
        | b1 :: b2 :: b3 :: r3 =>
            ((b - 0xF0) * 262144 + (b1 - 0x80) * 4096
             + (b2 - 0x80) * 64 + (b3 - 0x80))%N :: decode r3
        | _ => []
        end
  end.

End Utf8.

Definition u (s : string) : str := Utf8.decode (Utf8.bytes_of s).

(** ** Exceptions

    Code inside the [try] block may raise; the outcome of a computation is a
    value or a raised exception. *)
Inductive exn : Type :=
| Exception (name : string).

Inductive Exc (A : Type) : Type :=
| Ok (a : A)
| Raise (e : exn).

Arguments Ok {A} a.
Arguments Raise {A} e.

Definition bind {A B} (m : Exc A) (k : A -> Exc B) : Exc B :=
  match m with
  | Ok a => k a
  | Raise e => Raise e
  end.

(** [try: body except Exception as e: handler e] *)
Definition try_except {A} (body : Exc A) (handler : exn -> Exc A) : Exc A :=
  match body with
  | Ok a => Ok a
  | Raise e => handler e
  end.

Notation "x <- m ;; k" := (bind m (fun x => k))
  (at level 61, m at next level, right associativity).

(** ** Python string primitives *)
Module Py.

Local Open Scope N_scope.

Definition LF : char := 0x0A.
Definition CR : char := 0x0D.
Definition SPACE : char := 0x20.
Definition COMMA : char := 0x2C.

(** [Py_UNICODE_ISSPACE]: the characters [str.strip], [str.isspace] and
    the regular-expression class [\s] treat as whitespace. *)
Definition is_space (c : char) : bool :=
  ((0x09 <=? c) && (c <=? 0x0D))
  || ((0x1C <=? c) && (c <=? 0x20))
  || (c =? 0x85) || (c =? 0xA0) || (c =? 0x1680)
  || ((0x2000 <=? c) && (c <=? 0x200A))
  || (c =? 0x2028) || (c =? 0x2029) || (c =? 0x202F)
  || (c =? 0x205F) || (c =? 0x3000).

(** [Py_UNICODE_ISLINEBREAK]: the line boundaries of [str.splitlines]. *)
Definition is_linebreak (c : char) : bool :=
  ((0x0A <=? c) && (c <=? 0x0D))
  || ((0x1C <=? c) && (c <=? 0x1E))
  || (c =? 0x85) || (c =? 0x2028) || (c =? 0x2029).

Fixpoint lstrip (s : str) : str :=
  match s with
  | [] => []
  | c :: s' => if is_space c then lstrip s' else s
  end.

Definition rstrip (s : str) : str := rev (lstrip (rev s)).

(** [s.strip()] *)
Definition strip (s : str) : str := rstrip (lstrip s).

(** [s.splitlines()]: [cur] is the line being read.  ["\r\n"] is one
    boundary; a final line break opens no further line. *)
Fixpoint splitlines_from (cur : str) (s : str) : list str :=
  match s with
  | [] => match cur with [] => [] | _ => [cur] end
  | c :: s' =>
      if c =? CR then
        match s' with
        | c' :: s'' =>
            if c' =? LF then cur :: splitlines_from [] s''
            else cur :: splitlines_from [] s'
        | [] => cur :: splitlines_from [] s'
        end
      else if is_linebreak c then cur :: splitlines_from [] s'
      else splitlines_from (cur ++ [c]) s'
  end.

Definition splitlines (s : str) : list str := splitlines_from [] s.

(** [sep.join(parts)] *)
Fixpoint join (sep : str) (parts : list str) : str :=
  match parts with
  | [] => []
  | [p] => p
  | p :: rest => p ++ sep ++ join sep rest
  end.

(** [s.split(sep)] for a separator of one character. *)
Fixpoint split_from (sep : char) (cur : str) (s : str) : list str :=
  match s with
  | [] => [cur]
  | c :: s' =>
      if c =? sep then cur :: split_from sep [] s'
      else split_from sep (cur ++ [c]) s'
  end.

Definition split (sep : char) (s : str) : list str := split_from sep [] s.

Fixpoint startswith (p s : str) : bool :=
  match p, s with
  | [], _ => true
  | _ :: _, [] => false
  | a :: p', b :: s' => (a =? b) && startswith p' s'
  end.

(** [sub in s] *)
Fixpoint contains (sub s : str) : bool :=
  startswith sub s
  || match s with
     | [] => false
     | _ :: s' => contains sub s'
     end.

(** The scan shared by [str.replace] and [re.sub]: left to right, the
    occurrences replaced do not overlap.  [occ s] is the length of the
    occurrence that starts at the head of [s], if there is one; [skip]
    counts the characters of the current occurrence still to pass.  An
    occurrence of length 0 is replaced where it stands; no keyword and no
    pattern of the normalizer has one. *)
Fixpoint scan (occ : str -> option nat) (new : str) (skip : nat) (s : str)
  : str :=
  match s with
  | [] => []
  | c :: s' =>
      match skip with
      | S k => scan occ new k s'
      | O =>
          match occ s with
          | Some (S n) => new ++ scan occ new n s'
          | Some O => new ++ c :: scan occ new 0 s'
          | None => c :: scan occ new 0 s'
          end
      end
  end.

(** [s.replace(old, new)]; with an empty [old], [new] goes before every
    character and at the end. *)
Definition replace (old new : str) (s : str) : str :=
  match old with
  | [] => new ++ flat_map (fun c => c :: new) s
  | _ :: _ =>
      scan (fun t => if startswith old t then Some (length old) else None)
           new 0 s
  end.

(** [not s], for a string and for a list. *)
Definition is_empty (s : str) : bool :=
  match s with [] => true | _ :: _ => false end.

Definition is_empty_list {A} (l : list A) : bool :=
  match l with [] => true | _ :: _ => false end.

End Py.

(** ** Regular expressions

    The fragment of Python's [re] the normalizer uses: a pattern is a
    sequence of greedy repetitions of a character class and of one-character
    lookaheads; matching backtracks as the [sre] engine does, longest
    repetition first. *)
Module Re.

Inductive item : Type :=
| Rep (cls : char -> bool) (lo : nat) (hi : option nat)
    (* [cls{lo,hi}], greedy; [hi = None] is unbounded *)
| Ahead (cls : char -> bool).
    (* [(?=cls)] *)

Definition One cls := Rep cls 1 (Some 1%nat).
Definition Star cls := Rep cls 0 None.
Definition Plus cls := Rep cls 1 None.
Definition Opt cls := Rep cls 0 (Some 1%nat).
Definition AtLeast n cls := Rep cls n None.

Definition pattern := list item.

Definition may_take (hi : option nat) : bool :=
  match hi with Some O => false | _ => true end.

(** A greedy repetition followed by the rest of the pattern [k]: take one
    more character if allowed and the whole match then succeeds, otherwise
    stop here if [lo] is reached.  The result is the length matched. *)
Fixpoint rep (cls : char -> bool) (k : str -> option nat)
         (lo : nat) (hi : option nat) (s : str) : option nat :=
  let stop := match lo with O => k s | S _ => None end in
  match s with
  | c :: s' =>
      if cls c && may_take hi then
        match rep cls k (pred lo) (option_map pred hi) s' with
        | Some n => Some (S n)
        | None => stop
        end
      else stop
  | [] => stop
  end.

(** The match of a pattern at the head of [s]: its length, if any. *)
Fixpoint match_here (r : pattern) (s : str) : option nat :=
  match r with
  | [] => Some O
  | Rep cls lo hi :: r' => rep cls (match_here r') lo hi s
  | Ahead cls :: r' =>
      match s with
      | c :: _ => if cls c then match_here r' s else None
      | [] => None
      end
  end.

(** [re.match(r, s)] as a truth value. *)
Definition re_match (r : pattern) (s : str) : bool :=
  match match_here r s with Some _ => true | None => false end.

(** [re.sub(r, repl, s)] for a pattern that is not anchored and a
    replacement without group references. *)
Definition sub (r : pattern) (repl : str) (s : str) : str :=
  Py.scan (match_here r) repl 0 s.

(** [re.sub('^' + r, repl, s)]: without [re.MULTILINE] the anchor holds at
    the start of the string only, so at most the match there is
    replaced. *)
Definition sub_anchored (r : pattern) (repl : str) (s : str) : str :=
  match match_here r s with
  | Some n => repl ++ skipn n s
  | None => s
  end.

End Re.

(** ** The configuration ([EmailCleanerConfig]) *)
Module Config.

Import Py.
Local Open Scope string_scope.

(** [configparser.ConfigParser] is a collaborator from the standard
    library; the code reads it through [get(section, option, fallback=..)]
    only, which yields a string or raises (an interpolation error raises
    whatever the fallback). *)
Record ConfigParser : Type := {
  get : string -> string -> str -> Exc str
}.

Record EmailCleanerConfig : Type := {
  config : ConfigParser
}.

Fixpoint lookup {V} (key : string) (d : list (string * V)) : option V :=
  match d with
  | [] => None
  | (k, v) :: d' => if String.eqb k key then Some v else lookup key d'
  end.

(** The sections [_create_default_config] stores in the parser. *)
Definition default_sections : list (string * list (string * str)) :=
  [ ("paths", [ ("input_dir", u "input"); ("output_dir", u "output") ]);
    ("processing", [ ("encoding", u "utf-8"); ("backup_original", u "true") ]);
    ("keywords", [ ("list", u "記、件名、宛先、差出人") ]) ].

(** A parser holding [sections].  Its values are returned as stored, which
    is what [get] does for a value without ['%']. *)
Definition parser_of (sections : list (string * list (string * str)))
  : ConfigParser :=
  {| get := fun section option fallback =>
       match lookup section sections with
       | None => Ok fallback
       | Some d =>
           match lookup option d with
           | None => Ok fallback
           | Some v => Ok v
           end
       end |}.

Definition _create_default_config : ConfigParser :=
  parser_of default_sections.

(** [_load_config]: [on_disk] is the parser read from the configuration
    file when the file exists. *)
Definition _load_config (on_disk : option ConfigParser) : EmailCleanerConfig :=
  match on_disk with
  | Some p => {| config := p |}
  | None => {| config := _create_default_config |}
  end.

Definition get_keywords (self : EmailCleanerConfig) : Exc (list str) :=
  keywords_str <- get (config self) "keywords" "list" [] ;;
  Ok (map strip
        (filter (fun kw => negb (is_empty (strip kw)))
                (split COMMA keywords_str))).

End Config.

(** ** The normalizer ([EmailCleaner.clean_quoted_email])

    The two calls of the logger write to the log and leave the returned
    string alone; they are not modelled. *)
Module Cleaner.

Import Py Re Config.
Local Open Scope N_scope.
Local Open Scope list_scope.

Definition GT : char := 0x3E.              (* > *)
Definition FULL_STOP : char := 0x3002.     (* 。 *)
Definition WIDE_SPACE : char := 0x3000.    (* full-width space *)

Definition is_gt (c : char) : bool := c =? GT.
Definition is_full_stop (c : char) : bool := c =? FULL_STOP.
Definition is_lf (c : char) : bool := c =? LF.

(** [[\s　]] *)
Definition is_blank (c : char) : bool := is_space c || (c =? WIDE_SPACE).

Definition DQUOTE : char := 0x22.
Definition SQUOTE : char := 0x27.

(** The characters of the negated class in the sentence pattern: the
    closing brackets 」』）】}]), the greater-than sign and the two ASCII
    quotes. *)
Definition closing : str := u "」』）】}])>" ++ [DQUOTE; SQUOTE].

Definition is_closing (c : char) : bool := existsb (N.eqb c) closing.

(** [^\s*>+] *)
Definition quote_re : pattern := [Star is_space; Plus is_gt].

(** [^\s*>+\s?] *)
Definition marker_re : pattern := [Star is_space; Plus is_gt; Opt is_space].

(** [。[\s　]*(?=[^...])], the class after [^] being [closing]. *)
Definition sentence_re : pattern :=
  [One is_full_stop; Star is_blank; Ahead (fun c => negb (is_closing c))].

(** [[\s　]+] *)
Definition blank_re : pattern := [Plus is_blank].

(** [\n{3,}] *)
Definition blank_lines_re : pattern := [AtLeast 3 is_lf].

(** [[line for line in lines if re.match(r'^\s*>+', line)]] *)
Definition quoted_lines (text : str) : list str :=
  filter (re_match quote_re) (splitlines text).

(** The loop that strips the quote markers and drops the empty lines. *)
Definition cleaned_lines (quoted : list str) : list str :=
  filter (fun cleaned_line => negb (is_empty cleaned_line))
         (map (fun line => strip (sub_anchored marker_re [] line)) quoted).

Definition sentence_breaks (joined_text : str) : str :=
  sub sentence_re [FULL_STOP; LF] joined_text.

Definition blanks_to_newlines (joined_text : str) : str :=
  sub blank_re [LF] joined_text.

(** The body of the keyword loop:
    [if kw in joined_text: joined_text = joined_text.replace(kw, ...)] *)
Definition keyword_step (joined_text : str) (kw : str) : str :=
  if contains kw joined_text
  then replace kw ([LF; LF] ++ kw) joined_text
  else joined_text.

(** [for kw in keywords: ...] *)
Definition keyword_breaks (keywords : list str) (joined_text : str) : str :=
  fold_left keyword_step keywords joined_text.

Definition collapse_blank_lines (joined_text : str) : str :=
  sub blank_lines_re [LF; LF] joined_text.

(** The body of the [try] block. *)
Definition try_body (cfg : EmailCleanerConfig) (text : str) : Exc str :=
  let quoted := quoted_lines text in
  if is_empty_list quoted then Ok (strip text)
  else
    let cleaned := cleaned_lines quoted in
    if is_empty_list cleaned then Ok []
    else
      let joined_text := join [SPACE] cleaned in
      let joined_text := sentence_breaks joined_text in
      let joined_text := blanks_to_newlines joined_text in
      keywords <- get_keywords cfg ;;
      let joined_text := keyword_breaks keywords joined_text in
      let joined_text := collapse_blank_lines joined_text in
      Ok (strip joined_text).

Definition clean_quoted_email (cfg : EmailCleanerConfig) (text : str)
  : Exc str :=
  if is_empty (strip text) then Ok []
  else try_except (try_body cfg text) (fun _ => Ok text).

End Cleaner.

(** ** The vocabulary of the properties *)
Module Props.

Import Py Re Config Cleaner.
Local Open Scope list_scope.

(** A quote line: optional leading whitespace, then a quote marker. *)
Definition is_quote_line (line : str) : Prop :=
  exists ws rest, line = ws ++ GT :: rest /\ forallb is_space ws = true.

(** No leading and no trailing whitespace. *)
Definition trimmed (s : str) : Prop :=
  (forall c t, s = c :: t -> is_space c = false)
  /\ (forall c t, s = t ++ [c] -> is_space c = false).

(** [sub] occurs in [s] as a literal substring. *)
Definition occurs (sub s : str) : Prop :=
  exists a b, s = a ++ sub ++ b.

(** A run of three or more consecutive line breaks somewhere in [s]. *)
Definition has_blank_run (s : str) : Prop := occurs [LF; LF; LF] s.

(** The number of line breaks [s] begins with. *)
Fixpoint lead_lf (s : str) : nat :=
  match s with
  | c :: s' => if is_lf c then S (lead_lf s') else O
  | [] => O
  end.

(** The number of blanks [s] begins with. *)
Fixpoint lead_blank (s : str) : nat :=
  match s with
  | c :: s' => if is_blank c then S (lead_blank s') else O
  | [] => O
  end.

(** [s] begins with a character that is not a closing one. *)
Definition opens_plain (s : str) : bool :=
  match s with
  | c :: _ => negb (is_closing c)
  | [] => false
  end.

(** The blanks the sentence pattern takes after a full stop, [t] being
    the text after it: the whole run when a character that is not a
    closing one follows the run; otherwise the engine gives the last blank
    back, and the lookahead holds on that blank.  There is no match when
    [t] is empty or begins with a closing character. *)
Definition blanks_taken (t : str) : option nat :=
  if opens_plain (skipn (lead_blank t) t) then Some (lead_blank t)
  else match lead_blank t with
       | S b => Some b
       | O => None
       end.

(** The number of blanks a match after a full stop replaces. *)
Definition blanks_replaced (t : str) : nat :=
  if opens_plain (skipn (lead_blank t) t) then lead_blank t
  else pred (lead_blank t).

(** The first occurrence of [kw] in [t] is at [a], followed by [rest]. *)
Definition first_at (kw a rest t : str) : Prop :=
  t = a ++ kw ++ rest
  /\ forall i, (i < length a)%nat -> startswith kw (skipn i t) = false.

(** One left-to-right pass for a keyword: every occurrence met, each
    searched after the end of the one before, gets two line breaks in
    front of it. *)
Inductive Replaced (kw : str) : str -> str -> Prop :=
| Replaced_none t :
    ~ occurs kw t -> Replaced kw t t
| Replaced_occ a rest rest' t :
    first_at kw a rest t ->
    Replaced kw rest rest' ->
    Replaced kw t (a ++ [LF; LF] ++ kw ++ rest').

(** The passes for a list of keywords, in list order, each on the text the
    pass before left. *)
Inductive KeywordPasses : list str -> str -> str -> Prop :=
| Passes_nil t : KeywordPasses [] t t
| Passes_cons kw kws t t' t'' :
    Replaced kw t t' ->
    KeywordPasses kws t' t'' ->
    KeywordPasses (kw :: kws) t t''.

(** A configuration whose [keywords]/[list] option holds [value]. *)
Definition config_with_list (value : str) : EmailCleanerConfig :=
  {| config := parser_of [("keywords"%string, [("list"%string, value)])] |}.

(** A configuration whose parser raises on [get], as it does for a value
    with a stray ['%']. *)
Definition config_raising : EmailCleanerConfig :=
  {| config := {| get := fun _ _ _ =>
                    Raise (Exception "InterpolationSyntaxError") |} |}.

End Props.

(** ** The vocabulary of the further properties *)
Module Shape.

Import Py Re Config Cleaner Props.
Local Open Scope list_scope.

(** The characters of [s] that are not whitespace, in order. *)
Definition ink (s : str) : str := filter (fun c => negb (is_space c)) s.

Fixpoint drop_gt (s : str) : str :=
  match s with
  | c :: s' => if is_gt c then drop_gt s' else s
  | [] => []
  end.

(** What a line holds after its leading whitespace and the run of quote
    markers that follows. *)
Definition after_marker (line : str) : str := drop_gt (lstrip line).

(** The whitespace characters, at most one, that the optional [\s] of the
    marker pattern takes at the head of [rest]. *)
Definition space_ahead (rest : str) : nat :=
  match rest with
  | c :: _ => if is_space c then 1%nat else O
  | [] => O
  end.

(** Every whitespace character of [s] is a line break. *)
Definition only_lf_space (s : str) : Prop :=
  forall c, In c s -> is_space c = true -> c = LF.

(** Every full stop of [s] that is not the last character is followed by a
    line break or by a closing character. *)
Definition stops_end_lines (s : str) : Prop :=
  forall a c b,
    s = a ++ FULL_STOP :: c :: b -> c = LF \/ is_closing c = true.

(** Reading a text for a quote line, character by character: still in the
    leading whitespace of a line, past it without a marker, or a marker
    found. *)
Inductive line_state : Type := Leading | Dead | Found.

Definition step_state (st : line_state) (c : char) : line_state :=
  match st with
  | Found => Found
  | Leading =>
      if is_linebreak c then Leading
      else if N.eqb c GT then Found
      else if is_space c then Leading
      else Dead
  | Dead => if is_linebreak c then Leading else Dead
  end.

Definition read_from (st : line_state) (s : str) : line_state :=
  fold_left step_state s st.

(** [t'] is [t] with line breaks put in. *)
Inductive lf_inserted : str -> str -> Prop :=
| Ins_nil : lf_inserted [] []
| Ins_keep c t t' : lf_inserted t t' -> lf_inserted (c :: t) (c :: t')
| Ins_add t t' : lf_inserted t t' -> lf_inserted t (LF :: t').

End Shape.

(** ** The batch driver (the other methods of [EmailCleaner])

    The driver works on the file system and on the terminal.  Every call
    to the outside is recorded in a trace, and the outside answers through
    an oracle that sees the trace so far; a property proved for every
    oracle holds whatever the file system and the user do.  The counters
    [processed_count] and [error_count] are the state of the object.  The
    calls of the logger and of [print] are not modelled, and neither is an
    interrupt from the keyboard outside [input]. *)
Module Batch.

Import Py Re Config Cleaner.
Local Open Scope list_scope.
Local Open Scope string_scope.

(** [Path(s)] and [p / name], kept symbolic. *)
Inductive path : Type :=
| Path (s : str)
| Join (p : path) (name : str).

Inductive event : Type :=
| Mkdir (p : path)                               (* p.mkdir(exist_ok=True) *)
| Iterdir (p : path)                             (* p.iterdir(), is_file() *)
| ReadText (p : path) (encoding : str)           (* open(p, "r").read() *)
| WriteText (p : path) (encoding content : str)  (* open(p, "w").write(..) *)
| Copy2 (src dst : path)                         (* shutil.copy2(src, dst) *)
| Exists (p : path)                              (* p.exists() *)
| Unlink (p : path)                              (* p.unlink() *)
| Input.                                         (* input(prompt) *)

(** What [input] gives: a line, [EOFError], [KeyboardInterrupt], or
    another exception. *)
Inductive input_result : Type :=
| Answer (s : str)
| EndOfInput
| Interrupted
| InputError (e : exn).

(** The outside.  [iterdir] gives the names of the directory, each with
    the answer of [is_file()], or the exception raised on the way.
    [getboolean] is the method of the configuration parser;
    [has_txt_suffix name] stands for [Path(name).suffix.lower() == '.txt']
    and [lower] for [str.lower]. *)
Record World : Type := {
  mkdir : list event -> path -> Exc unit;
  iterdir : list event -> path -> Exc (list (str * bool));
  read_text : list event -> path -> str -> Exc str;
  write_text : list event -> path -> str -> str -> Exc unit;
  copy2 : list event -> path -> path -> Exc unit;
  exists_ : list event -> path -> Exc bool;
  unlink : list event -> path -> Exc unit;
  input : list event -> input_result;
  getboolean : string -> string -> bool -> Exc bool;
  has_txt_suffix : str -> bool;
  lower : str -> str
}.

Record state : Type := {
  processed_count : nat;
  error_count : nat;
  trace : list event
}.

(** A method: it runs from a state and ends with a value or an exception,
    in a new state. *)
Definition M (A : Type) : Type := state -> Exc A * state.

Definition ret {A} (a : A) : M A := fun st => (Ok a, st).

Definition mbind {A B} (m : M A) (k : A -> M B) : M B :=
  fun st =>
    match m st with
    | (Ok a, st') => k a st'
    | (Raise e, st') => (Raise e, st')
    end.

Notation "x <~ m ;; k" := (mbind m (fun x => k))
  (at level 61, m at next level, right associativity).

Notation "m ;;; k" := (mbind m (fun _ => k))
  (at level 61, right associativity).

(** A computation that does not touch the state. *)
Definition lift {A} (r : Exc A) : M A := fun st => (r, st).

(** [try: m except Exception: handler] *)
Definition try_catch {A} (m : M A) (handler : M A) : M A :=
  fun st =>
    match m st with
    | (Ok a, st') => (Ok a, st')
    | (Raise _, st') => handler st'
    end.

(** A call to the outside: the oracle answers on the trace so far, and the
    call joins the trace. *)
Definition call {A} (answer : list event -> Exc A) (ev : event) : M A :=
  fun st =>
    (answer (trace st),
     {| processed_count := processed_count st;
        error_count := error_count st;
        trace := trace st ++ [ev] |}).

Definition add_processed : M unit :=
  fun st =>
    (Ok tt, {| processed_count := S (processed_count st);
               error_count := error_count st;
               trace := trace st |}).

Definition add_error : M unit :=
  fun st =>
    (Ok tt, {| processed_count := processed_count st;
               error_count := S (error_count st);
               trace := trace st |}).

Definition reset_counts : M unit :=
  fun st =>
    (Ok tt, {| processed_count := 0;
               error_count := 0;
               trace := trace st |}).

Definition counts : M (nat * nat) :=
  fun st => (Ok (processed_count st, error_count st), st).

(** [for x in l: body x] *)
Fixpoint for_each {A} (l : list A) (body : A -> M unit) : M unit :=
  match l with
  | [] => ret tt
  | x :: l' => body x ;;; for_each l' body
  end.

Fixpoint str_eqb (a b : str) : bool :=
  match a, b with
  | [], [] => true
  | x :: a', y :: b' => N.eqb x y && str_eqb a' b'
  | _, _ => false
  end.

Section Driver.

Variable w : World.
Variable cfg : EmailCleanerConfig.

Definition get_input_dir : Exc str :=
  get (config cfg) "paths" "input_dir" (u "input").

Definition get_output_dir : Exc str :=
  get (config cfg) "paths" "output_dir" (u "output").

Definition get_encoding : Exc str :=
  get (config cfg) "processing" "encoding" (u "utf-8").

Definition should_backup : Exc bool :=
  getboolean w "processing" "backup_original" true.

Definition create_directories : M bool :=
  try_catch
    (input_dir <~ lift get_input_dir ;;
     output_dir <~ lift get_output_dir ;;
     call (fun tr => mkdir w tr (Path input_dir)) (Mkdir (Path input_dir)) ;;;
     call (fun tr => mkdir w tr (Path output_dir)) (Mkdir (Path output_dir)) ;;;
     ret true)
    (ret false).

Definition find_text_files : M (list str) :=
  try_catch
    (input_dir <~ lift get_input_dir ;;
     entries <~ call (fun tr => iterdir w tr (Path input_dir))
                     (Iterdir (Path input_dir)) ;;
     ret (map fst
            (filter (fun f => snd f && has_txt_suffix w (fst f)) entries)))
    (ret []).

Definition process_single_file (filename : str) : M bool :=
  input_dir <~ lift get_input_dir ;;
  output_dir <~ lift get_output_dir ;;
  encoding <~ lift get_encoding ;;
  let input_path := Join (Path input_dir) filename in
  let output_path := Join (Path output_dir) filename in
  done <~ try_catch
            (raw_text <~ call (fun tr => read_text w tr input_path encoding)
                              (ReadText input_path encoding) ;;
             cleaned_text <~ lift (clean_quoted_email cfg raw_text) ;;
             call (fun tr => write_text w tr output_path encoding cleaned_text)
                  (WriteText output_path encoding cleaned_text) ;;;
             add_processed ;;;
             ret true)
            (ret false) ;;
  if done then ret true
  else add_error ;;; ret false.

Definition backup_original_files (filenames : list str) : M bool :=
  backup <~ lift should_backup ;;
  if negb backup then ret true
  else
    try_catch
      (input_dir <~ lift get_input_dir ;;
       let backup_dir := Join (Path input_dir) (u "backup") in
       call (fun tr => mkdir w tr backup_dir) (Mkdir backup_dir) ;;;
       for_each filenames
         (fun filename =>
            input_dir <~ lift get_input_dir ;;
            let src := Join (Path input_dir) filename in
            let dst := Join backup_dir filename in
            call (fun tr => copy2 w tr src dst) (Copy2 src dst)) ;;;
       ret true)
      (ret false).

(** [answer in ['y', 'yes', 'はい']] for the answer trimmed and lowered. *)
Definition accepted (line : str) : bool :=
  existsb (str_eqb (lower w (strip line))) [u "y"; u "yes"; u "はい"].

Definition confirm_deletion : M bool :=
  fun st =>
    let st' := {| processed_count := processed_count st;
                  error_count := error_count st;
                  trace := trace st ++ [Input] |} in
    match input w (trace st) with
    | Answer line => (Ok (accepted line), st')
    | EndOfInput => (Ok false, st')
    | Interrupted => (Ok false, st')
    | InputError e => (Raise e, st')
    end.

Definition delete_original_files (filenames : list str) : M bool :=
  try_catch
    (input_dir <~ lift get_input_dir ;;
     for_each filenames
       (fun filename =>
          let file_path := Join (Path input_dir) filename in
          present <~ call (fun tr => exists_ w tr file_path)
                          (Exists file_path) ;;
          if present
          then call (fun tr => unlink w tr file_path) (Unlink file_path)
          else ret tt) ;;;
     ret true)
    (ret false).

(** The last block of [process_all_files]:
    [if self.processed_count > 0 and self.confirm_deletion(): ...] *)
Definition delete_if_confirmed (txt_files : list str) : M unit :=
  fun st =>
    if (0 <? processed_count st)%nat
    then (confirmed <~ confirm_deletion ;;
          if confirmed
          then delete_original_files txt_files ;;; ret tt
          else ret tt) st
    else (Ok tt, st).

Definition process_all_files : M (nat * nat) :=
  reset_counts ;;;
  created <~ create_directories ;;
  if negb created then counts
  else
    txt_files <~ find_text_files ;;
    if is_empty_list txt_files then counts
    else
      backup <~ lift should_backup ;;
      (if backup then backup_original_files txt_files ;;; ret tt
       else ret tt) ;;;
      for_each txt_files
        (fun filename => process_single_file filename ;;; ret tt) ;;;
      delete_if_confirmed txt_files ;;;
      counts.

End Driver.

(** An outside where every call succeeds: one text file in the input
    directory, and the user answers [answer]. *)
Definition calm_world (answer : input_result) : World :=
  {| mkdir := fun _ _ => Ok tt;
     iterdir := fun _ _ => Ok [(u "a.txt", true); (u "notes.md", true);
                               (u "old.txt", false)];
     read_text := fun _ _ _ => Ok (u "> 了解です。 以上");
     write_text := fun _ _ _ _ => Ok tt;
     copy2 := fun _ _ _ => Ok tt;
     exists_ := fun _ _ => Ok true;
     unlink := fun _ _ => Ok tt;
     input := fun _ => answer;
     getboolean := fun _ _ fallback => Ok fallback;
     has_txt_suffix := fun name => startswith (rev (u ".txt")) (rev name);
     lower := fun s => s |}.

(** An outside where nothing can be read. *)
Definition unreadable_world : World :=
  {| mkdir := fun _ _ => Ok tt;
     iterdir := fun _ _ => Ok [(u "a.txt", true); (u "b.txt", true)];
     read_text := fun _ _ _ => Raise (Exception "PermissionError");
     write_text := fun _ _ _ _ => Ok tt;
     copy2 := fun _ _ _ => Ok tt;
     exists_ := fun _ _ => Ok true;
     unlink := fun _ _ => Ok tt;
     input := fun _ => Answer (u "y");
     getboolean := fun _ _ fallback => Ok fallback;
     has_txt_suffix := fun name => startswith (rev (u ".txt")) (rev name);
     lower := fun s => s |}.

(** An outside whose configuration has no boolean under
    [backup_original]. *)
Definition unconfigured_world : World :=
  {| mkdir := fun _ _ => Ok tt;
     iterdir := fun _ _ => Ok [(u "a.txt", true)];
     read_text := fun _ _ _ => Ok (u "> 了解です。");
     write_text := fun _ _ _ _ => Ok tt;
     copy2 := fun _ _ _ => Ok tt;
     exists_ := fun _ _ => Ok true;
     unlink := fun _ _ => Ok tt;
     input := fun _ => Answer (u "y");
     getboolean := fun _ _ _ => Raise (Exception "ValueError");
     has_txt_suffix := fun name => startswith (rev (u ".txt")) (rev name);
     lower := fun s => s |}.

Definition start : state :=
  {| processed_count := 0; error_count := 0; trace := [] |}.

(** [m] keeps the relation [R] between the state it starts from and the
    state it ends in, whatever its result. *)
Definition keeps (R : state -> state -> Prop) {A} (m : M A) : Prop :=
  forall st, R st (snd (m st)).

Definition same_counts (st st' : state) : Prop :=
  processed_count st' = processed_count st
  /\ error_count st' = error_count st.

(** The trace grew by events that all satisfy [P]. *)
Definition grew_by (P : event -> Prop) (st st' : state) : Prop :=
  exists evs, trace st' = (trace st ++ evs)%list /\ Forall P evs.

(** Neither a deletion nor a question to the user. *)
Definition quiet (ev : event) : Prop :=
  match ev with
  | Unlink _ => False
  | Input => False
  | _ => True
  end.

Definition not_unlink (ev : event) : Prop :=
  match ev with
  | Unlink _ => False
  | _ => True
  end.

(** The counters are the same and the trace grew by quiet events. *)
Definition calm (st st' : state) : Prop :=
  same_counts st st' /\ grew_by quiet st st'.

(** The counters did not go down, and if nothing is counted as processed
    the trace grew by quiet events only. *)
Definition quiet_while_zero (st st' : state) : Prop :=
  (processed_count st <= processed_count st')%nat
  /\ (processed_count st' = O -> grew_by quiet st st').

(** The part of a run a call belongs to: the directories, the listing and
    the backup; the reading and writing of the files; the question to the
    user; the deletion. *)
Definition phase (ev : event) : nat :=
  match ev with
  | Mkdir _ | Iterdir _ | Copy2 _ _ => 0
  | ReadText _ _ | WriteText _ _ _ => 1
  | Input => 2
  | Exists _ | Unlink _ => 3
  end.

Definition phase_le (x y : event) : Prop := (phase x <= phase y)%nat.

(** The trace grew by calls of the phases [lo] to [hi], in the order of
    the phases. *)
Definition in_order (lo hi : nat) (st st' : state) : Prop :=
  exists evs,
    trace st' = (trace st ++ evs)%list
    /\ Forall (fun ev => (lo <= phase ev <= hi)%nat) evs
    /\ StronglySorted phase_le evs.

(** Where the driver writes, copies and deletes: a file is written under
    the output directory and holds an output of the normalizer, a copy goes
    from the input directory to its [backup] directory under the same name,
    and a file unlinked is in the input directory; the name is each time
    one with the text suffix. *)
Definition in_place (w : World) (cfg : EmailCleanerConfig) (ev : event)
  : Prop :=
  match ev with
  | WriteText p _ content =>
      exists output_dir name raw_text,
        get_output_dir cfg = Ok output_dir
        /\ p = Join (Path output_dir) name
        /\ has_txt_suffix w name = true
        /\ clean_quoted_email cfg raw_text = Ok content
  | Copy2 src dst =>
      exists input_dir name,
        get_input_dir cfg = Ok input_dir
        /\ src = Join (Path input_dir) name
        /\ dst = Join (Join (Path input_dir) (u "backup")) name
        /\ has_txt_suffix w name = true
  | Unlink p =>
      exists input_dir name,
        get_input_dir cfg = Ok input_dir
        /\ p = Join (Path input_dir) name
        /\ has_txt_suffix w name = true
  | _ => True
  end.

Definition failed {A} (r : Exc A) : bool :=
  match r with
  | Ok _ => false
  | Raise _ => true
  end.

(** Whether the call [ev], made after the calls [tr], raised. *)
Definition call_raised (w : World) (tr : list event) (ev : event) : bool :=
  match ev with
  | Mkdir p => failed (mkdir w tr p)
  | Iterdir p => failed (iterdir w tr p)
  | ReadText p encoding => failed (read_text w tr p encoding)
  | WriteText p encoding content =>
      failed (write_text w tr p encoding content)
  | Copy2 src dst => failed (copy2 w tr src dst)
  | Exists p => failed (exists_ w tr p)
  | Unlink p => failed (unlink w tr p)
  | Input =>
      match input w tr with
      | Answer _ => false
      | _ => true
      end
  end.

(** Of the calls [evs] made after [tr], none raised. *)
Fixpoint none_raised (w : World) (tr : list event) (evs : list event)
  : bool :=
  match evs with
  | [] => true
  | ev :: evs' =>
      negb (call_raised w tr ev) && none_raised w (tr ++ [ev]) evs'
  end.

(** Of the calls [evs] made after [tr], the last one raised and it is the
    only one that did. *)
Fixpoint last_raised (w : World) (tr : list event) (evs : list event)
  : bool :=
  match evs with
  | [] => false
  | ev :: evs' =>
      match evs' with
      | [] => call_raised w tr ev
      | _ :: _ =>
          negb (call_raised w tr ev) && last_raised w (tr ++ [ev]) evs'
      end
  end.

(** [m] goes on while its calls return and stops at the first one that
    raises, with that exception; a value it returns satisfies [Q]. *)
Definition tracked (w : World) {A} (Q : A -> Prop) (m : M A) : Prop :=
  forall st, exists evs,
    trace (snd (m st)) = (trace st ++ evs)%list
    /\ match fst (m st) with
       | Ok a => Q a /\ none_raised w (trace st) evs = true
       | Raise _ => last_raised w (trace st) evs = true
       end.

(** An outside where the input directory cannot be changed: nothing is
    made in it and nothing is removed from it. *)
Definition locked_world : World :=
  {| mkdir := fun _ _ => Raise (Exception "PermissionError");
     iterdir := fun _ _ => Raise (Exception "PermissionError");
     read_text := fun _ _ _ => Ok (u "> 了解です。");
     write_text := fun _ _ _ _ => Ok tt;
     copy2 := fun _ _ _ => Ok tt;
     exists_ := fun _ _ => Ok true;
     unlink := fun _ _ => Raise (Exception "PermissionError");
     input := fun _ => Answer (u "y");
     getboolean := fun _ _ fallback => Ok fallback;
     has_txt_suffix := fun name => startswith (rev (u ".txt")) (rev name);
     lower := fun s => s |}.

End Batch.

(** ** Lemmas on the string primitives *)
Module PyFacts.

Import Py.
Local Open Scope list_scope.

(** Induction on the length of a string. *)
Lemma length_ind (P : str -> Prop) :
  (forall s, (forall t, (length t < length s)%nat -> P t) -> P s) ->
  forall s, P s.
Proof.
  intros H s. remember (length s) as n eqn:E. revert s E.
  induction n as [n IH] using lt_wf_ind. intros s ->.
  apply H. intros t Ht. exact (IH _ Ht t eq_refl).
Qed.

Lemma lstrip_all_space (s : str) :
  forallb is_space s = true -> lstrip s = [].
Proof.
  induction s as [|c s IH]; simpl; [reflexivity|].
  intros H. apply andb_prop in H as [Hc Hs]. rewrite Hc. auto.
Qed.

Lemma lstrip_head (s : str) c t :
  lstrip s = c :: t -> is_space c = false.
Proof.
  induction s as [|d s IH]; simpl; [discriminate|].
  destruct (is_space d) eqn:Hd; [assumption|].
  intros H. injection H as -> _. assumption.
Qed.

Lemma lstrip_split (s : str) :
  exists p, s = p ++ lstrip s /\ forallb is_space p = true.
Proof.
  induction s as [|c s [p [Hp Hs]]]; simpl.
  - exists []. auto.
  - destruct (is_space c) eqn:Hc.
    + exists (c :: p). simpl. rewrite Hc, Hs. split; [congruence|reflexivity].
    + exists []. auto.
Qed.

Lemma lstrip_app_plain (a b : str) c :
  is_space c = false -> lstrip (a ++ c :: b) = lstrip a ++ c :: b.
Proof.
  intros Hc. induction a as [|d a IH]; simpl.
  - rewrite Hc. reflexivity.
  - destruct (is_space d); [assumption|reflexivity].
Qed.

Lemma rstrip_split (s : str) :
  exists q, s = rstrip s ++ q /\ forallb is_space q = true.
Proof.
  unfold rstrip. destruct (lstrip_split (rev s)) as [p [Hp Hs]].
  exists (rev p). split.
  - rewrite <- rev_app_distr, <- Hp, rev_involutive. reflexivity.
  - rewrite forallb_forall in *. intros x Hx. apply Hs.
    apply in_rev. assumption.
Qed.

Lemma rstrip_last (s : str) c t :
  rstrip s = t ++ [c] -> is_space c = false.
Proof.
  unfold rstrip. intros H.
  apply (f_equal (@rev char)) in H.
  rewrite rev_involutive, rev_app_distr in H. simpl in H.
  eapply lstrip_head; eassumption.
Qed.

Lemma rstrip_cons_plain (s : str) c :
  is_space c = false -> rstrip (c :: s) = c :: rstrip s.
Proof.
  intros Hc. unfold rstrip. simpl.
  rewrite lstrip_app_plain by assumption.
  rewrite rev_app_distr. reflexivity.
Qed.

Lemma strip_head (s : str) c t :
  strip s = c :: t -> is_space c = false.
Proof.
  unfold strip. destruct (lstrip s) as [|d r] eqn:Hl.
  - discriminate.
  - pose proof (lstrip_head _ _ _ Hl) as Hd.
    rewrite rstrip_cons_plain by assumption.
    intros H. injection H as -> _. assumption.
Qed.

Lemma strip_last (s : str) c t :
  strip s = t ++ [c] -> is_space c = false.
Proof. unfold strip. apply rstrip_last. Qed.

Lemma strip_split (s : str) :
  exists p q, s = p ++ strip s ++ q
              /\ forallb is_space p = true /\ forallb is_space q = true.
Proof.
  destruct (lstrip_split s) as [p [Hp Hps]].
  destruct (rstrip_split (lstrip s)) as [q [Hq Hqs]].
  exists p, q. unfold strip. rewrite <- Hq. auto.
Qed.

Lemma strip_all_space (s : str) :
  forallb is_space s = true -> strip s = [].
Proof.
  intros H. unfold strip. rewrite lstrip_all_space by assumption.
  reflexivity.
Qed.

Lemma strip_nonempty (s : str) c :
  In c s -> is_space c = false -> strip s <> [].
Proof.
  intros Hin Hc Hs.
  destruct (strip_split s) as [p [q [E [Hp Hq]]]].
  rewrite Hs in E. simpl in E. rewrite E in Hin.
  apply in_app_or in Hin. rewrite forallb_forall in Hp, Hq.
  destruct Hin as [Hin|Hin]; [apply Hp in Hin|apply Hq in Hin]; congruence.
Qed.


(** Every character of a line of [splitlines] is a character of the
    text. *)
Lemma splitlines_from_chars (s : str) :
  forall cur line c,
    In line (splitlines_from cur s) -> In c line -> In c cur \/ In c s.
Proof.
  induction s as [s IH] using length_ind.
  intros cur line c Hl Hc. destruct s as [|d s]; simpl in Hl.
  - destruct cur; simpl in Hl; [contradiction|].
    destruct Hl as [<-|[]]. auto.
  - assert (Hrec : forall s', (length s' < length (d :: s))%nat ->
              In line (cur :: splitlines_from [] s') -> In c cur \/ In c s').
    { intros s' Hlen [<-|H]; [auto|].
      destruct (IH s' Hlen [] line c H Hc) as [[]|]. auto. }
    destruct (N.eqb d CR).
    + destruct s as [|e s].
      * destruct (Hrec [] ltac:(simpl; lia) Hl) as [H|H];
          [left; exact H | right; simpl in *; tauto].
      * destruct (N.eqb e LF).
        -- destruct (Hrec s ltac:(simpl; lia) Hl) as [H|H];
             [left; exact H | right; simpl in *; tauto].
        -- destruct (Hrec (e :: s) ltac:(simpl; lia) Hl) as [H|H];
             [left; exact H | right; simpl in *; tauto].
    + destruct (is_linebreak d).
      * destruct (Hrec s ltac:(simpl; lia) Hl) as [H|H];
          [left; exact H | right; simpl in *; tauto].
      * destruct (IH s ltac:(simpl; lia) (cur ++ [d]) line c Hl Hc) as [H|H].
        -- apply in_app_or in H. simpl in *. tauto.
        -- simpl; auto.
Qed.

Lemma splitlines_chars (s line : str) c :
  In line (splitlines s) -> In c line -> In c s.
Proof.
  intros Hl Hc.
  destruct (splitlines_from_chars s [] line c Hl Hc) as [[]|]. assumption.
Qed.

End PyFacts.

(** ** Lemmas on the scan and on the patterns *)
Module ReFacts.

Import Py Re Cleaner Props PyFacts.
Local Open Scope list_scope.

Section Scan.

Variable occ : str -> option nat.
Variable new : str.

Lemma scan_skip (s : str) :
  forall k, scan occ new k s = scan occ new 0 (skipn k s).
Proof.
  induction s as [|c s IH]; intros [|k]; simpl; try reflexivity.
  apply IH.
Qed.

Lemma scan_miss c (s : str) :
  occ (c :: s) = None ->
  scan occ new 0 (c :: s) = c :: scan occ new 0 s.
Proof. intros H. simpl. rewrite H. reflexivity. Qed.

Lemma scan_hit c (s : str) n :
  occ (c :: s) = Some (S n) ->
  scan occ new 0 (c :: s) = new ++ scan occ new 0 (skipn n s).
Proof. intros H. simpl. rewrite H, scan_skip. reflexivity. Qed.

End Scan.

(** A star followed by a rest that always matches always matches. *)
Lemma rep_star_total cls k (s : str) :
  (forall t, k t <> None) -> rep cls k 0 None s <> None.
Proof.
  intros Hk. induction s as [|c s IH]; simpl; [apply Hk|].
  destruct (cls c); simpl; [|apply Hk].
  destruct (rep cls k 0 None s); [discriminate|contradiction].
Qed.

(** [>+] matches exactly the strings that begin with [>]. *)
Lemma plus_gt_spec (s : str) :
  match_here [Plus is_gt] s <> None <-> exists rest, s = GT :: rest.
Proof.
  unfold Plus. simpl. destruct s as [|c s]; simpl.
  - split; [congruence|intros [? ?]; discriminate].
  - destruct (is_gt c) eqn:Hc; simpl.
    + apply N.eqb_eq in Hc. subst c. split; [eauto|intros _].
      pose proof (rep_star_total is_gt (fun _ => Some O) s
                    ltac:(discriminate)) as H.
      destruct (rep is_gt (fun _ => Some O) 0 None s);
        [discriminate|contradiction].
    + split; [congruence|]. intros [rest E]. injection E as -> _.
      unfold is_gt in Hc. rewrite N.eqb_refl in Hc. discriminate.
Qed.

Lemma gt_not_space : is_space GT = false.
Proof. reflexivity. Qed.

(** [re.match(r'^\s*>+', line)] succeeds exactly on the quote lines. *)
Lemma quote_re_spec (line : str) :
  re_match quote_re line = true <-> is_quote_line line.
Proof.
  unfold re_match, quote_re, Star. simpl match_here.
  change (rep is_gt (fun _ => Some O) 1 None) with (match_here [Plus is_gt]).
  assert (G : rep is_space (match_here [Plus is_gt]) 0 None line <> None
              <-> is_quote_line line).
  { induction line as [|c s IH].
    - simpl. split; [congruence|].
      intros [ws [rest [E _]]]. destruct ws; discriminate.
    - cbn [rep]. destruct (is_space c) eqn:Hc;
        cbn [andb may_take option_map pred].
      + destruct (rep is_space (match_here [Plus is_gt]) 0 None s) eqn:Hr.
        * split; [intros _|intros _; discriminate].
          destruct IH as [IH _].
          destruct (IH ltac:(discriminate)) as [ws [rest [E Hws]]].
          exists (c :: ws), rest. simpl. rewrite Hc, Hws, E. auto.
        * split.
          -- intros H. apply plus_gt_spec in H as [rest E].
             injection E as -> _. rewrite gt_not_space in Hc. discriminate.
          -- intros [ws [rest [E Hws]]]. destruct ws as [|w ws].
             ++ injection E as -> _. rewrite gt_not_space in Hc.
                discriminate.
             ++ injection E as -> E. simpl in Hws.
                apply andb_prop in Hws as [_ Hws].
                exfalso. destruct IH as [_ IH]. apply IH; [|reflexivity].
                exists ws, rest. auto.
      + rewrite plus_gt_spec. split.
        * intros [rest E]. exists [], rest. auto.
        * intros [ws [rest [E Hws]]]. destruct ws as [|w ws]; [eauto|].
          injection E as -> _. simpl in Hws. rewrite Hc in Hws.
          discriminate. }
  destruct (rep is_space (match_here [Plus is_gt]) 0 None line).
  - split; [intros _; apply G; discriminate|reflexivity].
  - split; [discriminate|]. intros H. apply G in H. contradiction.
Qed.

(** [\n{lo,}] matches the whole run of line breaks, if it is long enough. *)
Lemma rep_lf_spec (s : str) :
  forall lo,
    rep is_lf (fun _ => Some O) lo None s
    = if (lo <=? lead_lf s)%nat then Some (lead_lf s) else None.
Proof.
  induction s as [|c s IH]; intros lo; cbn [rep lead_lf].
  - destruct lo; reflexivity.
  - destruct (is_lf c); cbn [andb may_take option_map].
    + rewrite IH. destruct lo as [|lo]; simpl; [reflexivity|].
      destruct (lo <=? lead_lf s)%nat; reflexivity.
    + destruct lo; reflexivity.
Qed.

Lemma blank_lines_re_spec (s : str) :
  match_here blank_lines_re s
  = if (3 <=? lead_lf s)%nat then Some (lead_lf s) else None.
Proof. apply rep_lf_spec. Qed.

(** The code points of the closing characters. *)
Lemma closing_code_points :
  closing
  = [0x300D; 0x300F; 0xFF09; 0x3011; 0x7D; 0x5D; 0x29; 0x3E; 0x22; 0x27]%N.
Proof. reflexivity. Qed.

Lemma blank_not_closing c : is_blank c = true -> is_closing c = false.
Proof.
  unfold is_blank, is_space, is_closing. rewrite closing_code_points.
  intros H.
  repeat (apply orb_prop in H; destruct H as [H|H]);
    try (apply andb_prop in H; destruct H as [H1 H2];
         apply N.leb_le in H1; apply N.leb_le in H2);
    try apply N.eqb_eq in H;
    cbn [existsb];
    repeat (apply orb_false_intro); try reflexivity;
    apply N.eqb_neq; unfold WIDE_SPACE, char in *; lia.
Qed.

Lemma star_ahead_spec (t : str) :
  match_here [Star is_blank; Ahead (fun c => negb (is_closing c))] t
  = blanks_taken t.
Proof.
  unfold Star, blanks_taken. cbn [match_here].
  induction t as [|c t IH]; [reflexivity|].
  cbn [rep lead_blank]. destruct (is_blank c) eqn:Hc; cbn [andb may_take].
  - cbn [option_map pred skipn]. rewrite IH.
    destruct (opens_plain (skipn (lead_blank t) t)); [reflexivity|].
    destruct (lead_blank t); [|reflexivity].
    rewrite (blank_not_closing _ Hc). reflexivity.
  - cbn [skipn opens_plain]. destruct (is_closing c); reflexivity.
Qed.

Lemma sentence_re_spec (s : str) :
  match_here sentence_re s
  = match s with
    | c :: t =>
        if is_full_stop c
        then option_map S (blanks_taken t)
        else None
    | [] => None
    end.
Proof.
  unfold sentence_re, One.
  change (match_here (Rep is_full_stop 1 (Some 1%nat)
                        :: [Star is_blank;
                            Ahead (fun c => negb (is_closing c))]) s)
    with (rep is_full_stop
            (match_here [Star is_blank;
                         Ahead (fun c => negb (is_closing c))])
            1 (Some 1%nat) s).
  destruct s as [|c t]; [reflexivity|].
  cbn [rep]. destruct (is_full_stop c); cbn [andb may_take]; [|reflexivity].
  cbn [option_map pred].
  assert (E : forall k, rep is_full_stop k 0 (Some O) t = k t).
  { intros k. destruct t as [|d t]; [reflexivity|].
    cbn [rep may_take]. rewrite andb_false_r. reflexivity. }
  rewrite E, star_ahead_spec. destruct (blanks_taken t); reflexivity.
Qed.

(** The patterns given to [re.sub] never match the empty string. *)
Lemma sub_patterns_consume (r : pattern) (s : str) :
  In r [sentence_re; blank_re; blank_lines_re] ->
  match_here r s <> Some O.
Proof.
  intros [<-|[<-|[<-|[]]]].
  - rewrite sentence_re_spec. destruct s as [|c t]; [discriminate|].
    destruct (is_full_stop c); [|discriminate].
    destruct (blanks_taken t); discriminate.
  - unfold blank_re, Plus. cbn [match_here].
    destruct s as [|c t]; cbn [rep]; [discriminate|].
    destruct (is_blank c); cbn [andb may_take option_map pred];
      [|discriminate].
    pose proof (rep_star_total is_blank (fun _ => Some O) t
                  ltac:(discriminate)) as H.
    destruct (rep is_blank (fun _ => Some O) 0 None t);
      [discriminate|contradiction].
  - rewrite blank_lines_re_spec.
    destruct (Nat.leb_spec 3 (lead_lf s)) as [H|H]; [|discriminate].
    intros E. injection E as E. lia.
Qed.

End ReFacts.

(** ** Lemmas on the stages of the normalizer *)
Module StageFacts.

Import Py Re Config Cleaner Props PyFacts ReFacts.
Local Open Scope list_scope.

(** *** Blank-line collapsing *)

Lemma collapse_hit (s : str) :
  (3 <= lead_lf s)%nat ->
  collapse_blank_lines s
  = LF :: LF :: collapse_blank_lines (skipn (lead_lf s) s).
Proof.
  intros H. destruct s as [|c s]; [simpl in H; lia|].
  unfold collapse_blank_lines, sub.
  destruct (lead_lf (c :: s)) as [|n] eqn:E; [lia|].
  rewrite (scan_hit _ _ c s n).
  - reflexivity.
  - rewrite blank_lines_re_spec, E.
    destruct (Nat.leb_spec 3 (S n)); [reflexivity|lia].
Qed.

Lemma collapse_miss c (s : str) :
  (lead_lf (c :: s) < 3)%nat ->
  collapse_blank_lines (c :: s) = c :: collapse_blank_lines s.
Proof.
  intros H. unfold collapse_blank_lines, sub. apply scan_miss.
  rewrite blank_lines_re_spec.
  destruct (Nat.leb_spec 3 (lead_lf (c :: s))); [lia|reflexivity].
Qed.

Lemma lead_lf_le (s : str) : (lead_lf s <= length s)%nat.
Proof.
  induction s as [|c s IH]; simpl; [lia|]. destruct (is_lf c); simpl; lia.
Qed.

Lemma lead_lf_skipn (s : str) : lead_lf (skipn (lead_lf s) s) = O.
Proof.
  induction s as [|c s IH]; simpl; [reflexivity|].
  destruct (is_lf c) eqn:E; simpl; [assumption|]. rewrite E. reflexivity.
Qed.

Lemma blank_run_cons c (s : str) :
  has_blank_run (c :: s) ->
  (c = LF /\ (2 <= lead_lf s)%nat) \/ has_blank_run s.
Proof.
  intros [a [b E]]. destruct a as [|d a]; simpl in E.
  - injection E as -> ->. left. split; [reflexivity|]. simpl. lia.
  - injection E as _ ->. right. exists a, b. reflexivity.
Qed.

Lemma collapse_spec (s : str) :
  lead_lf (collapse_blank_lines s) = Nat.min (lead_lf s) 2
  /\ ~ has_blank_run (collapse_blank_lines s).
Proof.
  induction s as [s IH] using length_ind.
  destruct (Nat.leb_spec 3 (lead_lf s)) as [H|H].
  - rewrite (collapse_hit _ H).
    assert (Hlen : (length (skipn (lead_lf s) s) < length s)%nat).
    { rewrite length_skipn. pose proof (lead_lf_le s). lia. }
    destruct (IH _ Hlen) as [Hl Hn]. rewrite lead_lf_skipn in Hl.
    simpl in Hl. split.
    + simpl. rewrite Hl. lia.
    + intros Hr. apply blank_run_cons in Hr as [[_ Hr]|Hr].
      * simpl in Hr. rewrite Hl in Hr. lia.
      * apply blank_run_cons in Hr as [[_ Hr]|Hr]; [lia|contradiction].
  - destruct s as [|c s].
    + split; [reflexivity|]. intros [a [b E]].
      destruct a; discriminate.
    + rewrite (collapse_miss _ _ H).
      destruct (IH s ltac:(simpl; lia)) as [Hl Hn]. split.
      * simpl in *. destruct (is_lf c); [|reflexivity]. rewrite Hl. lia.
      * intros Hr. apply blank_run_cons in Hr as [[-> Hr]|Hr];
          [|contradiction].
        simpl in H. rewrite Hl in Hr. lia.
Qed.

Lemma collapse_no_blank_run (s : str) :
  ~ has_blank_run (collapse_blank_lines s).
Proof. apply collapse_spec. Qed.

(** Trimming cannot create a run. *)
Lemma strip_no_blank_run (s : str) :
  ~ has_blank_run s -> ~ has_blank_run (strip s).
Proof.
  intros H [a [b E]]. apply H.
  destruct (strip_split s) as [p [q [Es _]]].
  exists (p ++ a), (b ++ q). rewrite Es, E.
  repeat rewrite <- app_assoc. reflexivity.
Qed.

Lemma lead_lf_app (a x : str) :
  (lead_lf a < length a)%nat -> lead_lf (a ++ x) = lead_lf a.
Proof.
  induction a as [|c a IH]; simpl; [lia|].
  destruct (is_lf c); [|reflexivity]. intros H. rewrite IH; [reflexivity|lia].
Qed.

Lemma lead_lf_inside (a : str) :
  a <> [] -> (forall a' c, a = a' ++ [c] -> c <> LF) ->
  (lead_lf a < length a)%nat.
Proof.
  induction a as [|c a IH]; [congruence|]. intros _ Hlast. simpl.
  destruct (is_lf c) eqn:Hc; [|lia].
  destruct a as [|d a].
  - exfalso. apply (Hlast [] c eq_refl). apply N.eqb_eq. assumption.
  - assert (lead_lf (d :: a) < length (d :: a))%nat; [|lia].
    apply IH; [discriminate|]. intros a' e E.
    apply (Hlast (c :: a') e). rewrite E. reflexivity.
Qed.

(** The collapsing leaves a run of exactly two line breaks as it is. *)
Lemma collapse_keeps_pair (a b : str) :
  (forall a' c, a = a' ++ [c] -> c <> LF) ->
  lead_lf b = O ->
  collapse_blank_lines (a ++ LF :: LF :: b)
  = collapse_blank_lines a ++ LF :: LF :: collapse_blank_lines b.
Proof.
  intros Hlast Hb. induction a as [a IH] using length_ind.
  destruct a as [|c a].
  - simpl. rewrite !collapse_miss; [reflexivity| |]; simpl; rewrite Hb; lia.
  - pose proof (lead_lf_inside (c :: a) ltac:(discriminate) Hlast) as Hin.
    pose proof (lead_lf_app _ (LF :: LF :: b) Hin) as Happ.
    destruct (Nat.leb_spec 3 (lead_lf (c :: a))) as [H|H].
    + rewrite collapse_hit by (rewrite Happ; assumption).
      rewrite (collapse_hit _ H), Happ.
      rewrite skipn_app.
      replace (lead_lf (c :: a) - length (c :: a))%nat with O by lia.
      cbn [skipn].
      rewrite IH; [reflexivity| |].
      * rewrite length_skipn. lia.
      * intros a' e E. apply (Hlast (firstn (lead_lf (c :: a)) (c :: a) ++ a') e).
        rewrite <- app_assoc, <- E. symmetry. apply firstn_skipn.
    + change ((c :: a) ++ LF :: LF :: b) with (c :: (a ++ LF :: LF :: b)).
      rewrite collapse_miss
        by (change (c :: (a ++ LF :: LF :: b)) with ((c :: a) ++ LF :: LF :: b);
            rewrite Happ; assumption).
      rewrite (collapse_miss _ _ H). simpl. f_equal.
      apply IH; [simpl; lia|].
      intros a' e E. apply (Hlast (c :: a') e). rewrite E. reflexivity.
Qed.

(** *** Sentence breaks *)

Lemma full_stop_eq c : is_full_stop c = true -> c = FULL_STOP.
Proof. apply N.eqb_eq. Qed.

Lemma sentence_plain c (t : str) :
  is_full_stop c = false ->
  sentence_breaks (c :: t) = c :: sentence_breaks t.
Proof.
  intros H. unfold sentence_breaks, sub. apply scan_miss.
  rewrite sentence_re_spec, H. reflexivity.
Qed.

Lemma sentence_stop_kept (t : str) :
  blanks_taken t = None ->
  sentence_breaks (FULL_STOP :: t) = FULL_STOP :: sentence_breaks t.
Proof.
  intros H. unfold sentence_breaks, sub. apply scan_miss.
  rewrite sentence_re_spec, H. reflexivity.
Qed.

Lemma sentence_stop_broken (t : str) n :
  blanks_taken t = Some n ->
  sentence_breaks (FULL_STOP :: t)
  = FULL_STOP :: LF :: sentence_breaks (skipn n t).
Proof.
  intros H. unfold sentence_breaks, sub.
  rewrite (scan_hit _ _ FULL_STOP t n); [reflexivity|].
  rewrite sentence_re_spec, H. reflexivity.
Qed.

Lemma lead_blank_le (t : str) : (lead_blank t <= length t)%nat.
Proof.
  induction t as [|c t IH]; simpl; [lia|].
  destruct (is_blank c); simpl; lia.
Qed.

Lemma full_stop_not_blank : is_blank FULL_STOP = false.
Proof. reflexivity. Qed.

Lemma lead_blank_app_stop (p x : str) :
  lead_blank (p ++ FULL_STOP :: x) = lead_blank p.
Proof.
  induction p as [|c p IH]; cbn [app lead_blank].
  - rewrite full_stop_not_blank. reflexivity.
  - rewrite IH. reflexivity.
Qed.

(** What the pattern takes after a full stop does not depend on the text
    after the next full stop. *)
Lemma blanks_taken_app_stop (p x : str) :
  blanks_taken (p ++ FULL_STOP :: x) = blanks_taken (p ++ [FULL_STOP]).
Proof.
  unfold blanks_taken. rewrite !lead_blank_app_stop, !skipn_app.
  pose proof (lead_blank_le p) as Hle.
  replace (lead_blank p - length p)%nat with O by lia. cbn [skipn].
  destruct (skipn (lead_blank p) p); reflexivity.
Qed.


(** The text before a full stop is rewritten on its own. *)
Lemma sentence_prefix (pre : str) :
  exists pre', forall tail,
    sentence_breaks (pre ++ FULL_STOP :: tail)
    = pre' ++ sentence_breaks (FULL_STOP :: tail).
Proof.
  induction pre as [pre IH] using length_ind.
  destruct pre as [|c p].
  - exists []. reflexivity.
  - destruct (is_full_stop c) eqn:Hc.
    + apply full_stop_eq in Hc. subst c.
      destruct (blanks_taken (p ++ [FULL_STOP])) as [n|] eqn:Hn.
      * assert (Hle : (n <= length p)%nat).
        { pose proof (lead_blank_le p) as Hp. pose proof Hn as Hn'.
          unfold blanks_taken in Hn'.
          rewrite lead_blank_app_stop in Hn'.
          destruct (opens_plain _) in Hn';
            [injection Hn' as <-; assumption|].
          destruct (lead_blank p); [discriminate|].
          injection Hn' as <-. lia. }
        destruct (IH (skipn n p)) as [q Hq].
        { rewrite length_skipn. simpl. lia. }
        exists (FULL_STOP :: LF :: q). intros tail.
        change ((FULL_STOP :: p) ++ FULL_STOP :: tail)
          with (FULL_STOP :: (p ++ FULL_STOP :: tail)).
        rewrite (sentence_stop_broken _ n)
          by (rewrite blanks_taken_app_stop; assumption).
        rewrite skipn_app.
        replace (n - length p)%nat with O by lia. cbn [skipn].
        rewrite Hq. reflexivity.
      * destruct (IH p) as [q Hq]; [simpl; lia|].
        exists (FULL_STOP :: q). intros tail.
        change ((FULL_STOP :: p) ++ FULL_STOP :: tail)
          with (FULL_STOP :: (p ++ FULL_STOP :: tail)).
        rewrite sentence_stop_kept
          by (rewrite blanks_taken_app_stop; assumption).
        rewrite Hq. reflexivity.
    + destruct (IH p) as [q Hq]; [simpl; lia|].
      exists (c :: q). intros tail.
      change ((c :: p) ++ FULL_STOP :: tail)
        with (c :: (p ++ FULL_STOP :: tail)).
      rewrite sentence_plain by assumption.
      rewrite Hq. reflexivity.
Qed.

Lemma closing_not_blank c : is_closing c = true -> is_blank c = false.
Proof.
  intros H. destruct (is_blank c) eqn:E; [|reflexivity].
  apply blank_not_closing in E. congruence.
Qed.

(** After a full stop: no match before a closing character or at the end
    of the text, a match otherwise. *)
Lemma blanks_taken_cases (t : str) :
  blanks_taken t
  = match t with
    | [] => None
    | c :: _ => if is_closing c then None else Some (blanks_replaced t)
    end.
Proof.
  unfold blanks_taken, blanks_replaced. destruct t as [|c t].
  - reflexivity.
  - destruct (is_closing c) eqn:Hc.
    + cbn [lead_blank]. rewrite (closing_not_blank _ Hc).
      cbn [skipn opens_plain]. rewrite Hc. reflexivity.
    + destruct (opens_plain (skipn (lead_blank (c :: t)) (c :: t))) eqn:Ho;
        [reflexivity|].
      destruct (lead_blank (c :: t)) eqn:El; [|reflexivity].
      cbn [skipn opens_plain] in Ho. rewrite Hc in Ho. discriminate.
Qed.

Lemma lead_blank_run (ws t : str) :
  forallb is_blank ws = true -> lead_blank t = O ->
  lead_blank (ws ++ t) = length ws.
Proof.
  intros Hws Ht. induction ws as [|w ws IH]; simpl; [assumption|].
  simpl in Hws. apply andb_prop in Hws as [Hw Hws]. rewrite Hw, IH; auto.
Qed.

Lemma skipn_run (ws t : str) : skipn (length ws) (ws ++ t) = t.
Proof. induction ws; simpl; auto. Qed.

(** *** Keywords *)

Lemma startswith_spec (kw t : str) :
  startswith kw t = true <-> exists b, t = kw ++ b.
Proof.
  revert t. induction kw as [|k kw IH]; intros t; simpl.
  - split; eauto.
  - destruct t as [|c t].
    + split; [discriminate|]. intros [b E]. discriminate.
    + rewrite andb_true_iff, IH, N.eqb_eq. split.
      * intros [-> [b ->]]. eauto.
      * intros [b E]. injection E as -> ->. eauto.
Qed.

Lemma contains_spec (kw t : str) :
  contains kw t = true <-> occurs kw t.
Proof.
  induction t as [|c t IH].
  - simpl. rewrite orb_false_r, startswith_spec. split.
    + intros [b E]. exists [], b. assumption.
    + intros [a [b E]]. destruct a; [eauto|discriminate].
  - cbn [contains]. rewrite orb_true_iff, startswith_spec, IH. split.
    + intros [[b E]|[a [b E]]].
      * exists [], b. assumption.
      * exists (c :: a), b. rewrite E. reflexivity.
    + intros [a [b E]]. destruct a as [|d a].
      * left. eauto.
      * right. injection E as _ ->. exists a, b. reflexivity.
Qed.

Lemma first_occurrence (kw t : str) :
  contains kw t = true -> exists a rest, first_at kw a rest t.
Proof.
  induction t as [|c t IH]; cbn [contains].
  - rewrite orb_false_r. intros H. apply startswith_spec in H as [b E].
    exists [], b. split; [assumption|]. simpl. lia.
  - destruct (startswith kw (c :: t)) eqn:Hs.
    + intros _. apply startswith_spec in Hs as [b E].
      exists [], b. split; [assumption|]. simpl. lia.
    + simpl. intros H. destruct (IH H) as [a [rest [E Hmin]]].
      exists (c :: a), rest. split; [rewrite E; reflexivity|].
      intros [|i] Hi; [assumption|]. apply Hmin. simpl in Hi. lia.
Qed.

Lemma first_at_occurs (kw a rest t : str) :
  first_at kw a rest t -> occurs kw t.
Proof. intros [E _]. exists a, rest. assumption. Qed.

Lemma first_at_tail (kw : str) c (a rest t : str) :
  first_at kw (c :: a) rest t ->
  exists t', t = c :: t' /\ startswith kw t = false /\ first_at kw a rest t'.
Proof.
  intros [E Hmin]. exists (a ++ kw ++ rest). split; [assumption|]. split.
  - apply (Hmin O). simpl. lia.
  - split; [reflexivity|]. intros i Hi.
    specialize (Hmin (S i)). rewrite E in Hmin. apply Hmin. simpl. lia.
Qed.

Lemma replace_first (kw new a rest t : str) :
  kw <> [] -> first_at kw a rest t ->
  replace kw new t = a ++ new ++ replace kw new rest.
Proof.
  intros Hkw. destruct kw as [|k kw]; [congruence|]. clear Hkw.
  revert t. induction a as [|c a IH]; intros t H.
  - destruct H as [-> _]. unfold replace. simpl app.
    rewrite (scan_hit _ _ k (kw ++ rest) (length kw)).
    + rewrite skipn_run. reflexivity.
    + assert (E : startswith (k :: kw) (k :: kw ++ rest) = true).
      { apply startswith_spec. exists rest. reflexivity. }
      rewrite E. reflexivity.
  - apply first_at_tail in H as [t' [-> [Hs H]]].
    unfold replace. rewrite scan_miss by (rewrite Hs; reflexivity).
    simpl. f_equal. apply (IH t' H).
Qed.

Lemma replace_absent (kw new t : str) :
  kw <> [] -> contains kw t = false -> replace kw new t = t.
Proof.
  intros Hkw. destruct kw as [|k kw]; [congruence|]. clear Hkw.
  unfold replace. induction t as [|c t IH]; [reflexivity|].
  cbn [contains]. intros H. apply orb_false_elim in H as [Hs Hc].
  rewrite scan_miss by (rewrite Hs; reflexivity).
  rewrite IH by assumption. reflexivity.
Qed.

Lemma keyword_step_replace (kw t : str) :
  kw <> [] -> keyword_step t kw = replace kw ([LF; LF] ++ kw) t.
Proof.
  intros Hkw. unfold keyword_step.
  destruct (contains kw t) eqn:E; [reflexivity|].
  symmetry. apply replace_absent; assumption.
Qed.

Lemma first_at_shorter (kw a rest t : str) :
  kw <> [] -> first_at kw a rest t -> (length rest < length t)%nat.
Proof.
  intros Hkw [-> _]. rewrite !length_app.
  destruct kw; [congruence|]. simpl. lia.
Qed.

(** The loop body is the left-to-right pass. *)
Lemma keyword_step_spec (kw t : str) :
  kw <> [] -> Replaced kw t (keyword_step t kw).
Proof.
  intros Hkw. induction t as [t IH] using length_ind.
  destruct (contains kw t) eqn:Hc.
  - destruct (first_occurrence _ _ Hc) as [a [rest H]].
    rewrite keyword_step_replace by assumption.
    rewrite (replace_first _ _ _ _ _ Hkw H).
    rewrite <- keyword_step_replace by assumption.
    rewrite <- app_assoc.
    apply Replaced_occ with (rest := rest); [assumption|].
    apply IH. eapply first_at_shorter; eassumption.
  - unfold keyword_step. rewrite Hc. apply Replaced_none.
    intros Ho. apply contains_spec in Ho. congruence.
Qed.

Lemma keyword_breaks_spec (kws : list str) :
  Forall (fun kw => kw <> []) kws ->
  forall t, KeywordPasses kws t (keyword_breaks kws t).
Proof.
  induction 1 as [|kw kws Hkw _ IH]; intros t.
  - apply Passes_nil.
  - apply Passes_cons with (t' := keyword_step t kw).
    + apply keyword_step_spec. assumption.
    + apply IH.
Qed.

(** The pass is a function of the keyword and the text. *)
Lemma first_at_unique (kw a rest a' rest' t : str) :
  first_at kw a rest t -> first_at kw a' rest' t ->
  a = a' /\ rest = rest'.
Proof.
  revert a' t. induction a as [|c a IH]; intros a' t H H'.
  - destruct a' as [|c' a'].
    + destruct H as [-> _], H' as [E _]. simpl in E.
      apply app_inv_head in E. auto.
    + exfalso. destruct H as [E _], H' as [_ Hmin].
      specialize (Hmin O ltac:(simpl; lia)). simpl in Hmin.
      assert (Hs : startswith kw t = true)
        by (apply startswith_spec; eauto).
      congruence.
  - destruct a' as [|c' a'].
    + exfalso. destruct H' as [E _], H as [_ Hmin].
      specialize (Hmin O ltac:(simpl; lia)). simpl in Hmin.
      assert (Hs : startswith kw t = true)
        by (apply startswith_spec; eauto).
      congruence.
    + apply first_at_tail in H as [t1 [E1 [_ H1]]].
      apply first_at_tail in H' as [t2 [E2 [_ H2]]].
      rewrite E1 in E2. injection E2 as -> <-.
      destruct (IH _ _ H1 H2) as [-> ->]. auto.
Qed.

Lemma Replaced_unique (kw t t1 : str) :
  Replaced kw t t1 -> forall t2, Replaced kw t t2 -> t1 = t2.
Proof.
  induction 1 as [t Hn|a rest rest' t Hf _ IH]; intros t2 H2.
  - destruct H2 as [|a rest rest' t Hf _]; [reflexivity|].
    exfalso. apply Hn. eapply first_at_occurs; eassumption.
  - destruct H2 as [t Hn|a2 rest2 rest2' t Hf2 H2].
    + exfalso. apply Hn. eapply first_at_occurs; eassumption.
    + destruct (first_at_unique _ _ _ _ _ _ Hf Hf2) as [-> ->].
      rewrite (IH _ H2). reflexivity.
Qed.

Lemma KeywordPasses_unique (kws : list str) (t out : str) :
  KeywordPasses kws t out ->
  forall out', KeywordPasses kws t out' -> out = out'.
Proof.
  induction 1 as [t|kw kws t t1 t2 Hr _ IH]; intros out' H'.
  - inversion H'. reflexivity.
  - inversion H' as [|kw' kws' t0 t1' t2' Hr' Hp']; subst.
    rewrite (Replaced_unique _ _ _ Hr _ Hr') in IH. apply IH. assumption.
Qed.

(** *** The function as a whole *)

Lemma trimmed_nil : trimmed [].
Proof.
  split; intros c t E; [discriminate|]. destruct t; discriminate.
Qed.

Lemma trimmed_strip (s : str) : trimmed (strip s).
Proof.
  split; intros c t E; [eapply strip_head|eapply strip_last]; eassumption.
Qed.

Lemma no_blank_run_nil : ~ has_blank_run [].
Proof. intros [a [b E]]. destruct a; discriminate. Qed.

Lemma quote_line_has_marker (line : str) :
  re_match quote_re line = true -> In GT line.
Proof.
  intros H. apply quote_re_spec in H as [ws [rest [-> _]]].
  apply in_or_app. right. left. reflexivity.
Qed.

(** A text with a quote line is not blank. *)
Lemma quoted_text_not_blank (text : str) :
  quoted_lines text <> [] -> is_empty (strip text) = false.
Proof.
  unfold quoted_lines. intros H.
  destruct (filter (re_match quote_re) (splitlines text)) as [|line l] eqn:E;
    [congruence|].
  assert (Hin : In line (filter (re_match quote_re) (splitlines text)))
    by (rewrite E; left; reflexivity).
  apply filter_In in Hin as [Hl Hm].
  apply quote_line_has_marker in Hm.
  pose proof (splitlines_chars _ _ _ Hl Hm) as Hc.
  pose proof (strip_nonempty _ _ Hc gt_not_space) as Hs.
  destruct (strip text); [congruence|reflexivity].
Qed.

Lemma no_quote_lines (text : str) :
  (forall line, In line (splitlines text) -> ~ is_quote_line line) ->
  quoted_lines text = [].
Proof.
  intros H. unfold quoted_lines.
  induction (splitlines text) as [|line l IH]; [reflexivity|].
  simpl. destruct (re_match quote_re line) eqn:E.
  - exfalso. apply (H line); [left; reflexivity|].
    apply quote_re_spec. assumption.
  - apply IH. intros l' Hl'. apply H. right. assumption.
Qed.

(** With the keywords read, the body of the [try] block returns. *)
Lemma try_body_returns cfg kws (text : str) :
  get_keywords cfg = Ok kws ->
  exists out, try_body cfg text = Ok out
              /\ trimmed out
              /\ (quoted_lines text <> [] -> ~ has_blank_run out).
Proof.
  intros Hk. unfold try_body.
  destruct (quoted_lines text) as [|q ql]; cbn [is_empty_list].
  - exists (strip text). split; [reflexivity|].
    split; [apply trimmed_strip|congruence].
  - destruct (cleaned_lines (q :: ql)) as [|l ls]; cbn [is_empty_list].
    + exists []. split; [reflexivity|].
      split; [apply trimmed_nil|intros _; apply no_blank_run_nil].
    + rewrite Hk. cbn [bind]. eexists. split; [reflexivity|].
      split; [apply trimmed_strip|]. intros _.
      apply strip_no_blank_run, collapse_no_blank_run.
Qed.

(** Only the reading of the keywords can raise. *)
Lemma try_body_raises cfg (text : str) e :
  try_body cfg text = Raise e -> get_keywords cfg = Raise e.
Proof.
  unfold try_body.
  destruct (is_empty_list (quoted_lines text)); [discriminate|].
  destruct (is_empty_list (cleaned_lines (quoted_lines text)));
    [discriminate|].
  destruct (get_keywords cfg); cbn [bind]; [discriminate|].
  intros H. injection H as ->. reflexivity.
Qed.

(** The body sees the text through its quote lines only. *)
Lemma try_body_quoted cfg (t1 t2 : str) :
  quoted_lines t1 = quoted_lines t2 -> quoted_lines t1 <> [] ->
  try_body cfg t1 = try_body cfg t2.
Proof.
  intros E H. unfold try_body. rewrite <- E.
  destruct (quoted_lines t1); [congruence|reflexivity].
Qed.

(** The two laws of the sentence breaks behind a run of blanks. *)
Lemma sentence_break_plain (ws : str) c (t : str) :
  forallb is_blank ws = true -> is_blank c = false ->
  is_closing c = false ->
  sentence_breaks (FULL_STOP :: ws ++ c :: t)
  = FULL_STOP :: LF :: sentence_breaks (c :: t).
Proof.
  intros Hws Hc Hp.
  rewrite (sentence_stop_broken _ (length ws)).
  - rewrite skipn_run. reflexivity.
  - unfold blanks_taken.
    rewrite lead_blank_run by (simpl; try rewrite Hc; auto).
    rewrite skipn_run. cbn [opens_plain]. rewrite Hp. reflexivity.
Qed.

Lemma sentence_break_closing (ws : str) w c (t : str) :
  forallb is_blank ws = true -> is_blank w = true ->
  is_closing c = true ->
  sentence_breaks (FULL_STOP :: ws ++ w :: c :: t)
  = FULL_STOP :: LF :: w :: sentence_breaks (c :: t).
Proof.
  intros Hws Hw Hc.
  assert (Hrun : forallb is_blank (ws ++ [w]) = true).
  { rewrite forallb_app, Hws. simpl. rewrite Hw. reflexivity. }
  assert (Hlead : lead_blank (c :: t) = O).
  { simpl. rewrite (closing_not_blank _ Hc). reflexivity. }
  rewrite (sentence_stop_broken _ (length ws)).
  - rewrite skipn_run. rewrite sentence_plain; [reflexivity|].
    destruct (is_full_stop w) eqn:E; [|reflexivity].
    apply full_stop_eq in E. subst w.
    rewrite full_stop_not_blank in Hw. discriminate.
  - unfold blanks_taken.
    change (ws ++ w :: c :: t) with (ws ++ [w] ++ c :: t).
    rewrite app_assoc, (lead_blank_run _ _ Hrun Hlead), skipn_run.
    cbn [opens_plain]. rewrite Hc. rewrite length_app. simpl.
    replace (length ws + 1)%nat with (S (length ws)) by lia.
    reflexivity.
Qed.

(** The output for a text whose quote lines leave something, stage by
    stage. *)
Lemma normalizer_stages cfg kws (text : str) :
  get_keywords cfg = Ok kws ->
  cleaned_lines (quoted_lines text) <> [] ->
  clean_quoted_email cfg text
  = Ok (strip
          (collapse_blank_lines
             (keyword_breaks kws
                (blanks_to_newlines
                   (sentence_breaks
                      (join [SPACE] (cleaned_lines (quoted_lines text)))))))).
Proof.
  intros Hk Hc.
  assert (Hq : quoted_lines text <> []).
  { intros E. rewrite E in Hc. apply Hc. reflexivity. }
  unfold clean_quoted_email. rewrite (quoted_text_not_blank _ Hq).
  unfold try_body. cbv zeta.
  destruct (quoted_lines text) as [|q ql]; [congruence|].
  cbn [is_empty_list].
  destruct (cleaned_lines (q :: ql)) as [|l ls]; [congruence|].
  cbn [is_empty_list]. rewrite Hk. reflexivity.
Qed.

Lemma join_decomposed (ls : list str) c (a b : str) :
  join [SPACE] ls = a ++ c :: b -> ls <> [].
Proof. intros H E. subst ls. destruct a; discriminate. Qed.

(** What becomes of a full stop and of the text after it. *)
Lemma sentence_stop_rule (tail : str) :
  sentence_breaks (FULL_STOP :: tail)
  = match tail with
    | [] => [FULL_STOP]
    | c :: _ =>
        if is_closing c
        then FULL_STOP :: sentence_breaks tail
        else FULL_STOP :: LF
               :: sentence_breaks (skipn (blanks_replaced tail) tail)
    end.
Proof.
  pose proof (blanks_taken_cases tail) as H. destruct tail as [|c t].
  - apply sentence_stop_kept. assumption.
  - destruct (is_closing c).
    + apply sentence_stop_kept. assumption.
    + apply sentence_stop_broken. assumption.
Qed.

End StageFacts.

(** ** Properties of the normalizer *)
Module Properties.

Import Py Re Config Cleaner Props PyFacts ReFacts StageFacts.
Local Open Scope list_scope.

(** C1, as amended.  For every input text and keyword list, the
    normalizer puts a line break directly after a full stop of the joined
    text exactly when a character follows the full stop at once and that
    character is not a closing one; a blank counts as such a character.
    The match replaces the blanks after the full stop: the whole run when a
    character that is not a closing one follows the run, all but the last
    blank when a closing character or the end of the text follows it.  A
    full stop at the end of the text or at once before a closing character
    gets no line break there.  The text before a full stop is rewritten
    independently of the text after it, and the output of the normalizer
    is what the later steps make of the text so rewritten. *)
Theorem sentence_break_rule (pre tail : str) :
  (exists pre',
      (forall tail',
          sentence_breaks (pre ++ FULL_STOP :: tail')
          = pre' ++ sentence_breaks (FULL_STOP :: tail'))
      /\ (forall cfg kws text,
            get_keywords cfg = Ok kws ->
            join [SPACE] (cleaned_lines (quoted_lines text))
            = pre ++ FULL_STOP :: tail ->
            clean_quoted_email cfg text
            = Ok (strip
                    (collapse_blank_lines
                       (keyword_breaks kws
                          (blanks_to_newlines
                             (pre'
                              ++ match tail with
                                 | [] => [FULL_STOP]
                                 | c :: _ =>
                                     if is_closing c
                                     then FULL_STOP :: sentence_breaks tail
                                     else FULL_STOP :: LF
                                            :: sentence_breaks
                                                 (skipn (blanks_replaced tail)
                                                        tail)
                                 end)))))))
  /\ sentence_breaks (FULL_STOP :: tail)
     = match tail with
       | [] => [FULL_STOP]
       | c :: _ =>
           if is_closing c
           then FULL_STOP :: sentence_breaks tail
           else FULL_STOP :: LF
                  :: sentence_breaks (skipn (blanks_replaced tail) tail)
       end
  /\ (forall ws c t,
        forallb is_blank ws = true -> is_blank c = false ->
        is_closing c = false ->
        sentence_breaks (FULL_STOP :: ws ++ c :: t)
        = FULL_STOP :: LF :: sentence_breaks (c :: t))
  /\ (forall ws w c t,
        forallb is_blank ws = true -> is_blank w = true ->
        is_closing c = true ->
        sentence_breaks (FULL_STOP :: ws ++ w :: c :: t)
        = FULL_STOP :: LF :: w :: sentence_breaks (c :: t)).
Proof.
  split.
  - destruct (sentence_prefix pre) as [pre' Hp]. exists pre'.
    split; [exact Hp|]. intros cfg kws text Hk Hj.
    rewrite (normalizer_stages cfg kws text Hk (join_decomposed _ _ _ _ Hj)).
    rewrite Hj, Hp, sentence_stop_rule. reflexivity.
  - split; [apply sentence_stop_rule|].
    split; [apply sentence_break_plain|apply sentence_break_closing].
Qed.

Lemma sentence_break_rule_witness :
  clean_quoted_email (config_with_list (u "記")) (u "  >> 。 」")
  = Ok (u "。" ++ [LF] ++ u "」")
  /\ sentence_breaks (u "。 」") = u "。" ++ [LF] ++ u " 」"
  /\ sentence_breaks (u "あ。  い。」") = u "あ。" ++ [LF] ++ u "い。」".
Proof.
  split; [|split].
  - destruct (sentence_break_rule [] (u " 」")) as [[pre' [Hp He]] _].
    assert (E : pre' = []).
    { specialize (Hp []).
      apply (app_inv_tail [FULL_STOP] pre' []). symmetry. exact Hp. }
    subst pre'.
    exact (He (config_with_list (u "記")) [u "記"] (u "  >> 。 」")
              eq_refl eq_refl).
  - destruct (sentence_break_rule [] []) as [_ [_ [_ H]]].
    apply (H [] SPACE 0x300D%N []); reflexivity.
  - destruct (sentence_break_rule [] []) as [_ [_ [H _]]].
    apply (f_equal (cons 0x3042%N)).
    apply (H [SPACE; SPACE] 0x3044%N (u "。」")); reflexivity.
Defined.

(** C1 as stated fails: in the joined text of ["> 。 」"] the full stop is
    followed by a space and then by the closing bracket 」, and the
    sentence step of the normalizer puts a line break after the full stop
    all the same; the line break stands between the two in the output. *)
Lemma break_before_spaced_closing_bracket :
  join [SPACE] (cleaned_lines (quoted_lines (u "> 。 」"))) = u "。 」"
  /\ u "。 」" = [FULL_STOP; SPACE; 0x300D%N]
  /\ is_blank SPACE = true
  /\ is_closing 0x300D%N = true
  /\ sentence_breaks (u "。 」") = [FULL_STOP; LF; SPACE; 0x300D%N]
  /\ clean_quoted_email (config_with_list (u "記")) (u "> 。 」")
     = Ok (strip
             (collapse_blank_lines
                (keyword_breaks [u "記"]
                   (blanks_to_newlines [FULL_STOP; LF; SPACE; 0x300D%N]))))
  /\ clean_quoted_email (config_with_list (u "記")) (u "> 。 」")
     = Ok [FULL_STOP; LF; 0x300D%N].
Proof. repeat split; reflexivity. Qed.

(** C2, on the code: with no configuration file the default
    configuration is created, and [get_keywords] then returns one keyword,
    the whole default value; the value separates its four terms with the
    ideographic comma (U+3001), the split is on the ASCII comma.  A
    configuration file without the option gives the empty list. *)
Theorem default_keywords_are_one_term :
  get_keywords (_load_config None) = Ok [u "記、件名、宛先、差出人"]
  /\ get_keywords (_load_config None)
     <> Ok [u "記"; u "件名"; u "宛先"; u "差出人"]
  /\ nth_error (u "記、件名、宛先、差出人") 1 = Some 0x3001%N
  /\ COMMA = 0x2C%N
  /\ get_keywords (_load_config (Some (parser_of []))) = Ok [].
Proof.
  split; [reflexivity|]. split; [discriminate|]. repeat split; reflexivity.
Qed.

(** C3, as amended.  For the two lines of the example and the keyword
    list with 記 alone, the output is the two sentences on a line each: it
    begins with 記 itself, the blank line the keyword stage puts before 記
    being removed by the final trim; there is a line break after the first
    full stop and none after the last, which ends the output. *)
Theorem example_output :
  get_keywords (config_with_list (u "記")) = Ok [u "記"]
  /\ clean_quoted_email (config_with_list (u "記"))
       (u "> 記：テストです。" ++ [LF] ++ u "> 本文はこちらです。")
     = Ok (u "記：テストです。" ++ [LF] ++ u "本文はこちらです。")
  /\ keyword_breaks [u "記"]
       (blanks_to_newlines
          (sentence_breaks (u "記：テストです。 本文はこちらです。")))
     = [LF; LF] ++ u "記：テストです。" ++ [LF] ++ u "本文はこちらです。".
Proof. repeat split; reflexivity. Qed.

(** C3 as stated fails: the output of the example does not begin with a
    line break. *)
Lemma example_opens_with_keyword :
  ~ (exists out rest,
        clean_quoted_email (config_with_list (u "記"))
          (u "> 記：テストです。" ++ [LF] ++ u "> 本文はこちらです。")
        = Ok out
        /\ out = LF :: rest).
Proof.
  intros [out [rest [H E]]]. subst out. vm_compute in H. discriminate.
Qed.

(** C4.  A text none of whose lines is a quote line is returned trimmed
    and otherwise unchanged. *)
Theorem unquoted_text_is_trimmed cfg (text : str) :
  (forall line, In line (splitlines text) -> ~ is_quote_line line) ->
  clean_quoted_email cfg text = Ok (strip text).
Proof.
  intros H. unfold clean_quoted_email, try_body.
  rewrite (no_quote_lines _ H). cbn [is_empty_list try_except].
  destruct (strip text); reflexivity.
Qed.

Lemma unquoted_text_is_trimmed_witness :
  clean_quoted_email config_raising (u "  Hello, > world" ++ [LF] ++ u "bye ")
  = Ok (u "Hello, > world" ++ [LF] ++ u "bye").
Proof.
  apply (unquoted_text_is_trimmed config_raising
           (u "  Hello, > world" ++ [LF] ++ u "bye ")).
  intros line Hin Hq. apply quote_re_spec in Hq.
  destruct Hin as [<-|[<-|[]]]; vm_compute in Hq; discriminate.
Defined.

(** C5.  For keywords that are not empty, the normalizer returns what
    the collapsing and the trim make of the text after the keyword stage,
    with no run of three line breaks in it, and the keyword stage is the sequence of passes in list order, each
    pass on the text the pass before left; a pass puts two line breaks
    before every occurrence of its keyword that it meets from left to
    right, each searched after the end of the one before; the result is
    the only one such passes have.  A keyword that occurs twice gets the
    two line breaks before each occurrence, and after the collapsing no run
    of three line breaks remains. *)
Theorem keywords_in_list_order (kws : list str) (t : str) :
  Forall (fun kw => kw <> []) kws ->
  (forall cfg text,
      get_keywords cfg = Ok kws ->
      cleaned_lines (quoted_lines text) <> [] ->
      blanks_to_newlines
        (sentence_breaks (join [SPACE] (cleaned_lines (quoted_lines text))))
      = t ->
      clean_quoted_email cfg text
      = Ok (strip (collapse_blank_lines (keyword_breaks kws t)))
      /\ ~ has_blank_run
            (strip (collapse_blank_lines (keyword_breaks kws t))))
  /\ KeywordPasses kws t (keyword_breaks kws t)
  /\ (forall out, KeywordPasses kws t out -> out = keyword_breaks kws t)
  /\ (forall kw a b c text,
        kw <> [] ->
        first_at kw a (b ++ kw ++ c) text ->
        first_at kw b c (b ++ kw ++ c) ->
        ~ occurs kw c ->
        keyword_breaks [kw] text
        = a ++ [LF; LF] ++ kw ++ b ++ [LF; LF] ++ kw ++ c)
  /\ ~ has_blank_run (collapse_blank_lines (keyword_breaks kws t)).
Proof.
  intros Hkws. pose proof (keyword_breaks_spec kws Hkws t) as Hp.
  split.
  { intros cfg text Hk Hc <-. split; [apply normalizer_stages; assumption|].
    apply strip_no_blank_run, collapse_no_blank_run. }
  split; [assumption|]. split.
  - intros out Ho. apply (KeywordPasses_unique _ _ _ Ho _ Hp).
  - split; [|apply collapse_no_blank_run].
    intros kw a b c text Hkw Ha Hb Hc. cbn [keyword_breaks fold_left].
    apply (Replaced_unique kw text).
    + apply keyword_step_spec. assumption.
    + apply Replaced_occ with (rest := b ++ kw ++ c); [assumption|].
      apply Replaced_occ with (rest := c); [assumption|].
      apply Replaced_none. assumption.
Qed.

Lemma keywords_in_list_order_witness :
  clean_quoted_email (config_with_list (u "件名, 宛先"))
    (u "> 件名：a 宛先：b" ++ [LF] ++ u ">> 件名：c")
  = Ok (u "件名：a" ++ [LF; LF] ++ u "宛先：b" ++ [LF; LF] ++ u "件名：c")
  /\ KeywordPasses [u "件名"; u "宛先"]
       (u "件名：a" ++ [LF] ++ u "宛先：b" ++ [LF] ++ u "件名：c")
       ([LF; LF] ++ u "件名：a" ++ [LF; LF; LF] ++ u "宛先：b"
          ++ [LF; LF; LF] ++ u "件名：c").
Proof.
  assert (H : Forall (fun kw : str => kw <> []) [u "件名"; u "宛先"])
    by (repeat constructor; discriminate).
  destruct (keywords_in_list_order
              [u "件名"; u "宛先"]
              (u "件名：a" ++ [LF] ++ u "宛先：b" ++ [LF] ++ u "件名：c") H)
    as [He [Hp _]].
  split.
  - apply (proj1 (He (config_with_list (u "件名, 宛先"))
                     (u "> 件名：a 宛先：b" ++ [LF] ++ u ">> 件名：c")
                     eq_refl ltac:(vm_compute; discriminate) eq_refl)).
  - exact Hp.
Defined.

(** C6, as amended.  For a text with a quote line and a keyword list that
    was read, the output has no run of three or more line breaks, and the
    collapsing leaves every run of exactly two line breaks as it is. *)
Theorem no_blank_run_in_normalized_output cfg kws (text : str) :
  get_keywords cfg = Ok kws ->
  quoted_lines text <> [] ->
  (exists out, clean_quoted_email cfg text = Ok out /\ ~ has_blank_run out)
  /\ (forall a b,
        (forall a' c, a = a' ++ [c] -> c <> LF) ->
        lead_lf b = O ->
        collapse_blank_lines (a ++ LF :: LF :: b)
        = collapse_blank_lines a ++ LF :: LF :: collapse_blank_lines b).
Proof.
  intros Hk Hq. split; [|apply collapse_keeps_pair].
  unfold clean_quoted_email. rewrite (quoted_text_not_blank _ Hq).
  destruct (try_body_returns cfg kws text Hk) as [out [E [_ Hn]]].
  rewrite E. exists out. split; [reflexivity|]. apply Hn. assumption.
Qed.

Lemma no_blank_run_in_normalized_output_witness :
  exists out,
    clean_quoted_email (config_with_list (u "件名"))
      (u "> 件名：a" ++ [LF; LF; LF; LF] ++ u ">> 件名 件名") = Ok out
    /\ ~ has_blank_run out.
Proof.
  apply (no_blank_run_in_normalized_output
           (config_with_list (u "件名")) [u "件名"]).
  - reflexivity.
  - vm_compute. discriminate.
Defined.

(** C6 as stated fails: a text without quote lines is returned trimmed
    with its runs of line breaks. *)
Lemma blank_run_kept_in_unquoted_text :
  clean_quoted_email (config_with_list (u "件名"))
    (u "a" ++ [LF; LF; LF] ++ u "b")
  = Ok (u "a" ++ [LF; LF; LF] ++ u "b")
  /\ has_blank_run (u "a" ++ [LF; LF; LF] ++ u "b").
Proof.
  split; [reflexivity|]. exists (u "a"), (u "b"). reflexivity.
Qed.

(** C7.  With the keyword list read, the normalizer returns a string
    that has no leading and no trailing whitespace. *)
Theorem output_is_trimmed cfg kws (text : str) :
  get_keywords cfg = Ok kws ->
  exists out, clean_quoted_email cfg text = Ok out /\ trimmed out.
Proof.
  intros Hk. unfold clean_quoted_email.
  destruct (is_empty (strip text)).
  - exists []. split; [reflexivity|apply trimmed_nil].
  - destruct (try_body_returns cfg kws text Hk) as [out [E [Ht _]]].
    rewrite E. exists out. split; [reflexivity|assumption].
Qed.

Lemma output_is_trimmed_witness :
  exists out,
    clean_quoted_email (config_with_list (u "記"))
      (u "  > 記 a 。 " ++ [LF] ++ u " >  ") = Ok out
    /\ trimmed out.
Proof.
  apply (output_is_trimmed (config_with_list (u "記")) [u "記"]).
  reflexivity.
Defined.

(** C8.  The normalizer always returns a string, never an exception;
    when the body of the [try] block raises, which only the reading of the
    keywords can do, the string returned is the input text itself. *)
Theorem never_raises cfg (text : str) :
  (exists out, clean_quoted_email cfg text = Ok out)
  /\ (forall e,
        is_empty (strip text) = false ->
        try_body cfg text = Raise e ->
        clean_quoted_email cfg text = Ok text)
  /\ (forall e, try_body cfg text = Raise e -> get_keywords cfg = Raise e).
Proof.
  split; [|split].
  - unfold clean_quoted_email. destruct (is_empty (strip text)); [eauto|].
    destruct (try_body cfg text); cbn [try_except]; eauto.
  - intros e Hs Hb. unfold clean_quoted_email. rewrite Hs, Hb. reflexivity.
  - apply try_body_raises.
Qed.

Lemma never_raises_witness :
  clean_quoted_email config_raising (u " > 記：a。 ") = Ok (u " > 記：a。 ").
Proof.
  destruct (never_raises config_raising (u " > 記：a。 ")) as [_ [H _]].
  apply (H (Exception "InterpolationSyntaxError")); reflexivity.
Defined.

(** C9.  An empty or whitespace-only text gives the empty string. *)
Theorem blank_text_gives_empty cfg (text : str) :
  forallb is_space text = true ->
  clean_quoted_email cfg text = Ok [].
Proof.
  intros H. unfold clean_quoted_email.
  rewrite (strip_all_space _ H). reflexivity.
Qed.

Lemma blank_text_gives_empty_witness :
  clean_quoted_email config_raising
    ([SPACE; SPACE; SPACE; LF; 0x09%N; SPACE; SPACE; 0x3000%N]) = Ok [].
Proof.
  apply (blank_text_gives_empty config_raising). reflexivity.
Defined.

(** C10.  Two texts with the same quote lines, at least one, give the
    same output under the same keyword list. *)
Theorem unquoted_lines_do_not_matter cfg kws (t1 t2 : str) :
  get_keywords cfg = Ok kws ->
  quoted_lines t1 = quoted_lines t2 ->
  quoted_lines t1 <> [] ->
  clean_quoted_email cfg t1 = clean_quoted_email cfg t2.
Proof.
  intros Hk E H1. assert (H2 : quoted_lines t2 <> []) by congruence.
  unfold clean_quoted_email.
  rewrite (quoted_text_not_blank _ H1), (quoted_text_not_blank _ H2).
  rewrite <- (try_body_quoted cfg t1 t2 E H1).
  destruct (try_body_returns cfg kws t1 Hk) as [out [Eo _]].
  rewrite Eo. reflexivity.
Qed.

Lemma unquoted_lines_do_not_matter_witness :
  clean_quoted_email (config_with_list (u "記"))
    (u "Dear all," ++ [LF] ++ u "> 記：a。b" ++ [LF] ++ u "regards")
  = clean_quoted_email (config_with_list (u "記")) (u "> 記：a。b").
Proof.
  apply (unquoted_lines_do_not_matter (config_with_list (u "記")) [u "記"]).
  - reflexivity.
  - reflexivity.
  - vm_compute. discriminate.
Defined.

End Properties.

(** ** Lemmas for the further properties *)
Module ShapeFacts.

Import Py Re Config Cleaner Props Shape PyFacts ReFacts StageFacts.
Local Open Scope list_scope.

(** *** The scan *)

Section ScanInd.

Variable occ : str -> option nat.
Variable new : str.
Variable P : str -> str -> Prop.

Hypothesis P_nil : P [] [].
Hypothesis P_miss :
  forall c s, occ (c :: s) = None ->
              P s (scan occ new 0 s) -> P (c :: s) (c :: scan occ new 0 s).
Hypothesis P_hit :
  forall c s n, occ (c :: s) = Some (S n) ->
                P (skipn n s) (scan occ new 0 (skipn n s)) ->
                P (c :: s) (new ++ scan occ new 0 (skipn n s)).
Hypothesis P_empty :
  forall c s, occ (c :: s) = Some O ->
              P s (scan occ new 0 s) ->
              P (c :: s) (new ++ c :: scan occ new 0 s).

(** Induction along the scan. *)
Lemma scan_induction (s : str) : P s (scan occ new 0 s).
Proof.
  induction s as [s IH] using length_ind. destruct s as [|c s].
  - exact P_nil.
  - destruct (occ (c :: s)) as [[|n]|] eqn:E.
    + cbn [scan]. rewrite E. apply P_empty; [assumption|].
      apply IH. simpl. lia.
    + rewrite (scan_hit _ _ _ _ _ E). apply P_hit; [assumption|].
      apply IH. rewrite length_skipn. simpl. lia.
    + rewrite (scan_miss _ _ _ _ E). apply P_miss; [assumption|].
      apply IH. simpl. lia.
Qed.

End ScanInd.

Lemma in_skipn (n : nat) (s : str) c : In c (skipn n s) -> In c s.
Proof.
  intros H. rewrite <- (firstn_skipn n s). apply in_or_app. right. assumption.
Qed.

(** The scan brings in no character but those of the replacement. *)
Lemma scan_chars occ new (s : str) x :
  In x (scan occ new 0 s) -> In x s \/ In x new.
Proof.
  revert x. apply (scan_induction occ new
    (fun s out => forall x, In x out -> In x s \/ In x new)).
  - intros x [].
  - intros c t _ IH x [<-|H]; [left; left; reflexivity|].
    destruct (IH x H); [left; right|right]; assumption.
  - intros c t n _ IH x H. apply in_app_or in H as [H|H]; [right; assumption|].
    destruct (IH x H) as [H'|H']; [left; right|right; assumption].
    eapply in_skipn; eassumption.
  - intros c t _ IH x H. apply in_app_or in H as [H|[<-|H]].
    + right; assumption.
    + left; left; reflexivity.
    + destruct (IH x H); [left; right|right]; assumption.
Qed.

Lemma ink_app (a b : str) : ink (a ++ b) = ink a ++ ink b.
Proof. apply filter_app. Qed.

Lemma ink_all_space (s : str) : forallb is_space s = true -> ink s = [].
Proof.
  induction s as [|c s IH]; [reflexivity|]. simpl.
  intros H. apply andb_prop in H as [Hc Hs]. rewrite Hc. simpl. auto.
Qed.

(** A scan whose replacement has the ink of what it replaces keeps the
    ink. *)
Lemma ink_scan occ new :
  (forall s n, occ s = Some n -> ink (firstn n s) = ink new) ->
  forall s, ink (scan occ new 0 s) = ink s.
Proof.
  intros Hocc. apply (scan_induction occ new (fun s out => ink out = ink s)).
  - reflexivity.
  - intros c t _ IH. simpl. rewrite IH. reflexivity.
  - intros c t n E IH. rewrite ink_app, IH, <- (Hocc _ _ E), <- ink_app.
    change (skipn n t) with (skipn (S n) (c :: t)).
    rewrite firstn_skipn. reflexivity.
  - intros c t E IH. rewrite ink_app, <- (Hocc _ _ E). simpl.
    rewrite IH. reflexivity.
Qed.

Lemma is_blank_space c : is_blank c = is_space c.
Proof.
  unfold is_blank. destruct (N.eqb c WIDE_SPACE) eqn:E.
  - apply N.eqb_eq in E. subst c. reflexivity.
  - apply orb_false_r.
Qed.

Lemma firstn_blank (t : str) n :
  (n <= lead_blank t)%nat -> forallb is_space (firstn n t) = true.
Proof.
  revert n. induction t as [|c t IH]; intros [|n] H; try reflexivity.
  simpl in H. destruct (is_blank c) eqn:Hc; [|lia].
  simpl. rewrite <- is_blank_space, Hc. apply IH. lia.
Qed.

Lemma firstn_lf (t : str) n :
  (n <= lead_lf t)%nat -> forallb is_space (firstn n t) = true.
Proof.
  revert n. induction t as [|c t IH]; intros [|n] H; try reflexivity.
  simpl in H. destruct (is_lf c) eqn:Hc; [|lia].
  apply N.eqb_eq in Hc. subst c. simpl. apply IH. lia.
Qed.

Lemma blanks_taken_bound (t : str) n :
  blanks_taken t = Some n -> (n <= lead_blank t)%nat.
Proof.
  unfold blanks_taken. destruct (opens_plain _).
  - intros H. injection H as <-. lia.
  - destruct (lead_blank t); [discriminate|].
    intros H. injection H as <-. lia.
Qed.

(** [[\s　]+] matches the whole run of blanks, if there is one. *)
Lemma blank_re_spec (s : str) :
  match_here blank_re s
  = match lead_blank s with O => None | S n => Some (S n) end.
Proof.
  unfold blank_re, Plus. cbn [match_here].
  assert (G : forall t, rep is_blank (fun _ => Some O) 0 None t
                        = Some (lead_blank t)).
  { induction t as [|c t IH]; [reflexivity|]. cbn [rep lead_blank].
    destruct (is_blank c); cbn [andb may_take option_map pred];
      [rewrite IH|]; reflexivity. }
  destruct s as [|c t]; [reflexivity|]. cbn [rep lead_blank].
  destruct (is_blank c); cbn [andb may_take option_map pred]; [|reflexivity].
  rewrite G. reflexivity.
Qed.

Lemma ink_sentence_breaks (s : str) : ink (sentence_breaks s) = ink s.
Proof.
  apply ink_scan. intros t n. rewrite sentence_re_spec.
  destruct t as [|c t]; [discriminate|].
  destruct (is_full_stop c) eqn:Hc; [|discriminate].
  apply full_stop_eq in Hc. subst c.
  destruct (blanks_taken t) as [m|] eqn:Hm; [|discriminate].
  intros H. injection H as <-. cbn [firstn].
  change (FULL_STOP :: firstn m t) with ([FULL_STOP] ++ firstn m t).
  rewrite ink_app, (ink_all_space (firstn m t)); [reflexivity|].
  apply firstn_blank, blanks_taken_bound. assumption.
Qed.

Lemma ink_blanks_to_newlines (s : str) : ink (blanks_to_newlines s) = ink s.
Proof.
  apply ink_scan. intros t n. rewrite blank_re_spec.
  destruct (lead_blank t) as [|m] eqn:Hm; [discriminate|].
  intros H. injection H as <-.
  apply ink_all_space, firstn_blank. lia.
Qed.

Lemma ink_collapse (s : str) : ink (collapse_blank_lines s) = ink s.
Proof.
  apply ink_scan. intros t n. rewrite blank_lines_re_spec.
  destruct (Nat.leb_spec 3 (lead_lf t)) as [Hl|Hl]; [|discriminate].
  intros H. injection H as <-.
  apply ink_all_space, firstn_lf. lia.
Qed.

Lemma ink_strip (s : str) : ink (strip s) = ink s.
Proof.
  destruct (strip_split s) as [p [q [E [Hp Hq]]]].
  rewrite E at 2. rewrite !ink_app, (ink_all_space _ Hp), (ink_all_space _ Hq).
  rewrite app_nil_r. reflexivity.
Qed.

Lemma ink_join (ls : list str) :
  ink (join [SPACE] ls) = concat (map ink ls).
Proof.
  induction ls as [|l ls IH]; [reflexivity|].
  destruct ls as [|l' ls].
  - simpl. rewrite app_nil_r. reflexivity.
  - change (join [SPACE] (l :: l' :: ls))
      with (l ++ [SPACE] ++ join [SPACE] (l' :: ls)).
    rewrite !ink_app, IH. reflexivity.
Qed.

(** *** The quote markers *)

(** A greedy repetition takes the whole run when the rest of the pattern
    matches behind it. *)
Lemma rep_run cls k (run rest : str) n :
  forallb cls run = true ->
  match rest with c :: _ => cls c = false | [] => True end ->
  k rest = Some n ->
  forall lo, (lo <= length run)%nat ->
             rep cls k lo None (run ++ rest) = Some (length run + n)%nat.
Proof.
  intros Hrun Hrest Hk. induction run as [|c run IH]; intros lo Hlo.
  - simpl in Hlo. assert (lo = O) by lia. subst lo. simpl.
    destruct rest as [|d rest]; simpl; [assumption|].
    rewrite Hrest. assumption.
  - simpl in Hrun. apply andb_prop in Hrun as [Hc Hrun].
    cbn [app rep]. rewrite Hc. cbn [andb may_take option_map].
    rewrite (IH Hrun (pred lo)) by (simpl in Hlo; lia). reflexivity.
Qed.

Lemma opt_space_spec (rest : str) :
  match_here [Opt is_space] rest = Some (space_ahead rest).
Proof.
  unfold Opt. cbn [match_here]. destruct rest as [|c r]; [reflexivity|].
  cbn [rep space_ahead]. destruct (is_space c); cbn [andb may_take];
    [|reflexivity].
  cbn [option_map pred]. destruct r as [|d r]; [reflexivity|].
  cbn [rep may_take]. rewrite andb_false_r. reflexivity.
Qed.

Lemma gt_run_split (s : str) :
  exists run, s = run ++ drop_gt s
              /\ forallb is_gt run = true
              /\ match drop_gt s with
                 | c :: _ => is_gt c = false
                 | [] => True
                 end.
Proof.
  induction s as [|c s [run [E [Hr Hd]]]].
  - exists []. simpl. auto.
  - simpl. destruct (is_gt c) eqn:Hc.
    + exists (c :: run). simpl. rewrite Hc, Hr. split; [congruence|auto].
    + exists []. simpl. rewrite Hc. auto.
Qed.

Lemma skipn_app_run (a b : str) n :
  skipn (length a + n) (a ++ b) = skipn n b.
Proof. induction a; simpl; auto. Qed.

Lemma strip_skip_space (rest : str) :
  strip (skipn (space_ahead rest) rest) = strip rest.
Proof.
  destruct rest as [|c r]; [reflexivity|]. unfold space_ahead.
  destruct (is_space c) eqn:Hc; [|reflexivity].
  unfold strip. simpl. rewrite Hc. reflexivity.
Qed.

(** What the marker pattern removes from a quote line: the leading
    whitespace, the run of markers and one whitespace character behind
    it. *)
Lemma marker_removed (line : str) :
  re_match quote_re line = true ->
  sub_anchored marker_re [] line
  = skipn (space_ahead (after_marker line)) (after_marker line).
Proof.
  intros Hq. apply quote_re_spec in Hq as [ws [r [-> Hws]]].
  unfold after_marker.
  rewrite lstrip_app_plain by apply gt_not_space.
  rewrite (lstrip_all_space _ Hws). cbn [app drop_gt].
  change (is_gt GT) with true. cbv iota.
  destruct (gt_run_split r) as [run [E [Hrun Hd]]].
  set (rest := drop_gt r) in *.
  assert (M : match_here marker_re (ws ++ (GT :: run) ++ rest)
              = Some (length ws + (length (GT :: run) + space_ahead rest))%nat).
  { unfold marker_re, Star.
    change (match_here (Rep is_space 0 None :: [Plus is_gt; Opt is_space])
                       (ws ++ (GT :: run) ++ rest))
      with (rep is_space (match_here [Plus is_gt; Opt is_space]) 0 None
                (ws ++ (GT :: run) ++ rest)).
    apply rep_run; [assumption|apply gt_not_space| |lia].
    unfold Plus.
    change (match_here (Rep is_gt 1 None :: [Opt is_space])
                       ((GT :: run) ++ rest))
      with (rep is_gt (match_here [Opt is_space]) 1 None
                ((GT :: run) ++ rest)).
    apply rep_run; [simpl; assumption|assumption| |simpl; lia].
    apply opt_space_spec. }
  unfold sub_anchored. rewrite E.
  change (ws ++ GT :: run ++ rest) with (ws ++ (GT :: run) ++ rest).
  rewrite M. rewrite !skipn_app_run. reflexivity.
Qed.

Lemma cleaned_line_spec (line : str) :
  re_match quote_re line = true ->
  strip (sub_anchored marker_re [] line) = strip (after_marker line).
Proof.
  intros H. rewrite (marker_removed _ H). apply strip_skip_space.
Qed.

Lemma cleaned_lines_spec (text : str) :
  cleaned_lines (quoted_lines text)
  = filter (fun l => negb (is_empty l))
           (map (fun l => strip (after_marker l)) (quoted_lines text)).
Proof.
  unfold cleaned_lines. f_equal. apply map_ext_in.
  intros l Hl. unfold quoted_lines in Hl. apply filter_In in Hl as [_ Hl].
  apply cleaned_line_spec. assumption.
Qed.

(** *** Line breaks put in *)

Lemma ins_refl (t : str) : lf_inserted t t.
Proof. induction t; constructor; assumption. Qed.

Lemma ins_app (a a' b b' : str) :
  lf_inserted a a' -> lf_inserted b b' -> lf_inserted (a ++ b) (a' ++ b').
Proof.
  intros Ha Hb. induction Ha; simpl; [assumption| |]; constructor; assumption.
Qed.

Lemma ins_trans (b c : str) :
  lf_inserted b c -> forall a, lf_inserted a b -> lf_inserted a c.
Proof.
  induction 1 as [|x b c _ IH|b c _ IH]; intros a Ha.
  - assumption.
  - inversion Ha as [|y a0 b0 Ha0|a0 b0 Ha0]; subst.
    + apply Ins_keep. apply IH. assumption.
    + apply Ins_add. apply IH. assumption.
  - apply Ins_add. apply IH. assumption.
Qed.

Lemma ins_chars (t t' : str) :
  lf_inserted t t' -> forall c, In c t' -> In c t \/ c = LF.
Proof.
  induction 1 as [|x t t' _ IH|t t' _ IH]; intros c Hc.
  - destruct Hc.
  - destruct Hc as [<-|Hc]; [left; left; reflexivity|].
    destruct (IH c Hc); [left; right|right]; assumption.
  - destruct Hc as [<-|Hc]; [right; reflexivity|]. apply IH. assumption.
Qed.

Lemma ins_ink (t t' : str) : lf_inserted t t' -> ink t' = ink t.
Proof.
  induction 1 as [|x t t' _ IH|t t' _ IH]; simpl; [reflexivity| |assumption].
  rewrite IH. reflexivity.
Qed.

Lemma ins_head (t t' : str) :
  lf_inserted t t' ->
  match t' with
  | [] => True
  | d :: _ => d = LF \/ exists r, t = d :: r
  end.
Proof.
  intros H. destruct H; [exact I|right; eauto|left; reflexivity].
Qed.

Lemma Replaced_ins (kw t t' : str) : Replaced kw t t' -> lf_inserted t t'.
Proof.
  induction 1 as [t _|a rest rest' t [E _] _ IH].
  - apply ins_refl.
  - rewrite E. apply ins_app; [apply ins_refl|].
    apply Ins_add, Ins_add. apply ins_app; [apply ins_refl|assumption].
Qed.

Lemma keyword_step_ins (t kw : str) : lf_inserted t (keyword_step t kw).
Proof.
  destruct kw as [|k kw].
  - unfold keyword_step.
    assert (E : contains [] t = true) by (destruct t; reflexivity).
    rewrite E. clear E. cbn [replace app].
    apply Ins_add, Ins_add. induction t as [|c t IH]; cbn [flat_map app].
    + constructor.
    + apply Ins_keep, Ins_add, Ins_add. exact IH.
  - apply (Replaced_ins (k :: kw)). apply keyword_step_spec. discriminate.
Qed.

Lemma keyword_breaks_ins (kws : list str) :
  forall t, lf_inserted t (keyword_breaks kws t).
Proof.
  induction kws as [|kw kws IH]; intros t.
  - apply ins_refl.
  - cbn [keyword_breaks fold_left].
    apply (ins_trans _ _ (IH (keyword_step t kw))). apply keyword_step_ins.
Qed.

(** *** Whitespace left *)

Lemma blanks_to_newlines_spaces (s : str) :
  only_lf_space (blanks_to_newlines s).
Proof.
  unfold blanks_to_newlines, sub.
  apply (scan_induction (match_here blank_re) [LF]
           (fun _ out => only_lf_space out)).
  - intros c [].
  - intros c t E IH x [<-|Hx] Hs; [|apply IH; assumption].
    rewrite blank_re_spec in E. cbn [lead_blank] in E.
    rewrite is_blank_space, Hs in E. discriminate.
  - intros c t n _ IH x [<-|Hx] Hs; [reflexivity|apply IH; assumption].
  - intros c t E. rewrite blank_re_spec in E.
    destruct (lead_blank (c :: t)); discriminate.
Qed.

Lemma in_strip (s : str) c : In c (strip s) -> In c s.
Proof.
  intros H. destruct (strip_split s) as [p [q [E _]]]. rewrite E.
  apply in_or_app. right. apply in_or_app. left. assumption.
Qed.

(** *** Full stops at line ends *)

Lemma stops_nil : stops_end_lines [].
Proof. intros a c b E. destruct a; discriminate. Qed.

Lemma stops_tail x (s : str) : stops_end_lines (x :: s) -> stops_end_lines s.
Proof. intros H a c b E. apply (H (x :: a) c b). rewrite E. reflexivity. Qed.

Lemma stops_cons x (s : str) :
  stops_end_lines s ->
  (x = FULL_STOP ->
   match s with
   | c :: _ => c = LF \/ is_closing c = true
   | [] => True
   end) ->
  stops_end_lines (x :: s).
Proof.
  intros Hs Hx a c b E. destruct a as [|y a]; simpl in E.
  - injection E as -> ->. apply Hx. reflexivity.
  - injection E as _ ->. apply (Hs a c b). reflexivity.
Qed.

Lemma stops_plain x (s : str) :
  x <> FULL_STOP -> stops_end_lines s -> stops_end_lines (x :: s).
Proof. intros Hx Hs. apply stops_cons; [assumption|]. congruence. Qed.

Lemma stops_infix (a s b : str) :
  stops_end_lines (a ++ s ++ b) -> stops_end_lines s.
Proof.
  intros H a' c b' E. apply (H (a ++ a') c (b' ++ b)).
  rewrite E. repeat rewrite <- app_assoc. reflexivity.
Qed.

Lemma stops_skipn n (s : str) :
  stops_end_lines s -> stops_end_lines (skipn n s).
Proof.
  intros H. apply (stops_infix (firstn n s) (skipn n s) []).
  rewrite app_nil_r, firstn_skipn. assumption.
Qed.

Lemma lf_not_full_stop : LF <> FULL_STOP.
Proof. discriminate. Qed.

Lemma full_stop_not_closing : is_closing FULL_STOP = false.
Proof. reflexivity. Qed.

Lemma closing_not_full_stop c : is_closing c = true -> is_full_stop c = false.
Proof.
  intros H. destruct (is_full_stop c) eqn:E; [|reflexivity].
  apply full_stop_eq in E. subst c.
  rewrite full_stop_not_closing in H. discriminate.
Qed.

Lemma stops_sentence_breaks (s : str) : stops_end_lines (sentence_breaks s).
Proof.
  induction s as [s IH] using length_ind. destruct s as [|c t].
  - apply stops_nil.
  - destruct (is_full_stop c) eqn:Hc.
    + apply full_stop_eq in Hc. subst c.
      destruct (blanks_taken t) as [n|] eqn:Hn.
      * rewrite (sentence_stop_broken _ _ Hn).
        apply stops_cons; [|intros _; left; reflexivity].
        apply stops_plain; [apply lf_not_full_stop|].
        apply IH. rewrite length_skipn. simpl. lia.
      * rewrite (sentence_stop_kept _ Hn).
        apply stops_cons; [apply IH; simpl; lia|]. intros _.
        rewrite blanks_taken_cases in Hn. destruct t as [|d t].
        -- exact I.
        -- destruct (is_closing d) eqn:Hd; [|discriminate].
           rewrite (sentence_plain _ _ (closing_not_full_stop _ Hd)).
           right. assumption.
    + rewrite (sentence_plain _ _ Hc). apply stops_plain.
      * intros ->. unfold is_full_stop in Hc. rewrite N.eqb_refl in Hc.
        discriminate.
      * apply IH. simpl. lia.
Qed.

Lemma blanks_to_newlines_hit c (t : str) :
  is_blank c = true ->
  blanks_to_newlines (c :: t)
  = LF :: blanks_to_newlines (skipn (lead_blank t) t).
Proof.
  intros Hc. unfold blanks_to_newlines, sub.
  rewrite (scan_hit _ _ c t (lead_blank t)); [reflexivity|].
  rewrite blank_re_spec. cbn [lead_blank]. rewrite Hc. reflexivity.
Qed.

Lemma blanks_to_newlines_miss c (t : str) :
  is_blank c = false ->
  blanks_to_newlines (c :: t) = c :: blanks_to_newlines t.
Proof.
  intros Hc. unfold blanks_to_newlines, sub. apply scan_miss.
  rewrite blank_re_spec. cbn [lead_blank]. rewrite Hc. reflexivity.
Qed.

Lemma lf_is_blank : is_blank LF = true.
Proof. reflexivity. Qed.

Lemma stops_blanks_to_newlines (s : str) :
  stops_end_lines s -> stops_end_lines (blanks_to_newlines s).
Proof.
  induction s as [s IH] using length_ind. intros Hs. destruct s as [|c t].
  - apply stops_nil.
  - destruct (is_blank c) eqn:Hc.
    + rewrite (blanks_to_newlines_hit _ _ Hc).
      apply stops_plain; [apply lf_not_full_stop|].
      apply IH.
      * rewrite length_skipn. simpl. lia.
      * apply stops_skipn. eapply stops_tail. eassumption.
    + rewrite (blanks_to_newlines_miss _ _ Hc).
      apply stops_cons.
      * apply IH; [simpl; lia|]. eapply stops_tail. eassumption.
      * intros ->. destruct t as [|d t]; [exact I|].
        destruct (Hs [] d t eq_refl) as [->|Hd].
        -- rewrite (blanks_to_newlines_hit _ _ lf_is_blank).
           left. reflexivity.
        -- rewrite (blanks_to_newlines_miss _ _ (closing_not_blank _ Hd)).
           right. assumption.
Qed.

Lemma stops_ins (t t' : str) :
  lf_inserted t t' -> stops_end_lines t -> stops_end_lines t'.
Proof.
  induction 1 as [|x t t' Hi IH|t t' _ IH]; intros Hs.
  - assumption.
  - apply stops_cons; [apply IH; eapply stops_tail; eassumption|].
    intros ->. pose proof (ins_head _ _ Hi) as Hh.
    destruct t' as [|d t']; [exact I|].
    destruct Hh as [->|[r ->]]; [left; reflexivity|].
    apply (Hs [] d r eq_refl).
  - apply stops_plain; [apply lf_not_full_stop|]. apply IH. assumption.
Qed.

Lemma collapse_head c (t : str) :
  exists r, collapse_blank_lines (c :: t) = c :: r.
Proof.
  destruct (Nat.leb_spec 3 (lead_lf (c :: t))) as [H|H].
  - rewrite (collapse_hit _ H). simpl in H.
    destruct (is_lf c) eqn:Hc; [|lia]. apply N.eqb_eq in Hc. subst c. eauto.
  - rewrite (collapse_miss _ _ H). eauto.
Qed.

Lemma stops_collapse (s : str) :
  stops_end_lines s -> stops_end_lines (collapse_blank_lines s).
Proof.
  induction s as [s IH] using length_ind. intros Hs.
  destruct (Nat.leb_spec 3 (lead_lf s)) as [H|H].
  - rewrite (collapse_hit _ H).
    apply stops_plain; [apply lf_not_full_stop|].
    apply stops_plain; [apply lf_not_full_stop|].
    apply IH.
    + rewrite length_skipn. pose proof (lead_lf_le s). lia.
    + apply stops_skipn. assumption.
  - destruct s as [|c t]; [apply stops_nil|].
    rewrite (collapse_miss _ _ H). apply stops_cons.
    + apply IH; [simpl; lia|]. eapply stops_tail. eassumption.
    + intros ->. destruct t as [|d t]; [exact I|].
      destruct (collapse_head d t) as [r ->]. apply (Hs [] d t eq_refl).
Qed.

Lemma stops_strip (s : str) : stops_end_lines s -> stops_end_lines (strip s).
Proof.
  intros H. destruct (strip_split s) as [p [q [E _]]].
  apply (stops_infix p (strip s) q). rewrite <- E. assumption.
Qed.

(** *** The keywords read *)

Lemma split_from_no_sep sep (s : str) :
  forall cur piece,
    In piece (split_from sep cur s) -> ~ In sep cur -> ~ In sep piece.
Proof.
  induction s as [|c s IH]; intros cur piece H Hcur.
  - destruct H as [<-|[]]. assumption.
  - cbn [split_from] in H. destruct (N.eqb c sep) eqn:E.
    + destruct H as [<-|H]; [assumption|].
      apply (IH [] piece H). intros [].
    + apply (IH (cur ++ [c]) piece H). intros Hin.
      apply in_app_or in Hin as [Hin|[->|[]]]; [contradiction|].
      rewrite N.eqb_refl in E. discriminate.
Qed.

End ShapeFacts.

(** ** Further properties of the configuration and of the normalizer *)
Module Extras.

Import Py Re Config Cleaner Props Shape PyFacts ReFacts StageFacts ShapeFacts.
Local Open Scope list_scope.

(** X1.  Every keyword [get_keywords] returns is non-empty, has no leading
    or trailing whitespace and holds no comma. *)
Theorem keywords_are_clean cfg kws :
  get_keywords cfg = Ok kws ->
  Forall (fun kw => kw <> [] /\ trimmed kw /\ ~ In COMMA kw) kws.
Proof.
  unfold get_keywords.
  destruct (get (config cfg) "keywords" "list" []) as [s|e]; cbn [bind];
    [|discriminate].
  intros H. injection H as <-. apply Forall_forall. intros kw Hkw.
  apply in_map_iff in Hkw as [piece [<- Hp]].
  apply filter_In in Hp as [Hp Hne]. split; [|split].
  - destruct (strip piece); [discriminate|discriminate].
  - apply trimmed_strip.
  - intros Hc. apply in_strip in Hc.
    apply (split_from_no_sep COMMA s [] piece Hp); [intros []|assumption].
Qed.

Lemma keywords_are_clean_witness :
  Forall (fun kw => kw <> [] /\ trimmed kw /\ ~ In COMMA kw)
         [u "記"; u "件 名"; u "宛先"].
Proof.
  apply (keywords_are_clean (config_with_list (u " 記 , ,件 名,,宛先 ,"))).
  reflexivity.
Defined.

Lemma drop_gt_repeat n (rest : str) :
  match rest with c :: _ => c <> GT | [] => True end ->
  drop_gt (repeat GT n ++ rest) = rest.
Proof.
  intros Hr. induction n as [|n IH]; [|exact IH].
  destruct rest as [|c r]; [reflexivity|]. simpl.
  destruct (is_gt c) eqn:E; [|reflexivity].
  apply N.eqb_eq in E. contradiction.
Qed.

(** X2.  A quote line loses its leading whitespace and its whole run of
    markers, whatever the depth, and what follows is trimmed; a line with
    nothing else is dropped.  A marker behind the run, after a blank, is
    kept. *)
Theorem markers_of_any_depth_are_stripped (ws : str) n (rest : str) :
  forallb is_space ws = true ->
  match rest with c :: _ => c <> GT | [] => True end ->
  cleaned_lines [ws ++ repeat GT (S n) ++ rest]
  = if is_empty (strip rest) then [] else [strip rest].
Proof.
  intros Hws Hr. unfold cleaned_lines. cbn [map filter].
  assert (Hq : re_match quote_re (ws ++ repeat GT (S n) ++ rest) = true).
  { apply quote_re_spec. exists ws, (repeat GT n ++ rest). auto. }
  rewrite (cleaned_line_spec _ Hq). unfold after_marker.
  change (repeat GT (S n) ++ rest) with (GT :: repeat GT n ++ rest).
  rewrite lstrip_app_plain by apply gt_not_space.
  rewrite (lstrip_all_space _ Hws). cbn [app].
  change (GT :: repeat GT n ++ rest) with (repeat GT (S n) ++ rest).
  rewrite (drop_gt_repeat _ _ Hr).
  destruct (is_empty (strip rest)); reflexivity.
Qed.

Lemma markers_of_any_depth_are_stripped_witness :
  cleaned_lines [u "  >>> 了解です。 "] = [u "了解です。"]
  /\ cleaned_lines [u "> > 了解"] = [u "> 了解"]
  /\ cleaned_lines [u " >> "] = [].
Proof.
  split; [|split].
  - apply (markers_of_any_depth_are_stripped (u "  ") 2 (u " 了解です。 "));
      [reflexivity|discriminate].
  - apply (markers_of_any_depth_are_stripped [] 0 (u " > 了解"));
      [reflexivity|discriminate].
  - apply (markers_of_any_depth_are_stripped (u " ") 1 (u " "));
      [reflexivity|discriminate].
Defined.

Lemma filter_all_empty (ls : list str) :
  (forall l, In l ls -> l = []) ->
  filter (fun l => negb (is_empty l)) ls = [].
Proof.
  induction ls as [|l ls IH]; intros H; [reflexivity|].
  simpl. rewrite (H l (or_introl eq_refl)). simpl.
  apply IH. intros l' Hl'. apply H. right. assumption.
Qed.

(** X3.  When the quote lines hold nothing but markers and whitespace, the
    result is the empty string, whatever the configuration does. *)
Theorem bare_markers_give_empty cfg (text : str) :
  quoted_lines text <> [] ->
  (forall line, In line (quoted_lines text) ->
                forallb is_space (after_marker line) = true) ->
  clean_quoted_email cfg text = Ok [].
Proof.
  intros Hq Hall. unfold clean_quoted_email.
  rewrite (quoted_text_not_blank _ Hq). unfold try_body. cbv zeta.
  rewrite cleaned_lines_spec, filter_all_empty.
  - destruct (quoted_lines text); [congruence|reflexivity].
  - intros l Hl. apply in_map_iff in Hl as [line [<- Hl]].
    apply strip_all_space, Hall. assumption.
Qed.

Lemma bare_markers_give_empty_witness :
  clean_quoted_email config_raising
    (u "Hi," ++ [LF] ++ u "> " ++ [LF] ++ u " >> 　" ++ [LF] ++ u "bye")
  = Ok [].
Proof.
  apply (bare_markers_give_empty config_raising).
  - vm_compute. discriminate.
  - intros line Hl. vm_compute in Hl.
    destruct Hl as [<-|[<-|[]]]; reflexivity.
Defined.

(** X4.  The depth of the markers and the whitespace around them never
    matter: two texts whose quote lines agree behind the markers, up to
    trimming, give the same output under the same keyword list. *)
Theorem marker_form_does_not_matter cfg kws (t1 t2 : str) :
  get_keywords cfg = Ok kws ->
  map (fun l => strip (after_marker l)) (quoted_lines t1)
  = map (fun l => strip (after_marker l)) (quoted_lines t2) ->
  quoted_lines t1 <> [] ->
  clean_quoted_email cfg t1 = clean_quoted_email cfg t2.
Proof.
  intros Hk E H1.
  assert (H2 : quoted_lines t2 <> []).
  { intros H. rewrite H in E. destruct (quoted_lines t1);
      [congruence|discriminate]. }
  unfold clean_quoted_email.
  rewrite (quoted_text_not_blank _ H1), (quoted_text_not_blank _ H2).
  assert (Eb : try_body cfg t1 = try_body cfg t2).
  { unfold try_body. cbv zeta. rewrite !cleaned_lines_spec, E.
    destruct (quoted_lines t1); [congruence|].
    destruct (quoted_lines t2); [congruence|]. reflexivity. }
  rewrite <- Eb.
  destruct (try_body_returns cfg kws t1 Hk) as [out [Eo _]].
  rewrite Eo. reflexivity.
Qed.

Lemma marker_form_does_not_matter_witness :
  clean_quoted_email (config_with_list (u "記"))
    (u ">>> 記：a。b " ++ [LF] ++ u "  >c")
  = clean_quoted_email (config_with_list (u "記"))
      (u "> 記：a。b" ++ [LF] ++ u "x" ++ [LF] ++ u ">>  c").
Proof.
  apply (marker_form_does_not_matter (config_with_list (u "記")) [u "記"]).
  - reflexivity.
  - reflexivity.
  - vm_compute. discriminate.
Defined.

Lemma ink_nonempty_lines (ls : list str) :
  concat (map ink (filter (fun l => negb (is_empty l)) ls))
  = concat (map ink ls).
Proof.
  induction ls as [|l ls IH]; [reflexivity|]. simpl.
  destruct l as [|c l]; simpl; [assumption|]. rewrite IH. reflexivity.
Qed.

(** The output of the body, stage by stage, for a text with a quote line. *)
Lemma try_body_stages cfg kws (text : str) :
  get_keywords cfg = Ok kws ->
  quoted_lines text <> [] ->
  exists out,
    clean_quoted_email cfg text = Ok out
    /\ ((cleaned_lines (quoted_lines text) = [] /\ out = [])
        \/ out = strip (collapse_blank_lines
                         (keyword_breaks kws
                            (blanks_to_newlines
                               (sentence_breaks
                                  (join [SPACE]
                                     (cleaned_lines (quoted_lines text)))))))).
Proof.
  intros Hk Hq. unfold clean_quoted_email.
  rewrite (quoted_text_not_blank _ Hq). unfold try_body. cbv zeta.
  destruct (quoted_lines text) as [|q ql]; [congruence|].
  cbn [is_empty_list].
  destruct (cleaned_lines (q :: ql)) as [|l ls] eqn:E; cbn [is_empty_list].
  - exists []. split; [reflexivity|]. left. auto.
  - rewrite Hk. cbn [bind try_except]. eexists. split; [reflexivity|].
    right. reflexivity.
Qed.

(** X5.  The normalizer keeps the text of the quote lines: the characters
    of the output that are not whitespace are, in order, those that follow
    the markers in the quote lines; nothing is lost and nothing but line
    breaks is added. *)
Theorem quoted_content_is_kept cfg kws (text : str) :
  get_keywords cfg = Ok kws ->
  quoted_lines text <> [] ->
  exists out,
    clean_quoted_email cfg text = Ok out
    /\ ink out
       = concat (map (fun line => ink (after_marker line))
                     (quoted_lines text)).
Proof.
  intros Hk Hq.
  destruct (try_body_stages cfg kws text Hk Hq) as [out [E Ho]].
  exists out. split; [assumption|].
  assert (Ec : concat (map ink (cleaned_lines (quoted_lines text)))
               = concat (map (fun line => ink (after_marker line))
                             (quoted_lines text))).
  { rewrite cleaned_lines_spec, ink_nonempty_lines, map_map.
    f_equal. apply map_ext. intros l. apply ink_strip. }
  rewrite <- Ec. destruct Ho as [[Hc Ho]|Ho]; subst out.
  - rewrite Hc. reflexivity.
  - rewrite ink_strip, ink_collapse.
    rewrite (ins_ink _ _ (keyword_breaks_ins kws _)).
    rewrite ink_blanks_to_newlines, ink_sentence_breaks. apply ink_join.
Qed.

Lemma quoted_content_is_kept_witness :
  exists out,
    clean_quoted_email (config_with_list (u "件名,記"))
      (u "前略" ++ [LF] ++ u ">> 件名： 会議 の件。" ++ [LF] ++ u "> 記 　以上")
    = Ok out
    /\ ink out = u "件名：会議の件。記以上".
Proof.
  apply (quoted_content_is_kept (config_with_list (u "件名,記"))
           [u "件名"; u "記"]).
  - reflexivity.
  - vm_compute. discriminate.
Defined.

(** X6.  In the output for a text with a quote line, the only whitespace
    characters are line breaks: no space, tab or full-width space is
    left. *)
Theorem output_has_only_line_breaks cfg kws (text : str) :
  get_keywords cfg = Ok kws ->
  quoted_lines text <> [] ->
  exists out,
    clean_quoted_email cfg text = Ok out /\ only_lf_space out.
Proof.
  intros Hk Hq.
  destruct (try_body_stages cfg kws text Hk Hq) as [out [E Ho]].
  exists out. split; [assumption|]. intros c Hc Hs.
  destruct Ho as [[_ Ho]|Ho]; subst out; [destruct Hc|].
  apply in_strip in Hc.
  apply scan_chars in Hc as [Hc|[<-|[<-|[]]]]; try reflexivity.
  apply (ins_chars _ _ (keyword_breaks_ins kws _)) in Hc as [Hc|Hc];
    [|assumption].
  apply (blanks_to_newlines_spaces _ c Hc Hs).
Qed.

Lemma output_has_only_line_breaks_witness :
  exists out,
    clean_quoted_email (config_with_list (u "件名"))
      (u "> a b" ++ [0x09%N] ++ u "c　d  件名 e") = Ok out
    /\ only_lf_space out.
Proof.
  apply (output_has_only_line_breaks (config_with_list (u "件名"))
           [u "件名"]).
  - reflexivity.
  - vm_compute. discriminate.
Defined.

(** X7.  In the output for a text with a quote line, every full stop ends
    its line unless a closing character follows it at once: after a full
    stop comes the end of the output, a line break or a closing
    character. *)
Theorem full_stops_end_lines cfg kws (text : str) :
  get_keywords cfg = Ok kws ->
  quoted_lines text <> [] ->
  exists out,
    clean_quoted_email cfg text = Ok out /\ stops_end_lines out.
Proof.
  intros Hk Hq.
  destruct (try_body_stages cfg kws text Hk Hq) as [out [E Ho]].
  exists out. split; [assumption|].
  destruct Ho as [[_ Ho]|Ho]; subst out; [apply stops_nil|].
  apply stops_strip, stops_collapse.
  apply (stops_ins _ _ (keyword_breaks_ins kws _)).
  apply stops_blanks_to_newlines, stops_sentence_breaks.
Qed.

Lemma full_stops_end_lines_witness :
  exists out,
    clean_quoted_email (config_with_list (u "」,了解"))
      (u "> 「了解。」と。 了解。以上。") = Ok out
    /\ stops_end_lines out.
Proof.
  apply (full_stops_end_lines (config_with_list (u "」,了解"))
           [u "」"; u "了解"]).
  - reflexivity.
  - vm_compute. discriminate.
Defined.

Lemma lead_blank_skipn (t : str) : lead_blank (skipn (lead_blank t) t) = O.
Proof.
  induction t as [|c t IH]; simpl; [reflexivity|].
  destruct (is_blank c) eqn:E; simpl; [assumption|]. rewrite E. reflexivity.
Qed.

Lemma lf_pair_cons c (s : str) :
  occurs [LF; LF] (c :: s) ->
  (c = LF /\ (1 <= lead_lf s)%nat) \/ occurs [LF; LF] s.
Proof.
  intros [a [b E]]. destruct a as [|d a]; simpl in E.
  - injection E as -> ->. left. split; [reflexivity|]. simpl. lia.
  - injection E as _ ->. right. exists a, b. reflexivity.
Qed.

Lemma blanks_to_newlines_lead (s : str) :
  lead_blank s = O -> lead_lf (blanks_to_newlines s) = O.
Proof.
  destruct s as [|c t]; [reflexivity|]. cbn [lead_blank].
  destruct (is_blank c) eqn:Hc; [discriminate|]. intros _.
  rewrite (blanks_to_newlines_miss _ _ Hc). simpl.
  destruct (is_lf c) eqn:E; [|reflexivity].
  apply N.eqb_eq in E. subst c. discriminate.
Qed.

Lemma blanks_to_newlines_no_blank_line (s : str) :
  ~ occurs [LF; LF] (blanks_to_newlines s).
Proof.
  induction s as [s IH] using length_ind. destruct s as [|c t].
  - intros [a [b E]]. destruct a; discriminate.
  - destruct (is_blank c) eqn:Hc.
    + rewrite (blanks_to_newlines_hit _ _ Hc). intros H.
      apply lf_pair_cons in H as [[_ H]|H].
      * rewrite (blanks_to_newlines_lead _ (lead_blank_skipn t)) in H. lia.
      * revert H. apply IH. rewrite length_skipn. simpl. lia.
    + rewrite (blanks_to_newlines_miss _ _ Hc). intros H.
      apply lf_pair_cons in H as [[-> _]|H]; [discriminate|].
      revert H. apply IH. simpl. lia.
Qed.

Lemma collapse_without_blank_line (s : str) :
  ~ occurs [LF; LF] s -> collapse_blank_lines s = s.
Proof.
  induction s as [|c t IH]; intros H; [reflexivity|].
  rewrite collapse_miss.
  - f_equal. apply IH. intros [a [b E]]. apply H.
    exists (c :: a), b. rewrite E. reflexivity.
  - destruct (Nat.leb_spec 3 (lead_lf (c :: t))) as [L|L]; [|assumption].
    exfalso. apply H. simpl in L.
    destruct (is_lf c) eqn:Ec; [|lia]. apply N.eqb_eq in Ec. subst c.
    destruct t as [|d t]; [simpl in L; lia|]. simpl in L.
    destruct (is_lf d) eqn:Ed; [|lia]. apply N.eqb_eq in Ed. subst d.
    exists [], t. reflexivity.
Qed.

(** X16.  With an empty keyword list the output for a text with a quote
    line has no blank line: no two line breaks follow each other. *)
Theorem no_blank_line_without_keywords cfg (text : str) :
  get_keywords cfg = Ok [] ->
  quoted_lines text <> [] ->
  exists out,
    clean_quoted_email cfg text = Ok out /\ ~ occurs [LF; LF] out.
Proof.
  intros Hk Hq.
  destruct (try_body_stages cfg [] text Hk Hq) as [out [E Ho]].
  exists out. split; [assumption|].
  destruct Ho as [[_ Ho]|Ho]; subst out.
  - intros [a [b Eab]]. destruct a; discriminate.
  - cbn [keyword_breaks fold_left].
    rewrite collapse_without_blank_line
      by apply blanks_to_newlines_no_blank_line.
    intros [a [b Eab]].
    apply (blanks_to_newlines_no_blank_line
             (sentence_breaks
                (join [SPACE] (cleaned_lines (quoted_lines text))))).
    destruct (strip_split
                (blanks_to_newlines
                   (sentence_breaks
                      (join [SPACE] (cleaned_lines (quoted_lines text))))))
      as [p [q [Es _]]].
    exists (p ++ a), (b ++ q). rewrite Es, Eab.
    repeat rewrite <- app_assoc. reflexivity.
Qed.

Lemma no_blank_line_without_keywords_witness :
  exists out,
    clean_quoted_email (config_with_list (u " , "))
      (u "> 了解です。  以上。" ++ [LF; LF; LF] ++ u ">" ++ [LF] ++ u "> 敬具")
    = Ok out
    /\ ~ occurs [LF; LF] out.
Proof.
  apply (no_blank_line_without_keywords (config_with_list (u " , "))).
  - reflexivity.
  - vm_compute. discriminate.
Defined.

(** *** An unquoted text, normalized twice *)

Lemma read_found (s : str) : read_from Found s = Found.
Proof. induction s as [|c s IH]; [reflexivity|exact IH]. Qed.

Lemma read_app st (a b : str) :
  read_from st (a ++ b) = read_from (read_from st a) b.
Proof. apply fold_left_app. Qed.

Lemma linebreak_is_space c : is_linebreak c = true -> is_space c = true.
Proof.
  unfold is_linebreak, is_space. intros H.
  repeat (apply orb_prop in H; destruct H as [H|H]);
    try (apply andb_prop in H; destruct H as [H1 H2];
         apply N.leb_le in H1; apply N.leb_le in H2);
    try (apply N.eqb_eq in H; subst c; reflexivity).
  - assert (E : ((9 <=? c) && (c <=? 13))%N = true).
    { apply andb_true_intro. split; apply N.leb_le; unfold char in *; lia. }
    rewrite E. reflexivity.
  - assert (E : ((28 <=? c) && (c <=? 32))%N = true).
    { apply andb_true_intro. split; apply N.leb_le; unfold char in *; lia. }
    rewrite E. rewrite orb_true_r. reflexivity.
Qed.

Lemma read_spaces (ws : str) :
  forallb is_space ws = true -> read_from Leading ws = Leading.
Proof.
  induction ws as [|c ws IH]; [reflexivity|]. simpl.
  intros H. apply andb_prop in H as [Hc Hws].
  unfold read_from in *. simpl.
  destruct (is_linebreak c); [auto|].
  destruct (N.eqb c GT) eqn:E.
  - apply N.eqb_eq in E. subst c. rewrite gt_not_space in Hc. discriminate.
  - rewrite Hc. auto.
Qed.

Lemma quote_line_read (line : str) :
  is_quote_line line -> read_from Leading line = Found.
Proof.
  intros [ws [rest [-> Hws]]].
  rewrite read_app, (read_spaces _ Hws).
  unfold read_from. simpl. apply read_found.
Qed.

Lemma read_dead (line : str) :
  forallb (fun c => negb (is_linebreak c)) line = true ->
  read_from Dead line = Dead.
Proof.
  induction line as [|c line IH]; [reflexivity|]. simpl.
  intros H. apply andb_prop in H as [Hc Hl].
  unfold read_from in *. simpl.
  destruct (is_linebreak c); [discriminate|auto].
Qed.

Lemma read_quote_line (line : str) :
  forallb (fun c => negb (is_linebreak c)) line = true ->
  read_from Leading line = Found -> is_quote_line line.
Proof.
  induction line as [|c line IH]; [discriminate|]. simpl.
  intros H. apply andb_prop in H as [Hc Hl].
  unfold read_from in *. simpl.
  destruct (is_linebreak c); [discriminate|].
  destruct (N.eqb c GT) eqn:E.
  - intros _. apply N.eqb_eq in E. subst c. exists [], line. auto.
  - destruct (is_space c) eqn:Hs.
    + intros Hr. destruct (IH Hl Hr) as [ws [rest [-> Hws]]].
      exists (c :: ws), rest. simpl. rewrite Hs, Hws. auto.
    + intros Hr. change (read_from Dead line = Found) in Hr.
      rewrite (read_dead _ Hl) in Hr. discriminate.
Qed.

Lemma cr_is_linebreak : is_linebreak CR = true.
Proof. reflexivity. Qed.

Lemma lf_is_linebreak : is_linebreak LF = true.
Proof. reflexivity. Qed.

Lemma step_linebreak st c :
  is_linebreak c = true ->
  step_state st c = match st with Found => Found | _ => Leading end.
Proof. intros H. destruct st; simpl; rewrite ?H; reflexivity. Qed.

(** The lines of [splitlines] hold no line break, and one of them is a
    quote line exactly when the reading of the text finds a marker. *)
Lemma splitlines_from_read (s : str) :
  forall cur,
    forallb (fun c => negb (is_linebreak c)) cur = true ->
    Forall (fun line =>
              forallb (fun c => negb (is_linebreak c)) line = true)
           (splitlines_from cur s)
    /\ ((exists line, In line (splitlines_from cur s)
                      /\ read_from Leading line = Found)
        <-> read_from (read_from Leading cur) s = Found).
Proof.
  induction s as [s IH] using length_ind. intros cur Hcur.
  assert (Hline :
    forall s' c, (length s' < length s)%nat -> is_linebreak c = true ->
      Forall (fun line =>
                forallb (fun c => negb (is_linebreak c)) line = true)
             (cur :: splitlines_from [] s')
      /\ ((exists line, In line (cur :: splitlines_from [] s')
                        /\ read_from Leading line = Found)
          <-> read_from (step_state (read_from Leading cur) c) s' = Found)).
  { intros s' c Hlen Hc. destruct (IH s' Hlen [] eq_refl) as [F I].
    split; [constructor; assumption|].
    rewrite (step_linebreak _ _ Hc). cbn [read_from fold_left] in I.
    split.
    - intros [line [[<-|Hin] Hr]].
      + rewrite Hr. apply read_found.
      + destruct (read_from Leading cur); try apply read_found;
          apply I; eauto.
    - destruct (read_from Leading cur) eqn:Ec; intros Hr.
      + apply I in Hr as [line [Hin Hl]]. exists line.
        split; [right; assumption|assumption].
      + apply I in Hr as [line [Hin Hl]]. exists line.
        split; [right; assumption|assumption].
      + exists cur. split; [left; reflexivity|assumption]. }
  destruct s as [|c s].
  - cbn [splitlines_from read_from fold_left]. destruct cur as [|d cur].
    + split; [constructor|]. split; [intros [line [[] _]]|discriminate].
    + split; [repeat constructor; assumption|]. split.
      * intros [line [[<-|[]] Hr]]. assumption.
      * intros Hr. eexists. split; [left; reflexivity|assumption].
  - cbn [splitlines_from].
    change (read_from (read_from Leading cur) (c :: s))
      with (read_from (step_state (read_from Leading cur) c) s).
    destruct (N.eqb c CR) eqn:Ecr.
    + apply N.eqb_eq in Ecr. subst c. destruct s as [|d s].
      * apply (Hline [] CR); [simpl; lia|reflexivity].
      * destruct (N.eqb d LF) eqn:Elf.
        -- apply N.eqb_eq in Elf. subst d.
           change (read_from (step_state (read_from Leading cur) CR)
                             (LF :: s))
             with (read_from
                     (step_state (step_state (read_from Leading cur) CR) LF)
                     s).
           replace (step_state (step_state (read_from Leading cur) CR) LF)
             with (step_state (read_from Leading cur) CR)
             by (destruct (read_from Leading cur); reflexivity).
           apply (Hline s CR); [simpl; lia|reflexivity].
        -- apply (Hline (d :: s) CR); [simpl; lia|reflexivity].
    + destruct (is_linebreak c) eqn:Eb.
      * apply (Hline s c); [simpl; lia|assumption].
      * assert (Hc' : forallb (fun c => negb (is_linebreak c)) (cur ++ [c])
                      = true).
        { rewrite forallb_app, Hcur. simpl. rewrite Eb. reflexivity. }
        destruct (IH s ltac:(simpl; lia) (cur ++ [c]) Hc') as [F I].
        split; [assumption|].
        rewrite read_app in I. exact I.
Qed.

Lemma quoted_lines_read (text : str) :
  quoted_lines text <> [] <-> read_from Leading text = Found.
Proof.
  destruct (splitlines_from_read text [] eq_refl) as [F I].
  fold (splitlines text) in F, I. cbn [read_from fold_left] in I.
  rewrite Forall_forall in F. unfold quoted_lines. split.
  - intros H. apply I.
    destruct (filter (re_match quote_re) (splitlines text)) as [|l ls] eqn:E;
      [congruence|].
    assert (Hin : In l (filter (re_match quote_re) (splitlines text)))
      by (rewrite E; left; reflexivity).
    apply filter_In in Hin as [Hin Hm]. exists l. split; [assumption|].
    apply quote_line_read, quote_re_spec. assumption.
  - intros H. apply I in H as [line [Hin Hr]].
    assert (Hq : In line (filter (re_match quote_re) (splitlines text))).
    { apply filter_In. split; [assumption|].
      apply quote_re_spec, read_quote_line; auto. }
    intros E. rewrite E in Hq. destruct Hq.
Qed.

Lemma read_strip (text : str) :
  read_from Leading (strip text) = Found -> read_from Leading text = Found.
Proof.
  intros H. destruct (strip_split text) as [p [q [E [Hp _]]]].
  rewrite E, read_app, (read_spaces _ Hp), read_app, H. apply read_found.
Qed.

Lemma lstrip_plain_head c (s : str) :
  is_space c = false -> lstrip (c :: s) = c :: s.
Proof. intros H. simpl. rewrite H. reflexivity. Qed.

Lemma strip_fixed (s : str) : trimmed s -> strip s = s.
Proof.
  intros [Hh Hl]. unfold strip.
  assert (E1 : lstrip s = s).
  { destruct s as [|c s]; [reflexivity|].
    apply lstrip_plain_head. eapply Hh. reflexivity. }
  rewrite E1. unfold rstrip.
  assert (E2 : lstrip (rev s) = rev s).
  { destruct (rev s) as [|c r] eqn:Er; [reflexivity|].
    apply lstrip_plain_head. apply (Hl c (rev r)).
    rewrite <- (rev_involutive s), Er. reflexivity. }
  rewrite E2. apply rev_involutive.
Qed.

(** X17.  For a text without quote lines one pass is enough: the output
    has no quote line either, and the normalizer returns it unchanged. *)
Theorem unquoted_text_settles cfg (text : str) :
  quoted_lines text = [] ->
  clean_quoted_email cfg text = Ok (strip text)
  /\ quoted_lines (strip text) = []
  /\ clean_quoted_email cfg (strip text) = Ok (strip text).
Proof.
  intros Hq.
  assert (Hs : quoted_lines (strip text) = []).
  { destruct (quoted_lines (strip text)) as [|l ls] eqn:E; [reflexivity|].
    exfalso.
    assert (H : quoted_lines (strip text) <> []) by (rewrite E; discriminate).
    apply quoted_lines_read, read_strip, quoted_lines_read in H.
    contradiction. }
  assert (G : forall t, quoted_lines t = [] ->
                        clean_quoted_email cfg t = Ok (strip t)).
  { intros t Ht. unfold clean_quoted_email, try_body. rewrite Ht.
    cbn [is_empty_list try_except]. destruct (strip t); reflexivity. }
  split; [apply G; assumption|]. split; [assumption|].
  rewrite (G _ Hs). rewrite (strip_fixed _ (trimmed_strip text)).
  reflexivity.
Qed.

Lemma unquoted_text_settles_witness :
  clean_quoted_email config_raising (u "  a > b" ++ [LF] ++ u "c  ")
  = Ok (u "a > b" ++ [LF] ++ u "c")
  /\ clean_quoted_email config_raising (u "a > b" ++ [LF] ++ u "c")
     = Ok (u "a > b" ++ [LF] ++ u "c").
Proof.
  destruct (unquoted_text_settles config_raising
              (u "  a > b" ++ [LF] ++ u "c  ")) as [H1 [_ H2]].
  - reflexivity.
  - split; [exact H1|exact H2].
Defined.

End Extras.

(** ** Lemmas on the batch driver *)
Module BatchFacts.

Import Py Re Config Cleaner Props Batch PyFacts ReFacts StageFacts.
Local Open Scope list_scope.

Lemma clean_returns cfg (text : str) :
  exists out, clean_quoted_email cfg text = Ok out.
Proof.
  unfold clean_quoted_email. destruct (is_empty (strip text)); [eauto|].
  destruct (try_body cfg text); cbn [try_except]; eauto.
Qed.

(** *** Relations kept along a method *)

Section Frame.

Variable R : state -> state -> Prop.
Hypothesis R_refl : forall st, R st st.
Hypothesis R_trans : forall a b c, R a b -> R b c -> R a c.

Lemma keeps_ret {A} (a : A) : keeps R (ret a).
Proof. intros st. apply R_refl. Qed.

Lemma keeps_lift {A} (r : Exc A) : keeps R (lift r).
Proof. intros st. apply R_refl. Qed.

Lemma keeps_bind {A B} (m : M A) (k : A -> M B) :
  keeps R m -> (forall a, keeps R (k a)) -> keeps R (mbind m k).
Proof.
  intros Hm Hk st. unfold mbind. specialize (Hm st).
  destruct (m st) as [[a|e] st1]; simpl in *; [|assumption].
  apply (R_trans _ _ _ Hm). apply Hk.
Qed.

Lemma keeps_try {A} (m handler : M A) :
  keeps R m -> keeps R handler -> keeps R (try_catch m handler).
Proof.
  intros Hm Hh st. unfold try_catch. specialize (Hm st).
  destruct (m st) as [[a|e] st1]; simpl in *; [assumption|].
  apply (R_trans _ _ _ Hm). apply Hh.
Qed.

Lemma keeps_for_each {A} (l : list A) (body : A -> M unit) :
  (forall x, keeps R (body x)) -> keeps R (for_each l body).
Proof.
  intros Hb. induction l as [|x l IH]; cbn [for_each].
  - apply keeps_ret.
  - apply keeps_bind; [apply Hb|intros _; assumption].
Qed.

Lemma keeps_if {A} (b : bool) (m1 m2 : M A) :
  keeps R m1 -> keeps R m2 -> keeps R (if b then m1 else m2).
Proof. destruct b; auto. Qed.

(** The same with what is known of the value passed on. *)
Lemma keeps_bind_post {A B} (Q : A -> Prop) (m : M A) (k : A -> M B) :
  keeps R m ->
  (forall st a st1, m st = (Ok a, st1) -> Q a) ->
  (forall a, Q a -> keeps R (k a)) ->
  keeps R (mbind m k).
Proof.
  intros Hm HQ Hk st. unfold mbind. specialize (Hm st).
  destruct (m st) as [[a|e] st1] eqn:E; simpl in *; [|assumption].
  apply (R_trans _ _ _ Hm). apply Hk. eapply HQ. eassumption.
Qed.

Lemma keeps_bind_lift {A B} (r : Exc A) (k : A -> M B) :
  (forall a, r = Ok a -> keeps R (k a)) -> keeps R (mbind (lift r) k).
Proof.
  intros Hk st. unfold mbind, lift. destruct r as [a|e]; simpl.
  - apply Hk. reflexivity.
  - apply R_refl.
Qed.

Lemma keeps_for_each_in {A} (l : list A) (body : A -> M unit) :
  (forall x, In x l -> keeps R (body x)) -> keeps R (for_each l body).
Proof.
  induction l as [|x l IH]; intros Hb; cbn [for_each].
  - apply keeps_ret.
  - apply keeps_bind; [apply Hb; left; reflexivity|intros _].
    apply IH. intros y Hy. apply Hb. right. assumption.
Qed.

End Frame.

Lemma same_counts_refl st : same_counts st st.
Proof. split; reflexivity. Qed.

Lemma same_counts_trans a b c :
  same_counts a b -> same_counts b c -> same_counts a c.
Proof. intros [H1 H2] [H3 H4]. split; congruence. Qed.

Lemma grew_by_refl P st : grew_by P st st.
Proof. exists []. rewrite app_nil_r. auto. Qed.

Lemma grew_by_trans P a b c :
  grew_by P a b -> grew_by P b c -> grew_by P a c.
Proof.
  intros [e1 [H1 F1]] [e2 [H2 F2]]. exists (e1 ++ e2). split.
  - rewrite H2, H1, app_assoc. reflexivity.
  - apply Forall_app. auto.
Qed.

Lemma quiet_while_zero_refl st : quiet_while_zero st st.
Proof. split; [lia|]. intros _. apply grew_by_refl. Qed.

Lemma quiet_while_zero_trans a b c :
  quiet_while_zero a b -> quiet_while_zero b c -> quiet_while_zero a c.
Proof.
  intros [L1 Q1] [L2 Q2]. split; [lia|]. intros Hc.
  apply (grew_by_trans quiet a b c); [apply Q1; lia|apply Q2; assumption].
Qed.

Lemma calm_refl st : calm st st.
Proof. split; [apply same_counts_refl|apply grew_by_refl]. Qed.

Lemma calm_trans a b c : calm a b -> calm b c -> calm a c.
Proof.
  intros [C1 G1] [C2 G2]. split.
  - eapply same_counts_trans; eassumption.
  - eapply grew_by_trans; eassumption.
Qed.

Lemma calm_quiet_while_zero {A} (m : M A) :
  keeps calm m -> keeps quiet_while_zero m.
Proof.
  intros H st. destruct (H st) as [[Hp _] Hg]. split; [lia|auto].
Qed.

Lemma quiet_not_unlink ev : quiet ev -> not_unlink ev.
Proof. destruct ev; simpl; auto. Qed.

Lemma calm_not_unlink {A} (m : M A) :
  keeps calm m -> keeps (grew_by not_unlink) m.
Proof.
  intros H st. destruct (H st) as [_ [evs [E F]]]. exists evs.
  split; [assumption|]. eapply Forall_impl; [|eassumption].
  apply quiet_not_unlink.
Qed.

Lemma call_calm {A} (answer : list event -> Exc A) ev :
  quiet ev -> keeps calm (call answer ev).
Proof.
  intros Hq st. split; [split; reflexivity|].
  exists [ev]. simpl. auto.
Qed.

Lemma call_same_counts {A} (answer : list event -> Exc A) ev :
  keeps same_counts (call answer ev).
Proof. intros st. split; reflexivity. Qed.

(** Goes through the binds, the handlers and the loops of a method. *)
Ltac frame R refl trans :=
  repeat match goal with
    | |- keeps _ (mbind _ _) => apply (keeps_bind R trans); [|intro]
    | |- keeps _ (try_catch _ _) => apply (keeps_try R trans)
    | |- keeps _ (for_each _ _) => apply (keeps_for_each R refl trans); intro
    | |- keeps _ (lift _) => apply (keeps_lift R refl)
    | |- keeps _ (ret _) => apply (keeps_ret R refl)
    | |- keeps _ (if _ then _ else _) => apply keeps_if
    end.

Section DriverFacts.

Variable w : World.
Variable cfg : EmailCleanerConfig.

Lemma create_directories_calm : keeps calm (create_directories w cfg).
Proof.
  unfold create_directories. frame calm calm_refl calm_trans;
    apply call_calm; exact I.
Qed.

Lemma find_text_files_calm : keeps calm (find_text_files w cfg).
Proof.
  unfold find_text_files. frame calm calm_refl calm_trans;
    apply call_calm; exact I.
Qed.

Lemma backup_original_files_calm (filenames : list str) :
  keeps calm (backup_original_files w cfg filenames).
Proof.
  unfold backup_original_files. frame calm calm_refl calm_trans;
    apply call_calm; exact I.
Qed.

Lemma delete_original_files_same_counts (filenames : list str) :
  keeps same_counts (delete_original_files w cfg filenames).
Proof.
  unfold delete_original_files.
  frame same_counts same_counts_refl same_counts_trans;
    apply call_same_counts.
Qed.

Lemma confirm_deletion_same_counts : keeps same_counts (confirm_deletion w).
Proof.
  intros st. unfold confirm_deletion.
  destruct (input w (trace st)); split; reflexivity.
Qed.

(** What one call of [process_single_file] does. *)
Lemma process_single_file_spec (filename : str) st :
  match process_single_file w cfg filename st with
  | (Ok true, st') =>
      processed_count st' = S (processed_count st)
      /\ error_count st' = error_count st
      /\ exists input_dir output_dir encoding raw_text cleaned_text,
          get_input_dir cfg = Ok input_dir
          /\ get_output_dir cfg = Ok output_dir
          /\ get_encoding cfg = Ok encoding
          /\ read_text w (trace st) (Join (Path input_dir) filename) encoding
             = Ok raw_text
          /\ clean_quoted_email cfg raw_text = Ok cleaned_text
          /\ write_text w
               (trace st ++ [ReadText (Join (Path input_dir) filename) encoding])
               (Join (Path output_dir) filename) encoding cleaned_text
             = Ok tt
          /\ trace st'
             = trace st
                 ++ [ReadText (Join (Path input_dir) filename) encoding;
                     WriteText (Join (Path output_dir) filename) encoding
                               cleaned_text]
  | (Ok false, st') =>
      processed_count st' = processed_count st
      /\ error_count st' = S (error_count st)
      /\ exists input_dir output_dir encoding,
          get_input_dir cfg = Ok input_dir
          /\ get_output_dir cfg = Ok output_dir
          /\ get_encoding cfg = Ok encoding
          /\ ((exists e,
                 read_text w (trace st) (Join (Path input_dir) filename)
                           encoding
                 = Raise e
                 /\ trace st'
                    = trace st
                        ++ [ReadText (Join (Path input_dir) filename)
                                     encoding])
              \/ (exists raw_text cleaned_text e,
                    read_text w (trace st) (Join (Path input_dir) filename)
                              encoding
                    = Ok raw_text
                    /\ clean_quoted_email cfg raw_text = Ok cleaned_text
                    /\ write_text w
                         (trace st
                            ++ [ReadText (Join (Path input_dir) filename)
                                         encoding])
                         (Join (Path output_dir) filename) encoding
                         cleaned_text
                       = Raise e
                    /\ trace st'
                       = trace st
                           ++ [ReadText (Join (Path input_dir) filename)
                                        encoding;
                               WriteText (Join (Path output_dir) filename)
                                         encoding cleaned_text]))
  | (Raise e, st') =>
      st' = st
      /\ (get_input_dir cfg = Raise e \/ get_output_dir cfg = Raise e
          \/ get_encoding cfg = Raise e)
  end.
Proof.
  unfold process_single_file, mbind, lift.
  destruct (get_input_dir cfg) as [i|e]; [|auto].
  destruct (get_output_dir cfg) as [o|e]; [|auto].
  destruct (get_encoding cfg) as [enc|e]; [|auto].
  unfold try_catch, mbind, call, lift, add_processed, add_error, ret.
  cbn [trace processed_count error_count].
  destruct (read_text w (trace st) (Join (Path i) filename) enc)
    as [raw|e] eqn:Er.
  2:{ cbn [trace processed_count error_count].
      split; [reflexivity|]. split; [reflexivity|].
      exists i, o, enc. repeat (split; [reflexivity|]).
      left. exists e. auto. }
  destruct (clean_returns cfg raw) as [cleaned Ec]. rewrite Ec.
  cbn [trace processed_count error_count].
  destruct (write_text w _ (Join (Path o) filename) enc cleaned)
    as [[]|e] eqn:Ew; cbn [trace processed_count error_count].
  - split; [reflexivity|]. split; [reflexivity|].
    exists i, o, enc, raw, cleaned. rewrite <- app_assoc. auto 10.
  - split; [reflexivity|]. split; [reflexivity|].
    exists i, o, enc. repeat (split; [reflexivity|]).
    right. exists raw, cleaned, e. rewrite <- app_assoc. auto 10.
Qed.

Lemma loop_counts (files : list str) :
  forall st st',
    for_each files (fun filename =>
                      process_single_file w cfg filename ;;; ret tt) st
    = (Ok tt, st') ->
    (processed_count st' + error_count st'
     = processed_count st + error_count st + length files)%nat.
Proof.
  induction files as [|f files IH]; intros st st' H.
  - injection H as <-. simpl. lia.
  - cbn [for_each] in H. unfold mbind at 1 2 in H.
    pose proof (process_single_file_spec f st) as Hs.
    destruct (process_single_file w cfg f st) as [[b|e] st1];
      [|discriminate].
    cbn [ret] in H. apply IH in H. simpl.
    destruct b; destruct Hs as [Hp [He _]]; lia.
Qed.

Lemma loop_raises (files : list str) :
  forall st st' e,
    for_each files (fun filename =>
                      process_single_file w cfg filename ;;; ret tt) st
    = (Raise e, st') ->
    get_input_dir cfg = Raise e \/ get_output_dir cfg = Raise e
    \/ get_encoding cfg = Raise e.
Proof.
  induction files as [|f files IH]; intros st st' e H.
  - discriminate.
  - cbn [for_each] in H. unfold mbind at 1 2 in H.
    pose proof (process_single_file_spec f st) as Hs.
    destruct (process_single_file w cfg f st) as [[b|e1] st1].
    + cbn [ret] in H. eapply IH. eassumption.
    + injection H as <- _. apply Hs.
Qed.

Lemma add_processed_quiet_while_zero : keeps quiet_while_zero add_processed.
Proof. intros st. split; simpl; [lia|discriminate]. Qed.

Lemma add_error_quiet_while_zero : keeps quiet_while_zero add_error.
Proof.
  intros st. split; simpl; [lia|]. intros _.
  exists []. simpl. rewrite app_nil_r. auto.
Qed.

Lemma process_single_file_quiet_while_zero (filename : str) :
  keeps quiet_while_zero (process_single_file w cfg filename).
Proof.
  unfold process_single_file.
  frame quiet_while_zero quiet_while_zero_refl quiet_while_zero_trans;
    first [ apply add_processed_quiet_while_zero
          | apply add_error_quiet_while_zero
          | apply calm_quiet_while_zero, call_calm; exact I ].
Qed.

Lemma call_grew_by P {A} (answer : list event -> Exc A) ev :
  P ev -> keeps (grew_by P) (call answer ev).
Proof. intros H st. exists [ev]. simpl. auto. Qed.

Lemma same_trace_grew_by P {A} (m : M A) :
  (forall st, trace (snd (m st)) = trace st) -> keeps (grew_by P) m.
Proof. intros H st. exists []. rewrite app_nil_r. auto. Qed.

Lemma process_single_file_not_unlink (filename : str) :
  keeps (grew_by not_unlink) (process_single_file w cfg filename).
Proof.
  unfold process_single_file.
  frame (grew_by not_unlink) (grew_by_refl not_unlink)
        (grew_by_trans not_unlink);
    first [ apply call_grew_by; exact I
          | apply same_trace_grew_by; reflexivity ].
Qed.

Lemma counts_keeps R : (forall st, R st st) -> keeps R counts.
Proof. intros H st. apply H. Qed.

Lemma delete_if_confirmed_same_counts (files : list str) :
  keeps same_counts (delete_if_confirmed w cfg files).
Proof.
  intros st. unfold delete_if_confirmed.
  destruct (0 <? processed_count st)%nat; [|apply same_counts_refl].
  revert st.
  change (keeps same_counts
            (confirmed <~ confirm_deletion w ;;
             if confirmed
             then delete_original_files w cfg files ;;; ret tt
             else ret tt)).
  frame same_counts same_counts_refl same_counts_trans;
    first [ apply confirm_deletion_same_counts
          | apply delete_original_files_same_counts ].
Qed.

Lemma delete_if_confirmed_quiet_while_zero (files : list str) :
  keeps quiet_while_zero (delete_if_confirmed w cfg files).
Proof.
  intros st. pose proof (delete_if_confirmed_same_counts files st) as [Hp _].
  unfold delete_if_confirmed in *.
  destruct (0 <? processed_count st)%nat eqn:E;
    [|apply quiet_while_zero_refl].
  apply Nat.ltb_lt in E. split; lia.
Qed.

(** Without an accepted answer nothing is unlinked. *)
Lemma delete_if_confirmed_not_unlink (files : list str) :
  (forall tr line, input w tr = Answer line -> accepted w line = false) ->
  keeps (grew_by not_unlink) (delete_if_confirmed w cfg files).
Proof.
  intros Hno st. unfold delete_if_confirmed.
  destruct (0 <? processed_count st)%nat; [|apply grew_by_refl].
  unfold mbind, confirm_deletion.
  destruct (input w (trace st)) as [line| | |e] eqn:Ei;
    try rewrite (Hno _ _ Ei); cbn [ret snd];
    exists [Input]; simpl; (split; [reflexivity|repeat constructor]).
Qed.

(** The part of [process_all_files] behind the reset of the counters. *)
Lemma rest_quiet_while_zero st :
  quiet_while_zero (snd (reset_counts st)) (snd (process_all_files w cfg st)).
Proof.
  unfold process_all_files.
  match goal with
  | |- context [mbind reset_counts ?k] =>
      assert (K : keeps quiet_while_zero (k tt))
  end.
  { cbv beta.
    frame quiet_while_zero quiet_while_zero_refl quiet_while_zero_trans;
      first [ apply calm_quiet_while_zero, create_directories_calm
            | apply calm_quiet_while_zero, find_text_files_calm
            | apply calm_quiet_while_zero, backup_original_files_calm
            | apply counts_keeps, quiet_while_zero_refl
            | apply process_single_file_quiet_while_zero
            | apply delete_if_confirmed_quiet_while_zero ]. }
  unfold mbind at 1. cbn [reset_counts]. apply K.
Qed.

Lemma process_all_files_not_unlink :
  (forall tr line, input w tr = Answer line -> accepted w line = false) ->
  keeps (grew_by not_unlink) (process_all_files w cfg).
Proof.
  intros Hno. unfold process_all_files.
  frame (grew_by not_unlink) (grew_by_refl not_unlink)
        (grew_by_trans not_unlink);
    first [ apply same_trace_grew_by; reflexivity
          | apply calm_not_unlink, create_directories_calm
          | apply calm_not_unlink, find_text_files_calm
          | apply calm_not_unlink, backup_original_files_calm
          | apply process_single_file_not_unlink
          | apply delete_if_confirmed_not_unlink; assumption ].
Qed.

Lemma mbind_ok {A B} (m : M A) (k : A -> M B) st r st' :
  mbind m k st = (Ok r, st') ->
  exists a st1, m st = (Ok a, st1) /\ k a st1 = (Ok r, st').
Proof.
  unfold mbind. destruct (m st) as [[a|e] st1]; [eauto|discriminate].
Qed.

Lemma mbind_raise {A B} (m : M A) (k : A -> M B) st e st' :
  mbind m k st = (Raise e, st') ->
  m st = (Raise e, st')
  \/ exists a st1, m st = (Ok a, st1) /\ k a st1 = (Raise e, st').
Proof.
  unfold mbind. destruct (m st) as [[a|e1] st1]; [eauto|].
  intros H. injection H as -> ->. auto.
Qed.

Lemma try_catch_ok {A} (m : M A) (a : A) st :
  exists r st', try_catch m (ret a) st = (Ok r, st').
Proof.
  unfold try_catch, ret. destruct (m st) as [[r|e] st1]; eauto.
Qed.

Lemma backup_block_calm (b : bool) (files : list str) :
  keeps calm (if b then backup_original_files w cfg files ;;; ret tt
              else ret tt).
Proof.
  frame calm calm_refl calm_trans. apply backup_original_files_calm.
Qed.

(** The counts [process_all_files] returns. *)
Lemma process_all_files_counts st p e st' :
  process_all_files w cfg st = (Ok (p, e), st') ->
  p = processed_count st' /\ e = error_count st'
  /\ exists created st1,
      create_directories w cfg (snd (reset_counts st)) = (Ok created, st1)
      /\ if created
         then exists files st2,
             find_text_files w cfg st1 = (Ok files, st2)
             /\ (p + e = length files)%nat
         else p = O /\ e = O.
Proof.
  intros H. unfold process_all_files in H.
  apply mbind_ok in H as [[] [st0 [E0 H]]].
  assert (Es : st0 = snd (reset_counts st)) by (rewrite E0; reflexivity).
  assert (Z0 : processed_count st0 = O /\ error_count st0 = O).
  { injection E0 as <-. auto. }
  subst st0. set (st0 := snd (reset_counts st)) in *.
  apply mbind_ok in H as [created [st1 [E1 H]]].
  pose proof (create_directories_calm st0) as [C1 _].
  rewrite E1 in C1. destruct C1 as [C1p C1e]. cbn [snd] in *.
  destruct created; cbn [negb] in H.
  - apply mbind_ok in H as [files [st2 [E2 H]]].
    pose proof (find_text_files_calm st1) as [C2 _].
    rewrite E2 in C2. destruct C2 as [C2p C2e]. cbn [snd] in *.
    destruct files as [|f fs]; cbn [is_empty_list] in H.
    + injection H as <- <- <-. split; [reflexivity|]. split; [reflexivity|].
      exists true, st1. split; [assumption|]. exists [], st2.
      split; [assumption|]. simpl. lia.
    + apply mbind_ok in H as [b [st2' [Eb H]]].
      unfold lift in Eb. injection Eb as Eb <-.
      apply mbind_ok in H as [[] [st3 [E3 H]]].
      pose proof (backup_block_calm b (f :: fs) st2) as [C3 _].
      rewrite E3 in C3. destruct C3 as [C3p C3e]. cbn [snd] in *.
      apply mbind_ok in H as [[] [st4 [E4 H]]].
      apply loop_counts in E4.
      apply mbind_ok in H as [[] [st5 [E5 H]]].
      pose proof (delete_if_confirmed_same_counts (f :: fs) st4) as C5.
      rewrite E5 in C5. destruct C5 as [C5p C5e]. cbn [snd] in *.
      injection H as <- <- <-. split; [reflexivity|]. split; [reflexivity|].
      exists true, st1. split; [assumption|]. exists (f :: fs), st2.
      split; [assumption|]. destruct Z0. lia.
  - injection H as <- <- <-. split; [reflexivity|]. split; [reflexivity|].
    exists false, st1. split; [assumption|]. destruct Z0. lia.
Qed.

Lemma create_directories_true st st' :
  create_directories w cfg st = (Ok true, st') ->
  (exists d, get_input_dir cfg = Ok d) /\ (exists d, get_output_dir cfg = Ok d).
Proof.
  unfold create_directories, try_catch, mbind, lift, call, ret.
  destruct (get_input_dir cfg) as [i|e]; [|discriminate].
  destruct (get_output_dir cfg) as [o|e]; [|discriminate]. eauto.
Qed.

Lemma confirm_deletion_raises st e st' :
  confirm_deletion w st = (Raise e, st') ->
  input w (trace st) = InputError e.
Proof.
  unfold confirm_deletion.
  destruct (input w (trace st)); try discriminate.
  intros H. injection H as -> _. reflexivity.
Qed.

(** The exceptions that leave [process_all_files]. *)
Lemma process_all_files_raises st e st' :
  process_all_files w cfg st = (Raise e, st') ->
  should_backup w = Raise e \/ get_encoding cfg = Raise e
  \/ exists tr, input w tr = InputError e.
Proof.
  intros H. unfold process_all_files in H.
  apply mbind_raise in H as [H|[[] [st0 [_ H]]]]; [discriminate|].
  apply mbind_raise in H as [H|[created [st1 [E1 H]]]].
  { destruct (try_catch_ok
                (input_dir <~ lift (get_input_dir cfg) ;;
                 output_dir <~ lift (get_output_dir cfg) ;;
                 call (fun tr => mkdir w tr (Path input_dir))
                      (Mkdir (Path input_dir)) ;;;
                 call (fun tr => mkdir w tr (Path output_dir))
                      (Mkdir (Path output_dir)) ;;;
                 ret true) false st0) as [r [s E]].
    unfold create_directories in H. rewrite E in H. discriminate. }
  destruct created; cbn [negb] in H; [|discriminate].
  apply create_directories_true in E1 as [[i Ei] [o Eo]].
  apply mbind_raise in H as [H|[files [st2 [_ H]]]].
  { destruct (try_catch_ok
                (input_dir <~ lift (get_input_dir cfg) ;;
                 entries <~ call (fun tr => iterdir w tr (Path input_dir))
                                 (Iterdir (Path input_dir)) ;;
                 ret (map fst
                        (filter (fun f => snd f && has_txt_suffix w (fst f))
                                entries))) [] st1) as [r [s E]].
    unfold find_text_files in H. rewrite E in H. discriminate. }
  destruct (is_empty_list files); [discriminate|].
  apply mbind_raise in H as [H|[b [st2' [Eb H]]]].
  { unfold lift in H. injection H as H _. auto. }
  unfold lift in Eb. injection Eb as Eb <-.
  apply mbind_raise in H as [H|[[] [st3 [_ H]]]].
  { destruct b; [|discriminate].
    apply mbind_raise in H as [H|[a [s [_ H]]]]; [|discriminate].
    unfold backup_original_files in H.
    apply mbind_raise in H as [H|[b' [s [Eb' H]]]].
    - unfold lift in H. injection H as H _. auto.
    - destruct (negb b'); [discriminate|].
      match type of H with
      | try_catch ?m _ _ = _ =>
          destruct (try_catch_ok m false s) as [r [s' E]]
      end.
      rewrite E in H. discriminate. }
  apply mbind_raise in H as [H|[[] [st4 [_ H]]]].
  { apply loop_raises in H as [H|[H|H]]; [congruence|congruence|auto]. }
  apply mbind_raise in H as [H|[[] [st5 [_ H]]]]; [|discriminate].
  unfold delete_if_confirmed in H.
  destruct (0 <? processed_count st4)%nat; [|discriminate].
  apply mbind_raise in H as [H|[c [s [_ H]]]].
  - apply confirm_deletion_raises in H. eauto.
  - destruct c; [|discriminate].
    apply mbind_raise in H as [H|[a [s' [_ H]]]]; [|discriminate].
    unfold delete_original_files in H.
    match type of H with
    | try_catch ?m _ _ = _ =>
        destruct (try_catch_ok m false s) as [r [s'' E]]
    end.
    rewrite E in H. discriminate.
Qed.

(** *** Where the driver writes, copies and deletes *)

Lemma call_in_place {A} (answer : list event -> Exc A) ev :
  in_place w cfg ev -> keeps (grew_by (in_place w cfg)) (call answer ev).
Proof. apply call_grew_by. Qed.

Lemma find_text_files_txt st files st' :
  find_text_files w cfg st = (Ok files, st') ->
  Forall (fun name => has_txt_suffix w name = true) files.
Proof.
  unfold find_text_files, try_catch, mbind, lift, call, ret.
  destruct (get_input_dir cfg) as [i|e].
  - destruct (iterdir w (trace st) (Path i)) as [entries|e];
      intros H; injection H as <- _; [|constructor].
    apply Forall_forall. intros name Hn.
    apply in_map_iff in Hn as [f [<- Hf]].
    apply filter_In in Hf as [_ Hf]. apply andb_prop in Hf. apply Hf.
  - intros H. injection H as <- _. constructor.
Qed.

Lemma process_single_file_in_place (filename : str) :
  has_txt_suffix w filename = true ->
  keeps (grew_by (in_place w cfg)) (process_single_file w cfg filename).
Proof.
  intros Ht st. unfold process_single_file, mbind, lift.
  destruct (get_input_dir cfg) as [i|e]; [|apply grew_by_refl].
  destruct (get_output_dir cfg) as [o|e] eqn:Eo; [|apply grew_by_refl].
  destruct (get_encoding cfg) as [enc|e]; [|apply grew_by_refl].
  unfold try_catch, mbind, call, lift, add_processed, add_error, ret.
  cbn [trace processed_count error_count].
  destruct (read_text w (trace st) (Join (Path i) filename) enc)
    as [raw|e].
  - destruct (clean_returns cfg raw) as [cleaned Ec]. rewrite Ec.
    cbn [trace processed_count error_count].
    assert (Hw : in_place w cfg
                   (WriteText (Join (Path o) filename) enc cleaned)).
    { exists o, filename, raw. auto. }
    destruct (write_text w _ (Join (Path o) filename) enc cleaned)
      as [[]|e]; cbn [trace processed_count error_count snd];
      exists [ReadText (Join (Path i) filename) enc;
              WriteText (Join (Path o) filename) enc cleaned];
      (split; [cbn [trace]; rewrite <- app_assoc; reflexivity|]);
      repeat constructor; assumption.
  - cbn [snd]. exists [ReadText (Join (Path i) filename) enc].
    split; [reflexivity|]. repeat constructor.
Qed.

Lemma backup_original_files_in_place (files : list str) :
  Forall (fun name => has_txt_suffix w name = true) files ->
  keeps (grew_by (in_place w cfg)) (backup_original_files w cfg files).
Proof.
  intros Hf. unfold backup_original_files.
  apply (keeps_bind _ (grew_by_trans _));
    [apply (keeps_lift _ (grew_by_refl _))|intros backup].
  apply keeps_if; [apply (keeps_ret _ (grew_by_refl _))|].
  apply (keeps_try _ (grew_by_trans _));
    [|apply (keeps_ret _ (grew_by_refl _))].
  apply (keeps_bind_lift _ (grew_by_refl _)). intros i Hi.
  apply (keeps_bind _ (grew_by_trans _));
    [apply call_in_place; exact I|intros _].
  apply (keeps_bind _ (grew_by_trans _));
    [|intros _; apply (keeps_ret _ (grew_by_refl _))].
  apply (keeps_for_each_in _ (grew_by_refl _) (grew_by_trans _)).
  intros filename Hin.
  apply (keeps_bind_lift _ (grew_by_refl _)). intros d Hd.
  apply call_in_place. rewrite Hi in Hd. injection Hd as <-.
  exists i, filename. rewrite Forall_forall in Hf. auto.
Qed.

Lemma delete_original_files_in_place (files : list str) :
  Forall (fun name => has_txt_suffix w name = true) files ->
  keeps (grew_by (in_place w cfg)) (delete_original_files w cfg files).
Proof.
  intros Hf. unfold delete_original_files.
  apply (keeps_try _ (grew_by_trans _));
    [|apply (keeps_ret _ (grew_by_refl _))].
  apply (keeps_bind_lift _ (grew_by_refl _)). intros i Hi.
  apply (keeps_bind _ (grew_by_trans _));
    [|intros _; apply (keeps_ret _ (grew_by_refl _))].
  apply (keeps_for_each_in _ (grew_by_refl _) (grew_by_trans _)).
  intros filename Hin.
  apply (keeps_bind _ (grew_by_trans _));
    [apply call_in_place; exact I|intros present].
  apply keeps_if; [|apply (keeps_ret _ (grew_by_refl _))].
  apply call_in_place. exists i, filename.
  rewrite Forall_forall in Hf. auto.
Qed.

Lemma delete_if_confirmed_in_place (files : list str) :
  Forall (fun name => has_txt_suffix w name = true) files ->
  keeps (grew_by (in_place w cfg)) (delete_if_confirmed w cfg files).
Proof.
  intros Hf st. unfold delete_if_confirmed.
  destruct (0 <? processed_count st)%nat; [|apply grew_by_refl].
  revert st.
  change (keeps (grew_by (in_place w cfg))
            (confirmed <~ confirm_deletion w ;;
             if confirmed
             then delete_original_files w cfg files ;;; ret tt
             else ret tt)).
  apply (keeps_bind _ (grew_by_trans _)).
  - intros st. unfold confirm_deletion.
    destruct (input w (trace st)); exists [Input];
      (split; [reflexivity|repeat constructor]).
  - intros confirmed. apply keeps_if;
      [|apply (keeps_ret _ (grew_by_refl _))].
    apply (keeps_bind _ (grew_by_trans _));
      [|intros _; apply (keeps_ret _ (grew_by_refl _))].
    apply delete_original_files_in_place. assumption.
Qed.

Lemma create_directories_in_place :
  keeps (grew_by (in_place w cfg)) (create_directories w cfg).
Proof.
  unfold create_directories.
  frame (grew_by (in_place w cfg)) (grew_by_refl (in_place w cfg))
        (grew_by_trans (in_place w cfg));
    apply call_in_place; exact I.
Qed.

Lemma find_text_files_in_place :
  keeps (grew_by (in_place w cfg)) (find_text_files w cfg).
Proof.
  unfold find_text_files.
  frame (grew_by (in_place w cfg)) (grew_by_refl (in_place w cfg))
        (grew_by_trans (in_place w cfg));
    apply call_in_place; exact I.
Qed.

Lemma process_all_files_in_place :
  keeps (grew_by (in_place w cfg)) (process_all_files w cfg).
Proof.
  unfold process_all_files.
  apply (keeps_bind _ (grew_by_trans _));
    [apply same_trace_grew_by; reflexivity|intros _].
  apply (keeps_bind _ (grew_by_trans _));
    [apply create_directories_in_place|intros created].
  apply keeps_if; [apply counts_keeps, grew_by_refl|].
  apply (keeps_bind_post _ (grew_by_trans _)
           (Forall (fun name => has_txt_suffix w name = true)));
    [apply find_text_files_in_place|apply find_text_files_txt|].
  intros files Hf.
  apply keeps_if; [apply counts_keeps, grew_by_refl|].
  apply (keeps_bind _ (grew_by_trans _));
    [apply (keeps_lift _ (grew_by_refl _))|intros backup].
  apply (keeps_bind _ (grew_by_trans _)).
  { apply keeps_if; [|apply (keeps_ret _ (grew_by_refl _))].
    apply (keeps_bind _ (grew_by_trans _));
      [|intros _; apply (keeps_ret _ (grew_by_refl _))].
    apply backup_original_files_in_place. assumption. }
  intros _. apply (keeps_bind _ (grew_by_trans _)).
  { apply (keeps_for_each_in _ (grew_by_refl _) (grew_by_trans _)).
    intros filename Hin.
    apply (keeps_bind _ (grew_by_trans _));
      [|intros _; apply (keeps_ret _ (grew_by_refl _))].
    apply process_single_file_in_place.
    rewrite Forall_forall in Hf. auto. }
  intros _. apply (keeps_bind _ (grew_by_trans _));
    [|intros _; apply counts_keeps, grew_by_refl].
  apply delete_if_confirmed_in_place. assumption.
Qed.

(** *** The order of the calls *)

Lemma sorted_app (l1 l2 : list event) :
  StronglySorted phase_le l1 -> StronglySorted phase_le l2 ->
  (forall x y, In x l1 -> In y l2 -> phase_le x y) ->
  StronglySorted phase_le (l1 ++ l2).
Proof.
  intros H1 H2 H. induction H1 as [|x l1 Hs IH Hx]; [assumption|].
  simpl. constructor.
  - apply IH. intros a b Ha Hb. apply H; [right|]; assumption.
  - apply Forall_app. split; [assumption|].
    apply Forall_forall. intros y Hy. apply H; [left; reflexivity|assumption].
Qed.

Lemma in_order_refl lo hi st : in_order lo hi st st.
Proof.
  exists []. rewrite app_nil_r. repeat split; constructor.
Qed.

Lemma in_order_seq a1 b1 a2 c2 lo hi st st1 st2 :
  (lo <= a1)%nat -> (b1 <= a2)%nat -> (c2 <= hi)%nat ->
  (b1 <= hi)%nat -> (lo <= a2)%nat ->
  in_order a1 b1 st st1 -> in_order a2 c2 st1 st2 ->
  in_order lo hi st st2.
Proof.
  intros L1 L2 L3 L4 L5 [e1 [E1 [B1 S1]]] [e2 [E2 [B2 S2]]].
  rewrite Forall_forall in B1, B2.
  exists (e1 ++ e2). split; [rewrite E2, E1, app_assoc; reflexivity|]. split.
  - apply Forall_forall. intros ev Hev.
    apply in_app_or in Hev as [Hev|Hev];
      [apply B1 in Hev|apply B2 in Hev]; lia.
  - apply sorted_app; [assumption|assumption|].
    intros x y Hx Hy. apply B1 in Hx. apply B2 in Hy.
    unfold phase_le. lia.
Qed.

Lemma in_order_trans b x y z :
  in_order b b x y -> in_order b b y z -> in_order b b x z.
Proof. apply in_order_seq; lia. Qed.

Lemma keeps_bind_seq {A B} a1 b1 a2 c2 lo hi (m : M A) (k : A -> M B) :
  (lo <= a1)%nat -> (b1 <= a2)%nat -> (c2 <= hi)%nat ->
  (b1 <= hi)%nat -> (lo <= a2)%nat -> (a2 <= c2)%nat ->
  keeps (in_order a1 b1) m ->
  (forall x, keeps (in_order a2 c2) (k x)) ->
  keeps (in_order lo hi) (mbind m k).
Proof.
  intros L1 L2 L3 L4 L5 L6 Hm Hk st. unfold mbind. specialize (Hm st).
  destruct (m st) as [[x|e] st1]; cbn [snd] in *.
  - apply (in_order_seq a1 b1 a2 c2 lo hi st st1); try assumption.
    apply Hk.
  - apply (in_order_seq a1 b1 a2 a2 lo hi st st1 st1); try assumption;
      [lia|apply in_order_refl].
Qed.

Lemma call_in_order {A} (answer : list event -> Exc A) ev :
  keeps (in_order (phase ev) (phase ev)) (call answer ev).
Proof.
  intros st. exists [ev]. split; [reflexivity|]. split.
  - repeat constructor.
  - repeat constructor.
Qed.

Lemma same_trace_in_order lo hi {A} (m : M A) :
  (forall st, trace (snd (m st)) = trace st) -> keeps (in_order lo hi) m.
Proof.
  intros H st. exists []. rewrite app_nil_r. split; [apply H|].
  split; constructor.
Qed.

Lemma create_directories_in_order :
  keeps (in_order 0 0) (create_directories w cfg).
Proof.
  unfold create_directories.
  frame (in_order 0 0) (in_order_refl 0 0) (in_order_trans 0);
    apply (call_in_order _ (Mkdir _)).
Qed.

Lemma find_text_files_in_order :
  keeps (in_order 0 0) (find_text_files w cfg).
Proof.
  unfold find_text_files.
  frame (in_order 0 0) (in_order_refl 0 0) (in_order_trans 0);
    apply (call_in_order _ (Iterdir _)).
Qed.

Lemma backup_original_files_in_order (files : list str) :
  keeps (in_order 0 0) (backup_original_files w cfg files).
Proof.
  unfold backup_original_files.
  frame (in_order 0 0) (in_order_refl 0 0) (in_order_trans 0);
    first [ apply (call_in_order _ (Mkdir _))
          | apply (call_in_order _ (Copy2 _ _)) ].
Qed.

Lemma process_single_file_in_order (filename : str) :
  keeps (in_order 1 1) (process_single_file w cfg filename).
Proof.
  unfold process_single_file.
  frame (in_order 1 1) (in_order_refl 1 1) (in_order_trans 1);
    first [ apply (call_in_order _ (ReadText _ _))
          | apply (call_in_order _ (WriteText _ _ _))
          | apply same_trace_in_order; reflexivity ].
Qed.

Lemma delete_original_files_in_order (files : list str) :
  keeps (in_order 3 3) (delete_original_files w cfg files).
Proof.
  unfold delete_original_files.
  frame (in_order 3 3) (in_order_refl 3 3) (in_order_trans 3);
    first [ apply (call_in_order _ (Exists _))
          | apply (call_in_order _ (Unlink _)) ].
Qed.

Lemma confirm_deletion_in_order : keeps (in_order 2 2) (confirm_deletion w).
Proof.
  intros st. unfold confirm_deletion.
  destruct (input w (trace st)); exists [Input];
    (split; [reflexivity|]); split; repeat constructor.
Qed.

Lemma delete_if_confirmed_in_order (files : list str) :
  keeps (in_order 2 3) (delete_if_confirmed w cfg files).
Proof.
  intros st. unfold delete_if_confirmed.
  destruct (0 <? processed_count st)%nat; [|apply in_order_refl].
  revert st.
  change (keeps (in_order 2 3)
            (confirmed <~ confirm_deletion w ;;
             if confirmed
             then delete_original_files w cfg files ;;; ret tt
             else ret tt)).
  apply (keeps_bind_seq 2 2 3 3); try lia;
    [apply confirm_deletion_in_order|intros confirmed].
  apply keeps_if; [|intros st; apply in_order_refl].
  apply (keeps_bind_seq 3 3 3 3); try lia;
    [apply delete_original_files_in_order|].
  intros _ st. apply in_order_refl.
Qed.

Lemma process_all_files_in_order :
  keeps (in_order 0 3) (process_all_files w cfg).
Proof.
  unfold process_all_files.
  apply (keeps_bind_seq 0 0 0 3); try lia;
    [apply same_trace_in_order; reflexivity|intros _].
  apply (keeps_bind_seq 0 0 0 3); try lia;
    [apply create_directories_in_order|intros created].
  apply keeps_if; [intros st; apply in_order_refl|].
  apply (keeps_bind_seq 0 0 0 3); try lia;
    [apply find_text_files_in_order|intros files].
  apply keeps_if; [intros st; apply in_order_refl|].
  apply (keeps_bind_seq 0 0 0 3); try lia;
    [intros st; apply in_order_refl|intros backup].
  apply (keeps_bind_seq 0 0 1 3); try lia.
  { apply keeps_if; [|intros st; apply in_order_refl].
    apply (keeps_bind_seq 0 0 0 0); try lia;
      [apply backup_original_files_in_order|].
    intros _ st. apply in_order_refl. }
  intros _. apply (keeps_bind_seq 1 1 2 3); try lia.
  { apply (keeps_for_each _ (in_order_refl 1 1) (in_order_trans 1)).
    intros filename.
    apply (keeps_bind_seq 1 1 1 1); try lia;
      [apply process_single_file_in_order|].
    intros _ st. apply in_order_refl. }
  intros _. apply (keeps_bind_seq 2 3 3 3); try lia;
    [apply delete_if_confirmed_in_order|].
  intros _ st. apply in_order_refl.
Qed.

Lemma backup_original_files_raises (files : list str) st e st' :
  backup_original_files w cfg files st = (Raise e, st') ->
  should_backup w = Raise e /\ st' = st.
Proof.
  unfold backup_original_files. intros H.
  apply mbind_raise in H as [H|[b [s [Eb H]]]].
  - unfold lift in H. injection H as -> ->. auto.
  - destruct (negb b); [discriminate|].
    match type of H with
    | try_catch ?m _ _ = _ => destruct (try_catch_ok m false s) as [r [s' E]]
    end.
    rewrite E in H. discriminate.
Qed.

(** *** What the helpers return *)

Lemma none_raised_app tr (a b : list event) :
  none_raised w tr (a ++ b)
  = none_raised w tr a && none_raised w (tr ++ a) b.
Proof.
  revert tr. induction a as [|ev a IH]; intros tr.
  - simpl. rewrite app_nil_r. reflexivity.
  - cbn [app none_raised]. rewrite IH, <- app_assoc, andb_assoc.
    reflexivity.
Qed.

Lemma last_raised_app tr (a b : list event) :
  none_raised w tr a = true ->
  last_raised w (tr ++ a) b = true ->
  last_raised w tr (a ++ b) = true.
Proof.
  revert tr. induction a as [|ev a IH]; intros tr Ha Hb.
  - simpl in *. rewrite app_nil_r in Hb. assumption.
  - cbn [none_raised] in Ha. apply andb_prop in Ha as [Hev Ha].
    change (ev :: a) with ([ev] ++ a) in Hb. rewrite app_assoc in Hb.
    specialize (IH _ Ha Hb).
    cbn [app last_raised]. destruct (a ++ b) as [|x l] eqn:E.
    + simpl in IH. discriminate.
    + rewrite Hev, IH. reflexivity.
Qed.

Lemma last_raised_not_none tr (evs : list event) :
  last_raised w tr evs = true -> none_raised w tr evs = false.
Proof.
  revert tr. induction evs as [|ev evs IH]; intros tr H.
  - discriminate.
  - cbn [last_raised] in H. cbn [none_raised]. destruct evs as [|x l].
    + rewrite H. reflexivity.
    + apply andb_prop in H as [_ H]. rewrite (IH _ H).
      apply andb_false_r.
Qed.

Lemma tracked_ret {A} (Q : A -> Prop) (a : A) : Q a -> tracked w Q (ret a).
Proof.
  intros H st. exists []. simpl. rewrite app_nil_r. auto.
Qed.

Lemma tracked_lift_ok {A} (Q : A -> Prop) (a : A) :
  Q a -> tracked w Q (lift (Ok a)).
Proof.
  intros H st. exists []. simpl. rewrite app_nil_r. auto.
Qed.

Lemma tracked_call {A} (Q : A -> Prop) (answer : list event -> Exc A) ev :
  (forall tr, failed (answer tr) = call_raised w tr ev) ->
  (forall tr a, answer tr = Ok a -> Q a) ->
  tracked w Q (call answer ev).
Proof.
  intros Hf HQ st. exists [ev]. unfold call. cbn [fst snd trace].
  split; [reflexivity|]. specialize (Hf (trace st)). specialize (HQ (trace st)).
  cbn [none_raised last_raised]. rewrite <- Hf.
  destruct (answer (trace st)) as [a|e]; simpl; auto.
Qed.

Lemma tracked_bind {A B} (Q1 : A -> Prop) (Q : B -> Prop)
      (m : M A) (k : A -> M B) :
  tracked w Q1 m -> (forall a, Q1 a -> tracked w Q (k a)) ->
  tracked w Q (mbind m k).
Proof.
  intros Hm Hk st. unfold mbind. destruct (Hm st) as [e1 [T1 R1]].
  destruct (m st) as [[a|e] st1]; cbn [fst snd] in *.
  - destruct R1 as [Ha N1]. destruct (Hk a Ha st1) as [e2 [T2 R2]].
    exists (e1 ++ e2). split.
    + rewrite T2, T1, app_assoc. reflexivity.
    + rewrite T1 in R2. destruct (fst (k a st1)).
      * destruct R2 as [Hq N2]. split; [assumption|].
        rewrite none_raised_app, N1, N2. reflexivity.
      * apply last_raised_app; assumption.
  - exists e1. auto.
Qed.

Lemma tracked_for_each {A} (l : list A) (body : A -> M unit) :
  (forall x, tracked w (fun _ => True) (body x)) ->
  tracked w (fun _ => True) (for_each l body).
Proof.
  intros Hb. induction l as [|x l IH]; cbn [for_each].
  - apply tracked_ret. exact I.
  - apply (tracked_bind (fun _ => True)); [apply Hb|intros _ _; assumption].
Qed.

(** [try: m except Exception: return False], for an [m] that ends with
    [return True]. *)
Lemma tracked_try (m : M bool) st :
  tracked w (fun b => b = true) m ->
  exists b st' evs,
    try_catch m (ret false) st = (Ok b, st')
    /\ trace st' = trace st ++ evs
    /\ if b then none_raised w (trace st) evs = true
       else last_raised w (trace st) evs = true.
Proof.
  intros H. destruct (H st) as [evs [T R]]. unfold try_catch, ret.
  destruct (m st) as [[b|e] st1]; cbn [fst snd] in *.
  - destruct R as [-> N]. exists true, st1, evs. auto.
  - exists false, st1, evs. auto.
Qed.

Lemma create_directories_result st :
  exists b st',
    create_directories w cfg st = (Ok b, st')
    /\ same_counts st st'
    /\ (b = true
        <-> exists input_dir output_dir,
            get_input_dir cfg = Ok input_dir
            /\ get_output_dir cfg = Ok output_dir
            /\ mkdir w (trace st) (Path input_dir) = Ok tt
            /\ mkdir w (trace st ++ [Mkdir (Path input_dir)])
                     (Path output_dir) = Ok tt).
Proof.
  pose proof (create_directories_calm st) as [C _]. revert C.
  unfold create_directories, try_catch, mbind, lift, call, ret.
  destruct (get_input_dir cfg) as [i|e].
  2:{ cbn [snd]. intros C. exists false, st. split; [reflexivity|].
      split; [assumption|]. split; [discriminate|].
      intros [i [o [H _]]]. discriminate. }
  destruct (get_output_dir cfg) as [o|e].
  2:{ cbn [snd]. intros C. exists false, st. split; [reflexivity|].
      split; [assumption|]. split; [discriminate|].
      intros [i' [o' [_ [H _]]]]. discriminate. }
  cbn [trace]. destruct (mkdir w (trace st) (Path i)) as [[]|e] eqn:E1.
  2:{ cbn [snd]. intros C. eexists false, _. split; [reflexivity|].
      split; [assumption|]. split; [discriminate|].
      intros [i' [o' [Hi [_ [H _]]]]]. injection Hi as <-. congruence. }
  cbn [trace].
  destruct (mkdir w (trace st ++ [Mkdir (Path i)]) (Path o)) as [[]|e] eqn:E2.
  - cbn [snd]. intros C. eexists true, _. split; [reflexivity|].
    split; [assumption|]. split; [|reflexivity].
    intros _. exists i, o. auto.
  - cbn [snd]. intros C. eexists false, _. split; [reflexivity|].
    split; [assumption|]. split; [discriminate|].
    intros [i' [o' [Hi [Ho [_ H]]]]].
    injection Hi as <-. injection Ho as <-. congruence.
Qed.

Lemma find_text_files_result st :
  exists l st',
    find_text_files w cfg st = (Ok l, st')
    /\ same_counts st st'
    /\ (forall input_dir entries,
          get_input_dir cfg = Ok input_dir ->
          iterdir w (trace st) (Path input_dir) = Ok entries ->
          l = map fst (filter (fun f => snd f && has_txt_suffix w (fst f))
                              entries))
    /\ (forall e, get_input_dir cfg = Raise e -> l = [])
    /\ (forall input_dir e,
          get_input_dir cfg = Ok input_dir ->
          iterdir w (trace st) (Path input_dir) = Raise e -> l = []).
Proof.
  pose proof (find_text_files_calm st) as [C _]. revert C.
  unfold find_text_files, try_catch, mbind, lift, call, ret.
  destruct (get_input_dir cfg) as [i|e].
  2:{ cbn [snd]. intros C. exists [], st. split; [reflexivity|].
      split; [assumption|]. split; [|split].
      - intros i entries H. discriminate.
      - reflexivity.
      - reflexivity. }
  cbn [trace]. destruct (iterdir w (trace st) (Path i)) as [entries|e] eqn:E.
  - cbn [snd]. intros C. eexists _, _. split; [reflexivity|].
    split; [assumption|]. split; [|split].
    + intros i' entries' Hi H. injection Hi as <-. congruence.
    + discriminate.
    + intros i' e Hi H. injection Hi as <-. congruence.
  - cbn [snd]. intros C. eexists [], _. split; [reflexivity|].
    split; [assumption|]. split; [|split].
    + intros i' entries Hi H. injection Hi as <-. congruence.
    + reflexivity.
    + reflexivity.
Qed.

Lemma delete_original_files_result (files : list str) st :
  exists b st' evs,
    delete_original_files w cfg files st = (Ok b, st')
    /\ same_counts st st'
    /\ trace st' = trace st ++ evs
    /\ if b
       then (exists input_dir, get_input_dir cfg = Ok input_dir)
            /\ none_raised w (trace st) evs = true
       else (evs = [] /\ exists e, get_input_dir cfg = Raise e)
            \/ ((exists input_dir, get_input_dir cfg = Ok input_dir)
                /\ last_raised w (trace st) evs = true).
Proof.
  pose proof (delete_original_files_same_counts files st) as C. revert C.
  unfold delete_original_files. destruct (get_input_dir cfg) as [i|e].
  - match goal with
    | |- context [try_catch ?m (ret false) st] =>
        destruct (tracked_try m st) as [b [st' [evs [E [T H]]]]]
    end.
    { apply (tracked_bind (fun _ => True));
        [apply tracked_lift_ok; exact I|intros input_dir _].
      apply (tracked_bind (fun _ => True)).
      - apply tracked_for_each. intros filename.
        apply (tracked_bind (fun _ => True));
          [apply tracked_call; [reflexivity|auto]|intros [|] _].
        + apply tracked_call; [reflexivity|auto].
        + apply tracked_ret. exact I.
      - intros _ _. apply tracked_ret. reflexivity. }
    rewrite E. cbn [snd]. intros C. exists b, st', evs.
    split; [reflexivity|]. split; [assumption|]. split; [assumption|].
    destruct b; [split; eauto|right; split; eauto].
  - unfold try_catch, mbind, lift, ret. cbn [snd]. intros C.
    exists false, st, []. split; [reflexivity|]. split; [assumption|].
    rewrite app_nil_r. split; [reflexivity|]. left. eauto.
Qed.

Lemma backup_original_files_result (files : list str) st b st' :
  backup_original_files w cfg files st = (Ok b, st') ->
  same_counts st st'
  /\ exists evs,
      trace st' = trace st ++ evs
      /\ if b
         then none_raised w (trace st) evs = true
              /\ ((should_backup w = Ok false /\ evs = [])
                  \/ (should_backup w = Ok true
                      /\ exists input_dir, get_input_dir cfg = Ok input_dir))
         else should_backup w = Ok true
              /\ ((evs = [] /\ exists e, get_input_dir cfg = Raise e)
                  \/ ((exists input_dir, get_input_dir cfg = Ok input_dir)
                      /\ last_raised w (trace st) evs = true)).
Proof.
  intros H. split.
  { pose proof (backup_original_files_calm files st) as [C _].
    rewrite H in C. exact C. }
  revert H. unfold backup_original_files, mbind at 1, lift at 1.
  destruct (should_backup w) as [[|]|e]; cbn [negb]; [| |discriminate].
  - destruct (get_input_dir cfg) as [i|e].
    + match goal with
      | |- context [try_catch ?m (ret false) st] =>
          destruct (tracked_try m st) as [b' [s' [evs [E [T H]]]]]
      end.
      { apply (tracked_bind (fun _ => True));
          [apply tracked_lift_ok; exact I|intros input_dir _].
        apply (tracked_bind (fun _ => True));
          [apply tracked_call; [reflexivity|auto]|intros _ _].
        apply (tracked_bind (fun _ => True)).
        - apply tracked_for_each. intros filename.
          apply (tracked_bind (fun _ => True));
            [apply tracked_lift_ok; exact I|intros input_dir' _].
          apply tracked_call; [reflexivity|auto].
        - intros _ _. apply tracked_ret. reflexivity. }
      rewrite E. intros Hr. injection Hr as <- <-. exists evs.
      split; [assumption|]. destruct b'.
      * split; [assumption|]. right. eauto.
      * split; [reflexivity|]. right. eauto.
    + unfold try_catch, mbind, lift, ret. intros Hr. injection Hr as <- <-.
      exists []. rewrite app_nil_r. split; [reflexivity|].
      split; [reflexivity|]. left. eauto.
  - unfold ret. intros Hr. injection Hr as <- <-.
    exists []. rewrite app_nil_r. split; [reflexivity|].
    split; [reflexivity|]. left. auto.
Qed.

End DriverFacts.

End BatchFacts.


(** ** Properties of the batch driver *)
Module BatchExtras.

Import Py Re Config Cleaner Props Batch PyFacts BatchFacts.
Local Open Scope list_scope.

(** X8.  One call of [process_single_file] counts the file once: it
    returns [True] with [processed_count] one higher, after the file was
    read and the normalizer's output for the text read was written, without
    an exception, under the same name in the output directory; or it
    returns [False] with [error_count] one higher, after the read raised, or
    after the read returned and the write of the normalizer's output raised;
    or it raises, before it touches anything, the exception of one of the
    three configuration reads. *)
Theorem single_file_is_counted_once w cfg (filename : str) st :
  match process_single_file w cfg filename st with
  | (Ok true, st') =>
      processed_count st' = S (processed_count st)
      /\ error_count st' = error_count st
      /\ exists input_dir output_dir encoding raw_text cleaned_text,
          get_input_dir cfg = Ok input_dir
          /\ get_output_dir cfg = Ok output_dir
          /\ get_encoding cfg = Ok encoding
          /\ read_text w (trace st) (Join (Path input_dir) filename) encoding
             = Ok raw_text
          /\ clean_quoted_email cfg raw_text = Ok cleaned_text
          /\ write_text w
               (trace st ++ [ReadText (Join (Path input_dir) filename) encoding])
               (Join (Path output_dir) filename) encoding cleaned_text
             = Ok tt
          /\ trace st'
             = trace st
                 ++ [ReadText (Join (Path input_dir) filename) encoding;
                     WriteText (Join (Path output_dir) filename) encoding
                               cleaned_text]
  | (Ok false, st') =>
      processed_count st' = processed_count st
      /\ error_count st' = S (error_count st)
      /\ exists input_dir output_dir encoding,
          get_input_dir cfg = Ok input_dir
          /\ get_output_dir cfg = Ok output_dir
          /\ get_encoding cfg = Ok encoding
          /\ ((exists e,
                 read_text w (trace st) (Join (Path input_dir) filename)
                           encoding
                 = Raise e
                 /\ trace st'
                    = trace st
                        ++ [ReadText (Join (Path input_dir) filename)
                                     encoding])
              \/ (exists raw_text cleaned_text e,
                    read_text w (trace st) (Join (Path input_dir) filename)
                              encoding
                    = Ok raw_text
                    /\ clean_quoted_email cfg raw_text = Ok cleaned_text
                    /\ write_text w
                         (trace st
                            ++ [ReadText (Join (Path input_dir) filename)
                                         encoding])
                         (Join (Path output_dir) filename) encoding
                         cleaned_text
                       = Raise e
                    /\ trace st'
                       = trace st
                           ++ [ReadText (Join (Path input_dir) filename)
                                        encoding;
                               WriteText (Join (Path output_dir) filename)
                                         encoding cleaned_text]))
  | (Raise e, st') =>
      st' = st
      /\ (get_input_dir cfg = Raise e \/ get_output_dir cfg = Raise e
          \/ get_encoding cfg = Raise e)
  end.
Proof. apply process_single_file_spec. Qed.

(** X9.  When [process_all_files] returns, the two counts are those of this
    run alone: both are 0 if the directories could not be created, and
    otherwise they add up to the number of text files found. *)
Theorem counts_add_up w cfg st p e st' :
  process_all_files w cfg st = (Ok (p, e), st') ->
  p = processed_count st' /\ e = error_count st'
  /\ exists created st1,
      create_directories w cfg (snd (reset_counts st)) = (Ok created, st1)
      /\ if created
         then exists files st2,
             find_text_files w cfg st1 = (Ok files, st2)
             /\ (p + e = length files)%nat
         else p = O /\ e = O.
Proof. apply process_all_files_counts. Qed.

Lemma counts_add_up_witness :
  let w := unreadable_world in
  let cfg := _load_config None in
  let st := {| processed_count := 7; error_count := 5; trace := [] |} in
  let st' := snd (process_all_files w cfg st) in
  2%nat = error_count st'
  /\ exists created st1,
      create_directories w cfg (snd (reset_counts st)) = (Ok created, st1)
      /\ if created
         then exists files st2,
             find_text_files w cfg st1 = (Ok files, st2)
             /\ (0 + 2 = length files)%nat
         else O = O /\ 2%nat = O.
Proof.
  intros w cfg st st'.
  apply (counts_add_up w cfg st 0 2 st'). reflexivity.
Defined.

(** X10.  When no file was processed, [process_all_files] neither asks
    the user nor deletes anything: the calls it made are all other than
    [input] and [unlink]. *)
Theorem nothing_processed_nothing_deleted w cfg st :
  processed_count (snd (process_all_files w cfg st)) = O ->
  grew_by quiet st (snd (process_all_files w cfg st)).
Proof.
  intros H. destruct (rest_quiet_while_zero w cfg st) as [_ Hq].
  apply Hq. assumption.
Qed.

Lemma nothing_processed_nothing_deleted_witness :
  grew_by quiet start
          (snd (process_all_files unreadable_world (_load_config None) start)).
Proof.
  apply (nothing_processed_nothing_deleted unreadable_world
           (_load_config None) start).
  reflexivity.
Defined.

(** X11.  Without an answer of the user that is [y], [yes] or [はい] once
    trimmed and lowered, [process_all_files] unlinks nothing. *)
Theorem no_deletion_without_consent w cfg st :
  (forall tr line, input w tr = Answer line -> accepted w line = false) ->
  grew_by not_unlink st (snd (process_all_files w cfg st)).
Proof. intros H. apply process_all_files_not_unlink. assumption. Qed.

Lemma no_deletion_without_consent_witness :
  grew_by not_unlink start
          (snd (process_all_files (calm_world (Answer (u " yes please ")))
                                  (_load_config None) start)).
Proof.
  apply (no_deletion_without_consent (calm_world (Answer (u " yes please ")))
           (_load_config None) start).
  intros tr line H. injection H as <-. reflexivity.
Defined.

(** X12.  No failure of the file system leaves [process_all_files]: an
    exception it raises comes from reading the backup option or the
    encoding in the configuration, or from [input]. *)
Theorem only_configuration_errors_escape w cfg st e st' :
  process_all_files w cfg st = (Raise e, st') ->
  should_backup w = Raise e \/ get_encoding cfg = Raise e
  \/ exists tr, input w tr = InputError e.
Proof. apply process_all_files_raises. Qed.

Lemma only_configuration_errors_escape_witness :
  should_backup unconfigured_world = Raise (Exception "ValueError")
  \/ get_encoding (_load_config None) = Raise (Exception "ValueError")
  \/ exists tr, input unconfigured_world tr
                = InputError (Exception "ValueError").
Proof.
  apply (only_configuration_errors_escape unconfigured_world
           (_load_config None) start (Exception "ValueError")
           (snd (process_all_files unconfigured_world
                                   (_load_config None) start))).
  reflexivity.
Defined.

(** X13.  Whatever the outside does, [process_all_files] writes only
    outputs of the normalizer, under the output directory; copies only
    from the input directory to its [backup] directory, under the same
    name; and unlinks only in the input directory; each time for a name
    with the text suffix. *)
Theorem files_stay_in_place w cfg st :
  exists evs,
    trace (snd (process_all_files w cfg st)) = trace st ++ evs
    /\ Forall (in_place w cfg) evs.
Proof. apply process_all_files_in_place. Qed.

(** X14.  [create_directories], [find_text_files] and
    [delete_original_files] always return, whatever fails, and leave the
    counters as they are.  [create_directories] returns [True] exactly when
    both directory names could be read and both [mkdir] calls returned, and
    [False] otherwise.  [find_text_files] returns the names of the regular
    files with the text suffix when the listing returned, and the empty
    list when the directory name could not be read or the listing raised.
    [delete_original_files] returns [True] exactly when the directory name
    could be read and no call it made raised, and [False] when the name
    could not be read, with no call made, or when a call raised, which is
    then the last call it made.  [backup_original_files] raises only when
    the backup option cannot be read, and then has done nothing; when it
    returns, the value is [True] if the option is off, with no call made,
    or if no call it made raised, and [False] if the directory name could
    not be read or a call raised, which is then the last call it made. *)
Theorem helpers_absorb_failures w cfg (files : list str) st :
  (exists b st',
      create_directories w cfg st = (Ok b, st')
      /\ same_counts st st'
      /\ (b = true
          <-> exists input_dir output_dir,
              get_input_dir cfg = Ok input_dir
              /\ get_output_dir cfg = Ok output_dir
              /\ mkdir w (trace st) (Path input_dir) = Ok tt
              /\ mkdir w (trace st ++ [Mkdir (Path input_dir)])
                       (Path output_dir) = Ok tt))
  /\ (exists l st',
        find_text_files w cfg st = (Ok l, st')
        /\ same_counts st st'
        /\ (forall input_dir entries,
              get_input_dir cfg = Ok input_dir ->
              iterdir w (trace st) (Path input_dir) = Ok entries ->
              l = map fst
                      (filter (fun f => snd f && has_txt_suffix w (fst f))
                              entries))
        /\ (forall e, get_input_dir cfg = Raise e -> l = [])
        /\ (forall input_dir e,
              get_input_dir cfg = Ok input_dir ->
              iterdir w (trace st) (Path input_dir) = Raise e -> l = []))
  /\ (exists b st' evs,
        delete_original_files w cfg files st = (Ok b, st')
        /\ same_counts st st'
        /\ trace st' = trace st ++ evs
        /\ if b
           then (exists input_dir, get_input_dir cfg = Ok input_dir)
                /\ none_raised w (trace st) evs = true
           else (evs = [] /\ exists e, get_input_dir cfg = Raise e)
                \/ ((exists input_dir, get_input_dir cfg = Ok input_dir)
                    /\ last_raised w (trace st) evs = true))
  /\ (forall e st', backup_original_files w cfg files st = (Raise e, st') ->
                    should_backup w = Raise e /\ st' = st)
  /\ (forall b st',
        backup_original_files w cfg files st = (Ok b, st') ->
        same_counts st st'
        /\ exists evs,
            trace st' = trace st ++ evs
            /\ if b
               then none_raised w (trace st) evs = true
                    /\ ((should_backup w = Ok false /\ evs = [])
                        \/ (should_backup w = Ok true
                            /\ exists input_dir,
                                get_input_dir cfg = Ok input_dir))
               else should_backup w = Ok true
                    /\ ((evs = [] /\ exists e, get_input_dir cfg = Raise e)
                        \/ ((exists input_dir,
                                get_input_dir cfg = Ok input_dir)
                            /\ last_raised w (trace st) evs = true))).
Proof.
  split; [apply create_directories_result|].
  split; [apply find_text_files_result|].
  split; [apply delete_original_files_result|].
  split; [apply backup_original_files_raises|].
  apply backup_original_files_result.
Qed.

Lemma helpers_absorb_failures_witness :
  (should_backup unconfigured_world = Raise (Exception "ValueError")
   /\ start = start)
  /\ (let w := locked_world in
      let cfg := _load_config None in
      let p := Join (Path (u "input")) (u "a.txt") in
      backup_original_files w cfg [u "a.txt"] start
      = (Ok false,
         {| processed_count := 0; error_count := 0;
            trace := [Mkdir (Join (Path (u "input")) (u "backup"))] |})
      /\ exists evs,
          [Mkdir (Join (Path (u "input")) (u "backup"))] = [] ++ evs
          /\ should_backup w = Ok true
          /\ ((evs = [] /\ exists e, get_input_dir cfg = Raise e)
              \/ ((exists input_dir, get_input_dir cfg = Ok input_dir)
                  /\ last_raised w [] evs = true))).
Proof.
  split.
  - destruct (helpers_absorb_failures unconfigured_world (_load_config None)
                [u "a.txt"] start) as [_ [_ [_ [H _]]]].
    apply (H (Exception "ValueError") start). reflexivity.
  - intros w cfg p.
    assert (E : backup_original_files w cfg [u "a.txt"] start
                = (Ok false,
                   {| processed_count := 0; error_count := 0;
                      trace := [Mkdir (Join (Path (u "input"))
                                            (u "backup"))] |}))
      by reflexivity.
    split; [exact E|].
    destruct (helpers_absorb_failures w cfg [u "a.txt"] start)
      as [_ [_ [_ [_ H]]]].
    destruct (H _ _ E) as [_ [evs [T Hb]]]. exists evs.
    split; [exact T|exact Hb].
Defined.

(** X15.  The calls of a run of [process_all_files] come in the order of
    its parts: first the directories, the listing and the backup copies,
    then the reading and writing of the files, then the question to the
    user, then the deletions.  No output is written before the backup was
    made, and nothing is deleted before every file was processed and the
    user was asked. *)
Theorem calls_come_in_order w cfg st :
  exists evs,
    trace (snd (process_all_files w cfg st)) = trace st ++ evs
    /\ StronglySorted phase_le evs.
Proof.
  destruct (process_all_files_in_order w cfg st) as [evs [E [_ S]]].
  exists evs. auto.
Qed.

End BatchExtras.
